(** * bin-voter: majority voting over redundant firmware dumps

    A shallow embedding of [bin-voter.py] and the properties of its
    voting engine ([_attempt_vote], [get_voted_byte]) and of its driver
    ([create_corrected_firmware]).

    Conventions of the embedding:
    - Python integers are [Z]; the bytes of a file are [Byte.byte], and
      indexing a [bytes] object yields the integer [int_of_byte b];
    - Python floats are IEEE 754 binary64 values, taken from the
      executable specification [SpecFloat] of the Standard Library;
    - a [Counter] is an association list in insertion order, because both
      [most_common] (a stable sort) and [items] depend on that order;
    - effects (console, keyboard, file system, exceptions) are threaded
      through an exception-and-state monad [M] over a [world];
    - text rendering (f-strings, the csv module) is kept symbolic: what
      is printed is recorded as structured [event]s. *)

From Stdlib Require Import ZArith SpecFloat Strings.Byte Strings.Ascii Strings.String.
From stdpp Require Import gmap strings list sorting.

Local Open Scope Z_scope.

(** ** Floats *)

Module Float.

Definition prec : Z := 53.
Definition emax : Z := 1024.

(** [float(n)] for an integer [n]. *)
Definition of_int (n : Z) : spec_float := binary_normalize prec emax n 0 false.

(** [a / b] on two integers ([int.__truediv__]): [None] stands for
    [ZeroDivisionError]. The operands are counts of files; below 2^53
    they are floats exactly and the quotient is rounded once. *)
Definition truediv (a b : Z) : option spec_float :=
  if b =? 0 then None else Some (SFdiv prec emax (of_int a) (of_int b)).

(** [a >= b] on floats: false as soon as one side is a NaN. *)
Definition ge (a b : spec_float) : bool := SFleb b a.

End Float.

(** ** Counter *)

Definition Counter := list (Z * Z).

(** [counts[b] += 1]: an existing key keeps its position, a new key goes
    to the end. *)
Fixpoint counter_incr (b : Z) (c : Counter) : Counter :=
  match c with
  | [] => [(b, 1)]
  | (k, n) :: c' => if k =? b then (k, n + 1) :: c' else (k, n) :: counter_incr b c'
  end.

(** [Counter(byte_list)]. *)
Definition counter_of (byte_list : list Z) : Counter :=
  fold_left (fun c b => counter_incr b c) byte_list [].

(** [counts.get(b, 0)]. *)
Fixpoint counter_get (b : Z) (c : Counter) : Z :=
  match c with
  | [] => 0
  | (k, n) :: c' => if k =? b then n else counter_get b c'
  end.

(** [sorted(counts.items(), key=itemgetter(1), reverse=True)]: Python's
    sort is stable, also with [reverse=True], so items with equal counts
    stay in insertion order. *)
Fixpoint rank_insert (x : Z * Z) (l : list (Z * Z)) : list (Z * Z) :=
  match l with
  | [] => [x]
  | y :: l' => if x.2 <? y.2 then y :: rank_insert x l' else x :: y :: l'
  end.

Definition most_common (c : Counter) : list (Z * Z) :=
  foldr rank_insert [] c.

(** ** Errors and exceptions *)

(** [get_detailed_breakdown()]: per file when the column still has one
    byte per input file, the bare list of values otherwise. *)
Inductive breakdown :=
| PerFile (rows : list (string * Z))
| AfterFiltering (values : list Z).

(** The sentence about the margin in the threshold error message. *)
Inductive margin_note :=
| MarginNotSet
| MarginWas (calculated required : spec_float)
| NoRunnerUp.

(** What the message of a [ValueError] says. *)
Inductive vote_error :=
| EmptyColumn
| TieDetected (tied_values : list Z) (max_count : Z) (details : breakdown)
| ThresholdNotMet (most_common_byte winner_count num_files : Z)
    (agreement threshold : spec_float) (note : margin_note)
    (options : list (Z * Z)) (details : breakdown)
| OnlyNulls (offset : Z)
| ErrorAtOffset (offset : Z) (cause : vote_error).

Inductive exn :=
| ValueError (msg : vote_error)
| ZeroDivisionError
| IndexError
| OverflowError
| KeyboardInterrupt
| EOFError
| FileNotFoundError (path : string)
| SystemExit (code : Z)
| OutOfFuel.

Inductive result (A : Type) :=
| Ok (a : A)
| Raise (e : exn).
Arguments Ok {A} a.
Arguments Raise {A} e.

(** ** The world *)

(** One line of the report. *)
Record discrepancy := Discrepancy {
  d_offset : Z;
  d_winning_byte : Z;
  d_agreement : Z * Z;
  d_all_votes : list (Z * Z)
}.

(** What the operator does at a prompt. *)
Inductive keyboard :=
| Line (text : string)
| CtrlC.

Inductive event :=
| NoticeMargin (offset : Z) (calculated_margin : spec_float)
| NoticeIgnoringNulls (offset : Z)
| ErrPrint (msg : vote_error)
| ErrInteractiveBanner
| PleaseSelect
| Candidate (number byte count : Z)
| Prompt (upto : Z)
| UserSelected (byte offset : Z)
| ErrInvalidChoice
| ErrInvalidInput
| NoInputFiles
| OutputExists (path : string)
| DifferentSize (path : string)
| ErrorMissing (path : string)
| ProcessingFiles (n : Z) (size : Z)
| ThresholdSet (threshold : spec_float)
| MarginSet (margin : spec_float)
| ReportWillBeSaved (path : string)
| WarnOverwriting (path : string)
| OutputWillBeWritten (path : string)
| Working
| DiscrepancyAt (offset winner : Z) (options : list (Z * Z))
| Progress (processed size : Z)
| ErrInterrupted
| ReportSaved (path : string)
| ProcessingComplete
| TotalDisagreements (n : Z)
| SavedTo (path : string).

Record world := World {
  fs : gmap string (list byte);   (* the files, by path *)
  stdin : list keyboard;          (* what the operator will type *)
  console : list event;           (* stdout and stderr, oldest first *)
  argv : list string;             (* sys.argv *)
  voted : list Z                  (* ghost: offsets get_voted_byte was called for *)
}.

Definition M (A : Type) : Type := world -> result A * world.

Definition ret {A} (a : A) : M A := fun w => (Ok a, w).

Definition bind {A B} (m : M A) (k : A -> M B) : M B :=
  fun w => match m w with
           | (Ok a, w') => k a w'
           | (Raise e, w') => (Raise e, w')
           end.

Definition raise {A} (e : exn) : M A := fun w => (Raise e, w).

#[export] Instance M_ret : MRet M := @ret.
#[export] Instance M_bind : MBind M := fun A B k m => bind m k.

(** The world after one more line on the console. *)
Definition say (e : event) (w : world) : world :=
  World (fs w) (stdin w) (console w ++ [e]) (argv w) (voted w).

Definition print (e : event) : M unit := fun w => (Ok tt, say e w).

Definition get_argv : M (list string) := fun w => (Ok (argv w), w).

(** Ghost: remember that the voter was entered for [offset]. *)
Definition entered (offset : Z) (w : world) : world :=
  World (fs w) (stdin w) (console w) (argv w) (voted w ++ [offset]).

Definition note_vote (offset : Z) : M unit := fun w => (Ok tt, entered offset w).

(** [try: m  except ValueError as e: h e]. *)
Definition except_ValueError {A} (m : M A) (h : vote_error -> M A) : M A :=
  fun w => match m w with
           | (Raise (ValueError e), w') => h e w'
           | r => r
           end.

Definition lift_div {A} (q : option A) : M A :=
  match q with
  | Some x => ret x
  | None => raise ZeroDivisionError
  end.

(** ** The voter *)

(** [os.path.basename]: what follows the last slash. *)
Fixpoint basename_aux (p acc : string) : string :=
  match p with
  | EmptyString => acc
  | String c p' =>
      if Ascii.eqb c "/"%char then basename_aux p' EmptyString
      else basename_aux p' (acc +:+ String c EmptyString)
  end.

Definition basename (p : string) : string := basename_aux p EmptyString.

Definition get_detailed_breakdown (byte_list : list Z) (input_files : list string)
  : breakdown :=
  if bool_decide (length byte_list ≠ length input_files)
  then AfterFiltering byte_list
  else PerFile (zip (basename <$> input_files) byte_list).

(** The tie test of line 31. *)
Definition is_tie (most_common_list : list (Z * Z)) : bool :=
  match most_common_list with
  | (_, c0) :: (_, c1) :: _ => c0 =? c1
  | _ => false
  end.

Definition tied_values (most_common_list : list (Z * Z)) (max_count : Z) : list Z :=
  fst <$> filter (fun bc => bc.2 = max_count) most_common_list.

Definition is_verbose (args : list string) : bool :=
  bool_decide ("verbose"%string ∈ args) || bool_decide ("-v"%string ∈ args).

(** Lines 47-55: the margin of victory, tried after the absolute
    threshold has failed. [true] when the vote passes on it. *)
Definition margin_check (margin : option spec_float) (most_common_list : list (Z * Z))
    (winner_count offset : Z) : M bool :=
  match margin, most_common_list with
  | Some m, _ :: (_, runner_up_count) :: _ =>
      if 0 <? runner_up_count then
        calculated_margin ← lift_div (Float.truediv (winner_count - runner_up_count) runner_up_count);
        if Float.ge calculated_margin m then
          args ← get_argv;
          (if is_verbose args then print (NoticeMargin offset calculated_margin) else ret tt);;
          ret true
        else ret false
      else ret false
  | _, _ => ret false
  end.

(** Lines 64-73: what the error message says about the margin. *)
Definition margin_report (margin : option spec_float) (most_common_list : list (Z * Z))
    (winner_count : Z) : M margin_note :=
  match margin with
  | None => ret MarginNotSet
  | Some m =>
      match most_common_list with
      | _ :: (_, runner_up_count) :: _ =>
          calculated_margin ← lift_div (Float.truediv (winner_count - runner_up_count) runner_up_count);
          ret (MarginWas calculated_margin m)
      | _ => ret NoRunnerUp
      end
  end.

(** Lines 8-78. *)
Definition _attempt_vote (byte_list : list Z) (num_files : Z)
    (threshold : spec_float) (margin : option spec_float) (offset : Z)
    (input_files : list string) : M (Z * Counter) :=
  match byte_list with
  | [] => raise (ValueError EmptyColumn)
  | _ :: _ =>
      let counts := counter_of byte_list in
      let most_common_list := most_common counts in
      if is_tie most_common_list then
        let max_count := default 0 (snd <$> head most_common_list) in
        raise (ValueError (TieDetected (tied_values most_common_list max_count) max_count
                             (get_detailed_breakdown byte_list input_files)))
      else
        match most_common_list with
        | [] => raise IndexError
        | (most_common_byte, winner_count) :: _ =>
            agreement ← lift_div (Float.truediv winner_count num_files);
            if Float.ge agreement threshold then ret (most_common_byte, counts)
            else
              passed ← margin_check margin most_common_list winner_count offset;
              if (passed : bool) then ret (most_common_byte, counts)
              else
                note ← margin_report margin most_common_list winner_count;
                raise (ValueError (ThresholdNotMet most_common_byte winner_count num_files
                                     agreement threshold note counts
                                     (get_detailed_breakdown byte_list input_files)))
        end
  end.

(** ** Conflict resolution *)

(** The world in which [keys] is what is left of the keyboard input. *)
Definition typed (keys : list keyboard) (w : world) : world :=
  World (fs w) keys (console w) (argv w) (voted w).

(** [input(...)]: the prompt is shown, then the operator answers, hits
    Ctrl-C, or the input has ended. *)
Definition input (upto : Z) : M string :=
  fun w =>
    let w1 := say (Prompt upto) w in
    match stdin w with
    | [] => (Raise EOFError, w1)
    | CtrlC :: keys => (Raise KeyboardInterrupt, typed keys w1)
    | Line text :: keys => (Ok text, typed keys w1)
    end.

(** [for i, (byte, count) in enumerate(sorted_candidates): print(...)]. *)
Fixpoint print_candidates (i : Z) (sorted_candidates : list (Z * Z)) : M unit :=
  match sorted_candidates with
  | [] => ret tt
  | (byte, count) :: rest =>
      print (Candidate (i + 1) byte count);; print_candidates (i + 1) rest
  end.

(** [filtered_data] of line 90. *)
Definition filter_nulls (byte_list : list Z) (input_files : list string)
  : list (Z * string) :=
  filter (fun bf => bf.1 ≠ 0) (zip byte_list input_files).

(** ** Files *)

(** An open input file: its path and how far it has been read. *)
Definition handle : Type := string * nat.

(** The files as they are now. *)
Definition get_fs : M (gmap string (list byte)) := fun w => (Ok (fs w), w).

(** The world with the files replaced. *)
Definition with_fs (files : gmap string (list byte)) (w : world) : world :=
  World files (stdin w) (console w) (argv w) (voted w).

Definition set_fs (files : gmap string (list byte)) : M unit :=
  fun w => (Ok tt, with_fs files w).

(** [os.path.exists]. *)
Definition path_exists (path : string) : M bool :=
  files ← get_fs; ret (bool_decide (is_Some (files !! path))).

(** [os.path.getsize]. *)
Definition getsize (path : string) : M Z :=
  files ← get_fs;
  match files !! path with
  | Some data => ret (Z.of_nat (length data))
  | None => raise (FileNotFoundError path)
  end.

(** [open(path, 'rb')]. *)
Definition open_rb (path : string) : M handle :=
  files ← get_fs;
  match files !! path with
  | Some _ => ret (path, O)
  | None => raise (FileNotFoundError path)
  end.

(** [open(path, 'wb')]: the file is created, or emptied. *)
Definition open_wb (path : string) : M unit :=
  files ← get_fs; set_fs (<[path := []]> files).

(** [fh.read(chunk_size)]: the chunk and the handle after it; a negative
    size reads all that is left. *)
Definition read (files : gmap string (list byte)) (chunk_size : Z) (fh : handle)
  : list byte * handle :=
  let rest := drop fh.2 (default [] (files !! fh.1)) in
  let chunk := if chunk_size <? 0 then rest else take (Z.to_nat chunk_size) rest in
  (chunk, (fh.1, (fh.2 + length chunk)%nat)).

(** [chunk[i]] on a [bytes] object. *)
Definition int_of_byte (b : byte) : Z := Z.of_N (Byte.to_N b).

(** [n.to_bytes(1, 'big')]: [None] stands for [OverflowError]. *)
Definition to_bytes1 (n : Z) : option byte :=
  if (0 <=? n) && (n <? 256) then Byte.of_N (Z.to_N n) else None.

(** [out_f.write(n.to_bytes(1, 'big'))]. The byte is taken to reach the
    file at once: the buffer of the output handle is not modelled, as
    nothing reads the output file while it is being written. *)
Definition write_byte (path : string) (n : Z) : M unit :=
  match to_bytes1 n with
  | None => raise OverflowError
  | Some b =>
      files ← get_fs;
      set_fs (<[path := default [] (files !! path) ++ [b]]> files)
  end.

(** A whole file written at once. *)
Definition write_file (path : string) (data : list byte) : M unit :=
  files ← get_fs; set_fs (<[path := data]> files).

(** [os.remove]. *)
Definition remove (path : string) : M unit :=
  files ← get_fs;
  match files !! path with
  | Some _ => set_fs (delete path files)
  | None => raise (FileNotFoundError path)
  end.

(** [[chunk[i] for chunk in chunks]]: [None] stands for [IndexError]. *)
Fixpoint column_at (chunks : list (list byte)) (i : nat) : option (list Z) :=
  match chunks with
  | [] => Some []
  | chunk :: chunks' =>
      match chunk !! i with
      | None => None
      | Some b =>
          match column_at chunks' i with
          | None => None
          | Some column => Some (int_of_byte b :: column)
          end
      end
  end.

(** [not chunk]: an empty [bytes] object is false. *)
Definition is_empty {A} (l : list A) : bool :=
  match l with [] => true | _ => false end.

(** A list comprehension whose body has effects. *)
Fixpoint map_M {A B} (f : A -> M B) (l : list A) : M (list B) :=
  match l with
  | [] => ret []
  | x :: l' => y ← f x; ys ← map_M f l'; ret (y :: ys)
  end.

(** A [for] loop that updates locals. *)
Fixpoint for_each {A S} (body : S -> A -> M S) (l : list A) (st : S) : M S :=
  match l with
  | [] => ret st
  | x :: l' => st' ← body st x; for_each body l' st'
  end.

(** [try: m  except FileNotFoundError: h]. *)
Definition except_FileNotFoundError {A} (m : M A) (h : string -> M A) : M A :=
  fun w => match m w with
           | (Raise (FileNotFoundError path), w') => h path w'
           | r => r
           end.

(** [try: m  except ...: h e], the handler choosing what it catches. *)
Definition try_except {A} (m : M A) (h : exn -> M A) : M A :=
  fun w => match m w with
           | (Raise e, w') => h e w'
           | r => r
           end.

Section Voter.

(** The builtin [int] on a string: [None] when it raises [ValueError]. *)
Variable int_of_str : string -> option Z.

(** One round of the [while True] loop of lines 113-124. [None]: the
    answer was rejected and the loop goes round again. *)
Definition prompt_once (sorted_candidates : list (Z * Z)) (counts : Counter)
    (offset : Z) : M (option (Z * Counter)) :=
  choice_str ← input (Z.of_nat (length sorted_candidates));
  match int_of_str choice_str with
  | None => print ErrInvalidInput;; ret None
  | Some n =>
      let choice_idx := n - 1 in
      if (0 <=? choice_idx) && (choice_idx <? Z.of_nat (length sorted_candidates)) then
        match sorted_candidates !! Z.to_nat choice_idx with
        | Some (chosen_byte, _) =>
            print (UserSelected chosen_byte offset);; ret (Some (chosen_byte, counts))
        | None => print ErrInvalidInput;; ret None
        end
      else print ErrInvalidChoice;; ret None
  end.

(** The loop, by recursion on what is left of the keyboard input: every
    round consumes one entry, and [input] raises once nothing is left, so
    that the [OutOfFuel] of the first case is never reached (see
    [prompt_until_valid_raises]). *)
Fixpoint prompt_loop (sorted_candidates : list (Z * Z)) (counts : Counter)
    (offset : Z) (keys : list keyboard) : M (Z * Counter) :=
  match keys with
  | [] =>
      r ← prompt_once sorted_candidates counts offset;
      match r with
      | Some chosen => ret chosen
      | None => raise OutOfFuel
      end
  | _ :: keys' =>
      r ← prompt_once sorted_candidates counts offset;
      match r with
      | Some chosen => ret chosen
      | None => prompt_loop sorted_candidates counts offset keys'
      end
  end.

(** Lines 113-124: the loop on the keyboard input of the world. *)
Definition prompt_until_valid (sorted_candidates : list (Z * Z)) (counts : Counter)
    (offset : Z) : M (Z * Counter) :=
  fun w => prompt_loop sorted_candidates counts offset (stdin w) w.

(** Lines 87-99: the retry without the 0x00 bytes. [inl]: the retry
    returned a byte; [inr]: the error the next stage goes on with. *)
Definition retry_without_nulls (byte_list : list Z) (num_files : Z)
    (threshold : spec_float) (margin : option spec_float) (offset : Z)
    (ignore_nulls : bool) (input_files : list string) (e : vote_error)
  : M (Z * Counter + vote_error) :=
  if ignore_nulls && bool_decide (0 ∈ byte_list) then
    print (NoticeIgnoringNulls offset);;
    let filtered_data := filter_nulls byte_list input_files in
    match filtered_data with
    | [] => raise (ValueError (OnlyNulls offset))
    | _ :: _ =>
        let filtered_byte_list := fst <$> filtered_data in
        let filtered_files_list := snd <$> filtered_data in
        except_ValueError
          (voted_byte ← _attempt_vote filtered_byte_list num_files threshold
                          margin offset filtered_files_list;
           ret (inl voted_byte))
          (fun retry_e => ret (inr retry_e))
    end
  else ret (inr e).

(** Lines 101-126: the operator decides, or the error is raised again. *)
Definition escalate (byte_list : list Z) (offset : Z) (interactive : bool)
    (e : vote_error) : M (Z * Counter) :=
  let full_error_message := ErrorAtOffset offset e in
  if interactive then
    print (ErrPrint full_error_message);;
    print ErrInteractiveBanner;;
    let counts := counter_of byte_list in
    let sorted_candidates := most_common counts in
    print PleaseSelect;;
    print_candidates 0 sorted_candidates;;
    prompt_until_valid sorted_candidates counts offset
  else raise (ValueError full_error_message).

(** Lines 80-126. *)
Definition get_voted_byte (byte_list : list Z) (num_files : Z)
    (threshold : spec_float) (margin : option spec_float) (offset : Z)
    (ignore_nulls interactive : bool) (input_files : list string)
  : M (Z * Counter) :=
  note_vote offset;;
  except_ValueError
    (_attempt_vote byte_list num_files threshold margin offset input_files)
    (fun e =>
       retried ← retry_without_nulls byte_list num_files threshold margin offset
                   ignore_nulls input_files e;
       match retried with
       | inl voted_byte => ret voted_byte
       | inr e => escalate byte_list offset interactive e
       end).

(** ** The driver *)

(** The locals of [create_corrected_firmware] that outlive one offset. *)
Record locals := Locals {
  discrepancy_count : Z;
  report_data : list discrepancy
}.

Section Driver.

Variables (input_files : list string) (output_file : string)
  (threshold : spec_float) (margin : option spec_float) (verbose : bool)
  (report_file : option string) (chunk_size : Z)
  (force ignore_nulls interactive : bool).

(** The csv module on the rows of the report: header and rows, as the
    bytes of the file. *)
Variable render_report : list discrepancy -> list byte.

(** Truth value of [report_file]: set, and not the empty string. *)
Definition report_wanted : bool :=
  match report_file with
  | Some path => negb (String.eqb path EmptyString)
  | None => false
  end.

(** Lines 174-196: one offset of the current chunks. *)
Definition process_position (file_handles : list handle) (chunks : list (list byte))
    (bytes_processed : Z) (st : locals) (i : nat) : M locals :=
  let current_offset := bytes_processed + Z.of_nat i in
  match column_at chunks i with
  | None => raise IndexError
  | Some bytes_at_position =>
      match bytes_at_position with
      | [] => raise IndexError
      | first :: _ =>
          if negb (forallb (fun b => b =? first) bytes_at_position) then
            let count := discrepancy_count st + 1 in
            voted_byte ← get_voted_byte bytes_at_position (Z.of_nat (length file_handles))
                           threshold margin current_offset ignore_nulls interactive
                           input_files;
            let most_common_int := voted_byte.1 in
            let counts := voted_byte.2 in
            (if verbose && negb interactive
             then print (DiscrepancyAt current_offset most_common_int counts)
             else ret tt);;
            let rows :=
              if report_wanted then
                report_data st ++
                  [Discrepancy current_offset most_common_int
                     (counter_get most_common_int counts, Z.of_nat (length file_handles))
                     (counter_of bytes_at_position)]
              else report_data st in
            write_byte output_file most_common_int;;
            ret (Locals count rows)
          else
            write_byte output_file first;;
            ret st
      end
  end.

(** Lines 170-200: the [while] loop. [fuel] bounds the number of rounds:
    [stream] below gives it the size of the first file plus one, which
    is never used up as long as the output file is not one of the input
    files, every round then reading a chunk of at least one byte (see
    [run_enough_fuel]). *)
Fixpoint stream_loop (fuel : nat) (first_file_size : Z) (file_handles : list handle)
    (bytes_processed : Z) (st : locals) : M locals :=
  if bytes_processed <? first_file_size then
    match fuel with
    | O => raise OutOfFuel
    | S fuel' =>
        files ← get_fs;
        let reads := read files chunk_size <$> file_handles in
        let chunks := fst <$> reads in
        let file_handles' := snd <$> reads in
        if negb (existsb (fun chunk => negb (is_empty chunk)) chunks) then ret st
        else
          match chunks with
          | [] => raise IndexError
          | chunk0 :: _ =>
              let n := length chunk0 in
              st' ← for_each (process_position file_handles' chunks bytes_processed)
                      (seq 0 n) st;
              let bytes_processed' := bytes_processed + Z.of_nat n in
              print (Progress bytes_processed' first_file_size);;
              stream_loop fuel' first_file_size file_handles' bytes_processed' st'
          end
    end
  else ret st.

(** Lines 166-200: the body of the [try]. *)
Definition stream (first_file_size : Z) : M locals :=
  file_handles ← map_M open_rb input_files;
  open_wb output_file;;
  stream_loop (S (Z.to_nat first_file_size)) first_file_size file_handles 0
    (Locals 0 []).

(** Lines 202-209: the handler of [ValueError] and [KeyboardInterrupt]. *)
Definition abort (e : exn) : M locals :=
  match e with
  | KeyboardInterrupt =>
      print ErrInterrupted;; remove output_file;; raise (SystemExit 1)
  | ValueError msg =>
      print (ErrPrint msg);; remove output_file;; raise (SystemExit 1)
  | _ => raise e
  end.

(** Lines 142-153: the sizes. [None]: the function returns at once. *)
Fixpoint same_size (first_file_size : Z) (rest : list string) : M bool :=
  match rest with
  | [] => ret true
  | f :: rest' =>
      size ← getsize f;
      if negb (size =? first_file_size) then print (DifferentSize f);; ret false
      else same_size first_file_size rest'
  end.

Definition check_sizes : M (option Z) :=
  except_FileNotFoundError
    (match input_files with
     | [] => raise IndexError
     | f0 :: rest =>
         first_file_size ← getsize f0;
         same ← same_size first_file_size rest;
         ret (if (same : bool) then Some first_file_size else None)
     end)
    (fun path => print (ErrorMissing path);; ret None).

(** Lines 155-161. *)
Definition announce (first_file_size : Z) : M unit :=
  print (ProcessingFiles (Z.of_nat (length input_files)) first_file_size);;
  print (ThresholdSet threshold);;
  (match margin with Some m => print (MarginSet m) | None => ret tt end);;
  (match report_file with
   | Some path => if report_wanted then print (ReportWillBeSaved path) else ret tt
   | None => ret tt
   end);;
  present ← path_exists output_file;
  (if force && present then print (WarnOverwriting output_file)
   else print (OutputWillBeWritten output_file));;
  print Working.

(** Lines 213-226. *)
Definition finish (st : locals) : M unit :=
  (match report_file with
   | Some path =>
       if report_wanted && negb (is_empty (report_data st)) then
         write_file path (render_report (report_data st));;
         print (ReportSaved path)
       else ret tt
   | None => ret tt
   end);;
  print ProcessingComplete;;
  print (TotalDisagreements (discrepancy_count st));;
  print (SavedTo output_file).

Definition create_corrected_firmware : M unit :=
  match input_files with
  | [] => print NoInputFiles
  | _ :: _ =>
      present ← path_exists output_file;
      if present && negb force then
        print (OutputExists output_file);; raise (SystemExit 1)
      else
        checked ← check_sizes;
        match checked with
        | None => ret tt
        | Some first_file_size =>
            announce first_file_size;;
            st ← try_except (stream first_file_size) abort;
            finish st
        end
  end.

End Driver.

End Voter.

(** The status the interpreter exits with once the script is over:
    the call of line 252 is its last statement. *)
Definition exit_status {A} (r : result A) : Z :=
  match r with
  | Ok _ => 0
  | Raise (SystemExit code) => code
  | Raise _ => 1
  end.

(** Instances of the two builtins, for the worked examples: unsigned
    decimal numerals, and one byte per row of the report. *)
Fixpoint decimal_aux (s : string) (acc : Z) : option Z :=
  match s with
  | EmptyString => Some acc
  | String c s' =>
      let d := Z.of_nat (nat_of_ascii c) - 48 in
      if (0 <=? d) && (d <=? 9) then decimal_aux s' (10 * acc + d) else None
  end.

Definition decimal (s : string) : option Z :=
  match s with
  | EmptyString => None
  | _ => decimal_aux s 0
  end.

Definition one_byte_per_row (rows : list discrepancy) : list byte :=
  (fun _ => x2c) <$> rows.

(** Three dumps of two bytes that differ pairwise at offset 1, and
    three of which two agree there. *)
Definition three_way_dumps : gmap string (list byte) :=
  <["a"%string := [x01; xaa]]> (<["b"%string := [x01; xbb]]>
    (<["c"%string := [x01; xcc]]> ∅)).

Definition two_to_one_dumps : gmap string (list byte) :=
  <["a"%string := [x01; xaa]]> (<["b"%string := [x01; xaa]]>
    (<["c"%string := [x01; xbb]]> ∅)).

(** Two dumps that are the same. *)
Definition twin_dumps : gmap string (list byte) :=
  <["a"%string := [x01; xaa]]> (<["b"%string := [x01; xaa]]> ∅).

(** Number of occurrences of [b] in a column. *)
Definition occurrences (b : Z) (l : list Z) : Z :=
  Z.of_nat (length (filter (fun x => x = b) l)).

(** Binary64 constants of the examples. *)
Definition f0_9 : spec_float := S754_finite false 8106479329266893 (-53).
Definition f0_65 : spec_float := S754_finite false 5854679515581645 (-53).
Definition f0_75 : spec_float := S754_finite false 6755399441055744 (-53).
Definition f0_5 : spec_float := S754_finite false 4503599627370496 (-53).
Definition f1_0 : spec_float := S754_finite false 4503599627370496 (-52).

(** ** Vocabulary of the statements *)

(** Every count of a counter is positive. *)
Definition positive_counts (c : Counter) : Prop := Forall (fun kc => 0 < kc.2) c.

(** Counts never increase along a ranking. *)
Definition descending (l : list (Z * Z)) : Prop :=
  StronglySorted (fun x y => y.2 ≤ x.2) l.

(** The world after the notice of line 54, which is printed only when
    [sys.argv] asks for it. *)
Definition noticed (offset : Z) (calculated_margin : spec_float) (w : world) : world :=
  if is_verbose (argv w) then say (NoticeMargin offset calculated_margin) w else w.

(** What follows a failed first vote. *)
Definition after_conflict (int_of_str : string -> option Z) (byte_list : list Z) (num_files : Z)
    (threshold : spec_float) (margin : option spec_float) (offset : Z)
    (ignore_nulls interactive : bool) (input_files : list string)
    (e : vote_error) : M (Z * Counter) :=
  retried ← retry_without_nulls byte_list num_files threshold margin offset
              ignore_nulls input_files e;
  match retried with
  | inl voted_byte => ret voted_byte
  | inr e => escalate int_of_str byte_list offset interactive e
  end.

(** The world after several more lines on the console. *)
Definition say_all (events : list event) (w : world) : world :=
  World (fs w) (stdin w) (console w ++ events) (argv w) (voted w).

(** The menu of the interactive prompt: the candidates, numbered from
    [i + 1]. *)
Fixpoint menu (i : Z) (sorted_candidates : list (Z * Z)) : list event :=
  match sorted_candidates with
  | [] => []
  | (byte, count) :: rest => Candidate (i + 1) byte count :: menu (i + 1) rest
  end.

(** An answer the prompt accepts: a number from 1 to [n]. *)
Definition accepted (int_of_str : string -> option Z) (n : nat) (text : string) : bool :=
  match int_of_str text with
  | Some k => (1 <=? k) && (k <=? Z.of_nat n)
  | None => false
  end.

(** What the console shows for an answer that is not accepted. *)
Definition rejection (int_of_str : string -> option Z) (n : nat) (text : string)
  : list event :=
  [Prompt (Z.of_nat n);
   match int_of_str text with Some _ => ErrInvalidChoice | None => ErrInvalidInput end].

(** The error of line 92. *)
Definition only_nulls (e : exn) : Prop := ∃ offset, e = ValueError (OnlyNulls offset).

(** The exceptions the handler of lines 202-209 is written for. *)
Definition fatal (e : exn) : Prop := e = KeyboardInterrupt ∨ ∃ msg, e = ValueError msg.

(** A column whose bytes are not all the same. *)
Definition disagreeing (column : list Z) : Prop :=
  match column with
  | [] => False
  | first :: _ => forallb (fun b => b =? first) column = false
  end.

(** [m] takes every world to one related to it by [R]. *)
Definition respects {A} (R : relation world) (m : M A) : Prop :=
  ∀ w r w', m w = (r, w') → R w w'.

(** The files are the same. *)
Definition same_files : relation world := fun w w' => fs w' = fs w.

(** Only the console and what is left of the keyboard input may differ. *)
Definition dialogue : relation world := fun w w' =>
  fs w' = fs w ∧ argv w' = argv w ∧ voted w' = voted w.

(** Only the file at [path] may differ, and it is not removed. *)
Definition only_writes (path : string) : relation world := fun w w' =>
  (∀ other, other ≠ path → fs w' !! other = fs w !! other)
  ∧ (is_Some (fs w !! path) → is_Some (fs w' !! path)).

(** The file at [path] is there and has [size] bytes. *)
Definition sized (files : gmap string (list byte)) (size : Z) (path : string) : Prop :=
  ∃ data, files !! path = Some data ∧ Z.of_nat (length data) = size.

(** [m] looks at nothing but the files: from two worlds with the same
    files it gives the same result and the same files again, whatever
    the keyboard, the console and [sys.argv] are. *)
Definition oblivious {A} (m : M A) : Prop :=
  ∀ w1 w2, fs w1 = fs w2 → (m w1).1 = (m w2).1 ∧ fs (m w1).2 = fs (m w2).2.

(** How many bytes [read] returns from a file of [size] bytes that has
    been read up to [position]. *)
Definition chunk_length (chunk_size : Z) (size position : nat) : nat :=
  if chunk_size <? 0 then (size - position)%nat
  else (Z.to_nat chunk_size `min` (size - position))%nat.

(** All handles of the input files at the same position. *)
Definition handles_at (input_files : list string) (position : nat) : list handle :=
  (fun path => (path, position)) <$> input_files.

(** The byte of the file at [path] at offset [i]. *)
Definition byte_at (files : gmap string (list byte)) (path : string) (i : nat)
  : option byte :=
  files !! path ≫= fun data => data !! i.

(** Every input file holds the byte [b] at offset [i]. *)
Definition uniform_at (files : gmap string (list byte)) (input_files : list string)
    (i : nat) (b : byte) : Prop :=
  Forall (fun path => byte_at files path i = Some b) input_files.

(** [offset] is below [position], and the input files do not all hold
    the same byte there. *)
Definition disagreeing_before (files : gmap string (list byte))
    (input_files : list string) (position : nat) (offset : Z) : Prop :=
  ∃ i, offset = Z.of_nat i ∧ (i < position)%nat
       ∧ ¬ ∃ b, uniform_at files input_files i b.

(** What holds once the offsets below [position] have been processed,
    in a run that started from the files [files0] and the ghost log
    [voted0]: the input files are as they were; the output file has one
    byte per offset, the common byte wherever there is one; the voter was
    entered, the count incremented and a row of the report written only
    for offsets at which the input files disagree. *)
Record streamed (files0 : gmap string (list byte)) (voted0 : list Z)
    (input_files : list string) (output_file : string)
    (position : nat) (st : locals) (w : world) : Prop := Streamed {
  streamed_inputs : ∀ path, path ≠ output_file → fs w !! path = files0 !! path;
  streamed_output : ∃ out,
    fs w !! output_file = Some out ∧ length out = position
    ∧ ∀ i b, (i < position)%nat → uniform_at files0 input_files i b → out !! i = Some b;
  streamed_voted : ∃ votes,
    voted w = voted0 ++ votes
    ∧ Forall (disagreeing_before files0 input_files position) votes
    ∧ discrepancy_count st = Z.of_nat (length votes);
  streamed_report :
    Forall (fun d => disagreeing_before files0 input_files position (d_offset d))
      (report_data st)
}.

(** The sum of the counts ([Counter.total]). *)
Definition counter_total (c : Counter) : Z := foldr (fun kc acc => kc.2 + acc) 0 c.

(** The ways the streaming is meant to end other than by completing:
    the operator gives up or the input ends, with interactive mode on,
    and a conflict at an offset below [size], with interactive mode off. *)
Definition expected_raise (interactive : bool) (size : nat) (e : exn) : Prop :=
  (interactive = true ∧ (e = EOFError ∨ e = KeyboardInterrupt))
  ∨ (interactive = false
     ∧ ∃ i cause, (i < size)%nat ∧ e = ValueError (ErrorAtOffset (Z.of_nat i) cause)).

(** The files other than the output file and the report are the same. *)
Definition other_files_kept (output_file : string) (report_file : option string)
  : relation world := fun w w' =>
  ∀ other, other ≠ output_file → report_file ≠ Some other →
           fs w' !! other = fs w !! other.

(** [bytes_at_position] at offset [i]: what the input files hold there,
    in the order of the files. *)
Definition column_of (files : gmap string (list byte)) (input_files : list string)
    (i : nat) : list Z :=
  omap (fun path => int_of_byte <$> byte_at files path i) input_files.

(** The test of line 178 on a column. *)
Definition differs (column : list Z) : bool :=
  match column with
  | [] => false
  | first :: _ => negb (forallb (fun b => b =? first) column)
  end.

(** The offsets below [position] at which the input files differ, in
    ascending order. *)
Definition conflicts (files : gmap string (list byte)) (input_files : list string)
    (position : nat) : list nat :=
  List.filter (fun i => differs (column_of files input_files i)) (seq 0 position).

(** The row of the report for offset [i], given the output [out]: the
    byte written there, how many of the input files hold it there, out of
    how many files, and the count of every byte of the column. *)
Definition row_for (files : gmap string (list byte)) (input_files : list string)
    (out : list byte) (i : nat) (row : discrepancy) : Prop :=
  ∃ b, out !! i = Some b
       ∧ row = Discrepancy (Z.of_nat i) (int_of_byte b)
                 (occurrences (int_of_byte b) (column_of files input_files i),
                  Z.of_nat (length input_files))
                 (counter_of (column_of files input_files i)).

(** What holds once the offsets below [position] have been processed,
    said exactly: the output file has one byte per offset, each of them
    a byte of the column of its offset; the voter was entered once for
    every offset in conflict, in ascending order; the count is their
    number; the report, when one is wanted, has their rows. *)
Record tallied (files0 : gmap string (list byte)) (voted0 : list Z)
    (input_files : list string) (output_file : string) (report_file : option string)
    (position : nat) (st : locals) (w : world) : Prop := Tallied {
  tallied_inputs : ∀ path, path ≠ output_file → fs w !! path = files0 !! path;
  tallied_output : ∃ out,
    fs w !! output_file = Some out ∧ length out = position
    ∧ (∀ i b, out !! i = Some b → int_of_byte b ∈ column_of files0 input_files i)
    ∧ if report_wanted report_file
      then Forall2 (row_for files0 input_files out)
             (conflicts files0 input_files position) (report_data st)
      else report_data st = [];
  tallied_voted :
    voted w = voted0 ++ (Z.of_nat <$> conflicts files0 input_files position);
  tallied_count :
    discrepancy_count st = Z.of_nat (length (conflicts files0 input_files position))
}.

(** The margin [margin'] asks for no more than [margin] does: no margin
    at all lets no vote pass on its margin. *)
Definition margin_relaxed (margin margin' : option spec_float) : Prop :=
  match margin, margin' with
  | None, _ => True
  | Some m, Some m' => Float.ge m m' = true
  | Some _, None => False
  end.

(** * Facts *)

(** ** Counters and rankings *)

Lemma counter_incr_keys b c :
  (counter_incr b c).*1 = if bool_decide (b ∈ c.*1) then c.*1 else c.*1 ++ [b].
Proof.
  induction c as [|[k n] c IH]; csimpl; [done|].
  destruct (Z.eqb_spec k b) as [->|Hne]; csimpl.
  - rewrite bool_decide_eq_true_2; [done|]. apply list_elem_of_here.
  - rewrite IH. case_bool_decide as Hin.
    + rewrite bool_decide_eq_true_2; [done|]. by apply list_elem_of_further.
    + rewrite bool_decide_eq_false_2; [done|].
      rewrite elem_of_cons. intros [->|?]; done.
Qed.

Lemma counter_incr_get x b c :
  counter_get x (counter_incr b c) = counter_get x c + (if bool_decide (x = b) then 1 else 0).
Proof.
  induction c as [|[k n] c IH]; simpl.
  - destruct (Z.eqb_spec b x) as [->|Hne].
    + by rewrite bool_decide_eq_true_2.
    + rewrite bool_decide_eq_false_2; [done|]. congruence.
  - destruct (Z.eqb_spec k b) as [->|Hne]; simpl.
    + destruct (Z.eqb_spec b x) as [->|Hne'].
      * by rewrite bool_decide_eq_true_2.
      * rewrite bool_decide_eq_false_2; [lia|]. congruence.
    + destruct (Z.eqb_spec k x) as [->|Hne'].
      * rewrite bool_decide_eq_false_2; [lia|]. congruence.
      * apply IH.
Qed.

Lemma counter_incr_positive b c : positive_counts c → positive_counts (counter_incr b c).
Proof.
  unfold positive_counts. induction 1 as [|[k n] c Hn Hc IH]; simpl.
  - repeat constructor.
  - destruct (k =? b); constructor; simpl in *; try done. lia.
Qed.

Lemma counter_incr_NoDup b c : NoDup (c.*1) → NoDup ((counter_incr b c).*1).
Proof.
  intros Hnd. rewrite counter_incr_keys. case_bool_decide as Hin; [done|].
  apply NoDup_app. split_and!; [done| |apply NoDup_singleton].
  intros x Hx ->%list_elem_of_singleton. done.
Qed.

Lemma counter_get_elem k n c : NoDup (c.*1) → (k, n) ∈ c → counter_get k c = n.
Proof.
  induction c as [|[k' n'] c IH]; csimpl; intros Hnd Hin.
  - by apply elem_of_nil in Hin.
  - apply NoDup_cons in Hnd as [Hk' Hnd].
    apply elem_of_cons in Hin as [[= <- <-]|Hin].
    + by rewrite Z.eqb_refl.
    + destruct (Z.eqb_spec k' k) as [->|Hne]; [|by apply IH].
      exfalso. apply Hk'. apply list_elem_of_fmap. by exists (k, n).
Qed.

Lemma counter_get_absent k c : k ∉ c.*1 → counter_get k c = 0.
Proof.
  induction c as [|[k' n'] c IH]; csimpl; intros Hk; [done|].
  apply not_elem_of_cons in Hk as [Hne Hk].
  destruct (Z.eqb_spec k' k) as [->|_]; [done|by apply IH].
Qed.

Lemma counter_get_present k c : k ∈ c.*1 → (k, counter_get k c) ∈ c.
Proof.
  induction c as [|[k' n'] c IH]; csimpl; intros Hk.
  - by apply elem_of_nil in Hk.
  - destruct (Z.eqb_spec k' k) as [->|Hne]; [apply list_elem_of_here|].
    apply list_elem_of_further, IH. apply elem_of_cons in Hk as [?|?]; [congruence|done].
Qed.

Lemma occurrences_cons x b l :
  occurrences x (b :: l) = (if bool_decide (x = b) then 1 else 0) + occurrences x l.
Proof.
  unfold occurrences. rewrite filter_cons.
  case_decide; simplify_eq.
  - rewrite bool_decide_eq_true_2; [|done]. simpl. lia.
  - rewrite bool_decide_eq_false_2; [lia|congruence].
Qed.

Lemma occurrences_nonneg x l : 0 ≤ occurrences x l.
Proof. unfold occurrences. lia. Qed.

Lemma occurrences_pos x l : 0 < occurrences x l ↔ x ∈ l.
Proof.
  induction l as [|b l IH].
  - split; [unfold occurrences; simpl; lia|by intros ?%elem_of_nil].
  - rewrite occurrences_cons, elem_of_cons. pose proof (occurrences_nonneg x l).
    case_bool_decide; intuition lia.
Qed.

(** The three invariants of a counter built by repeated increments. *)
Lemma counter_fold_spec l c :
  NoDup (c.*1) → positive_counts c →
  let c' := fold_left (fun c b => counter_incr b c) l c in
  NoDup (c'.*1) ∧ positive_counts c' ∧
  ∀ x, counter_get x c' = counter_get x c + occurrences x l.
Proof.
  revert c. induction l as [|b l IH]; intros c Hnd Hpos; simpl.
  - split_and!; [done..|]. intros x. unfold occurrences. simpl. lia.
  - destruct (IH (counter_incr b c)) as (Hnd' & Hpos' & Hget).
    { by apply counter_incr_NoDup. }
    { by apply counter_incr_positive. }
    split_and!; [done..|]. intros x.
    rewrite Hget, counter_incr_get, occurrences_cons. lia.
Qed.

Lemma counter_of_NoDup l : NoDup ((counter_of l).*1).
Proof. apply (counter_fold_spec l []); [apply NoDup_nil_2|constructor]. Qed.

Lemma counter_of_positive l : positive_counts (counter_of l).
Proof. apply (counter_fold_spec l []); [apply NoDup_nil_2|constructor]. Qed.

Lemma counter_of_get x l : counter_get x (counter_of l) = occurrences x l.
Proof.
  destruct (counter_fold_spec l []) as (_ & _ & H); [apply NoDup_nil_2|constructor|].
  apply H.
Qed.

(** A counter lists each byte of the column once, with its number of
    occurrences. *)
Lemma counter_of_elem b n l :
  (b, n) ∈ counter_of l ↔ b ∈ l ∧ n = occurrences b l.
Proof.
  split.
  - intros Hin.
    assert (n = occurrences b l) as ->.
    { rewrite <- counter_of_get. symmetry. apply counter_get_elem; [|done].
      apply counter_of_NoDup. }
    split; [|done]. apply occurrences_pos.
    pose proof (counter_of_positive l) as Hpos.
    unfold positive_counts in Hpos. rewrite Forall_forall in Hpos.
    apply (Hpos _ Hin).
  - intros [Hb ->]. rewrite <- counter_of_get. apply counter_get_present.
    destruct (decide (b ∈ (counter_of l).*1)) as [|Hn]; [done|].
    apply counter_get_absent in Hn. rewrite counter_of_get in Hn.
    apply occurrences_pos in Hb. lia.
Qed.

Lemma rank_insert_perm x l : rank_insert x l ≡ₚ x :: l.
Proof.
  induction l as [|y l IH]; simpl; [done|].
  destruct (x.2 <? y.2); [|done]. rewrite IH. apply Permutation_swap.
Qed.

Lemma most_common_perm c : most_common c ≡ₚ c.
Proof.
  induction c as [|x c IH]; simpl; [done|].
  rewrite rank_insert_perm. by constructor.
Qed.

Lemma rank_insert_descending x l : descending l → descending (rank_insert x l).
Proof.
  unfold descending. induction 1 as [|y l Hl IH Hy]; simpl.
  - repeat constructor.
  - destruct (Z.ltb_spec x.2 y.2).
    + constructor; [done|]. rewrite rank_insert_perm. constructor; [lia|done].
    + constructor; [by constructor|]. constructor; [lia|].
      eapply Forall_impl; [exact Hy|]. simpl. intros. lia.
Qed.

Lemma most_common_descending c : descending (most_common c).
Proof.
  induction c as [|x c IH]; simpl; [constructor|]. by apply rank_insert_descending.
Qed.

Lemma most_common_elem b n l :
  (b, n) ∈ most_common (counter_of l) ↔ b ∈ l ∧ n = occurrences b l.
Proof. rewrite most_common_perm. apply counter_of_elem. Qed.

Lemma most_common_positive l : positive_counts (most_common (counter_of l)).
Proof.
  unfold positive_counts. rewrite most_common_perm. apply counter_of_positive.
Qed.

Lemma most_common_nil l : most_common (counter_of l) = [] → l = [].
Proof.
  intros H. destruct l as [|b l]; [done|].
  assert ((b, occurrences b (b :: l)) ∈ most_common (counter_of (b :: l))) as Hin.
  { apply most_common_elem. split; [apply list_elem_of_here|done]. }
  rewrite H in Hin. by apply elem_of_nil in Hin.
Qed.

(** ** Effects on the world *)

Section Respects.

Context (R : relation world) `{!PreOrder R}.

Lemma respects_ret {A} (a : A) : respects R (ret a).
Proof. intros w r w' [= _ <-]. reflexivity. Qed.

Lemma respects_raise {A} e : respects R (@raise A e).
Proof. intros w r w' [= _ <-]. reflexivity. Qed.

Lemma respects_bind {A B} (m : M A) (k : A → M B) :
  respects R m → (∀ a, respects R (k a)) → respects R (m ≫= k).
Proof.
  intros Hm Hk w r w'. unfold mbind, M_bind, bind.
  destruct (m w) as [[a|e] w1] eqn:Hmw.
  - intros Hkw. transitivity w1; [by eapply Hm|by eapply Hk].
  - intros [= _ <-]. by eapply Hm.
Qed.

Lemma respects_for_each {A S} (body : S → A → M S) l st :
  (∀ st x, respects R (body st x)) → respects R (for_each body l st).
Proof.
  intros Hbody. revert st. induction l as [|x l IH]; intros st; simpl.
  - apply respects_ret.
  - apply respects_bind; [apply Hbody|apply IH].
Qed.

Lemma respects_map_M {A B} (f : A → M B) l :
  (∀ x, respects R (f x)) → respects R (map_M f l).
Proof.
  intros Hf. induction l as [|x l IH]; simpl.
  - apply respects_ret.
  - apply respects_bind; [apply Hf|]. intros y.
    apply respects_bind; [apply IH|]. intros ys. apply respects_ret.
Qed.

Lemma respects_except_ValueError {A} (m : M A) h :
  respects R m → (∀ e, respects R (h e)) → respects R (except_ValueError m h).
Proof.
  intros Hm Hh w r w'. unfold except_ValueError.
  destruct (m w) as [[a|e] w1] eqn:Hmw.
  - intros [= _ <-]. by eapply Hm.
  - destruct e; try (intros [= _ <-]; by eapply Hm).
    intros Hhw. transitivity w1; [by eapply Hm|by eapply Hh].
Qed.

Lemma respects_try_except {A} (m : M A) h :
  respects R m → (∀ e, respects R (h e)) → respects R (try_except m h).
Proof.
  intros Hm Hh w r w'. unfold try_except.
  destruct (m w) as [[a|e] w1] eqn:Hmw.
  - intros [= _ <-]. by eapply Hm.
  - intros Hhw. transitivity w1; [by eapply Hm|by eapply Hh].
Qed.

Lemma respects_except_FileNotFoundError {A} (m : M A) h :
  respects R m → (∀ e, respects R (h e)) → respects R (except_FileNotFoundError m h).
Proof.
  intros Hm Hh w r w'. unfold except_FileNotFoundError.
  destruct (m w) as [[a|e] w1] eqn:Hmw.
  - intros [= _ <-]. by eapply Hm.
  - destruct e; try (intros [= _ <-]; by eapply Hm).
    intros Hhw. transitivity w1; [by eapply Hm|by eapply Hh].
Qed.

End Respects.

#[export] Instance same_files_preorder : PreOrder same_files.
Proof.
  split; [done|]. intros w1 w2 w3 H12 H23. unfold same_files in *. congruence.
Qed.

#[export] Instance only_writes_preorder path : PreOrder (only_writes path).
Proof.
  split.
  - by intros w.
  - intros w1 w2 w3 [H12 E12] [H23 E23]. split.
    + intros other Hne. by rewrite H23, H12.
    + auto.
Qed.

#[export] Instance dialogue_preorder : PreOrder dialogue.
Proof.
  split; [done|]. intros w1 w2 w3 (? & ? & ?) (? & ? & ?).
  unfold dialogue. split_and!; congruence.
Qed.

Lemma dialogue_same_files w w' : dialogue w w' → same_files w w'.
Proof. by intros [? _]. Qed.

Lemma same_files_only_writes path w w' : same_files w w' → only_writes path w w'.
Proof. unfold same_files. intros Hfs. split; intros; by rewrite Hfs. Qed.

Lemma respects_weaken {A} (R R' : relation world) (m : M A) :
  (∀ w w', R w w' → R' w w') → respects R m → respects R' m.
Proof. intros HR Hm w r w' Hmw. by eapply HR, Hm. Qed.

(** ** Computations that depend on the files only *)

Lemma oblivious_ret {A} (a : A) : oblivious (ret a).
Proof. by intros w1 w2 Hfs. Qed.

Lemma oblivious_raise {A} e : oblivious (@raise A e).
Proof. by intros w1 w2 Hfs. Qed.

Lemma oblivious_bind {A B} (m : M A) (k : A → M B) :
  oblivious m → (∀ a, oblivious (k a)) → oblivious (m ≫= k).
Proof.
  intros Hm Hk w1 w2 Hfs. unfold mbind, M_bind, bind.
  destruct (Hm w1 w2 Hfs) as [Hr Hfs'].
  destruct (m w1) as [r1 w1'], (m w2) as [r2 w2']. simpl in *. subst r2.
  destruct r1 as [a|e]; [by apply Hk|done].
Qed.

Lemma oblivious_print e : oblivious (print e).
Proof. by intros w1 w2 Hfs. Qed.

Lemma oblivious_get_fs : oblivious get_fs.
Proof. intros w1 w2 Hfs. simpl. by rewrite Hfs. Qed.

Lemma oblivious_set_fs files : oblivious (set_fs files).
Proof. by intros w1 w2 Hfs. Qed.

Lemma oblivious_note_vote offset : oblivious (note_vote offset).
Proof. by intros w1 w2 Hfs. Qed.

Lemma oblivious_for_each {A S} (body : S → A → M S) l st :
  (∀ st x, oblivious (body st x)) → oblivious (for_each body l st).
Proof.
  intros Hbody. revert st. induction l as [|x l IH]; intros st; simpl.
  - apply oblivious_ret.
  - apply oblivious_bind; [apply Hbody|apply IH].
Qed.

Lemma oblivious_map_M {A B} (f : A → M B) l :
  (∀ x, oblivious (f x)) → oblivious (map_M f l).
Proof.
  intros Hf. induction l as [|x l IH]; simpl.
  - apply oblivious_ret.
  - apply oblivious_bind; [apply Hf|]. intros y.
    apply oblivious_bind; [apply IH|]. intros ys. apply oblivious_ret.
Qed.

Lemma oblivious_try_except {A} (m : M A) h :
  oblivious m → (∀ e, oblivious (h e)) → oblivious (try_except m h).
Proof.
  intros Hm Hh w1 w2 Hfs. unfold try_except.
  destruct (Hm w1 w2 Hfs) as [Hr Hfs'].
  destruct (m w1) as [r1 w1'], (m w2) as [r2 w2']. simpl in *. subst r2.
  destruct r1 as [a|e]; [done|by apply Hh].
Qed.

Lemma oblivious_except_ValueError {A} (m : M A) h :
  oblivious m → (∀ e, oblivious (h e)) → oblivious (except_ValueError m h).
Proof.
  intros Hm Hh w1 w2 Hfs. unfold except_ValueError.
  destruct (Hm w1 w2 Hfs) as [Hr Hfs'].
  destruct (m w1) as [r1 w1'], (m w2) as [r2 w2']. simpl in *. subst r2.
  destruct r1 as [a|e]; [done|]. destruct e; try done. by apply Hh.
Qed.

Lemma oblivious_except_FileNotFoundError {A} (m : M A) h :
  oblivious m → (∀ e, oblivious (h e)) → oblivious (except_FileNotFoundError m h).
Proof.
  intros Hm Hh w1 w2 Hfs. unfold except_FileNotFoundError.
  destruct (Hm w1 w2 Hfs) as [Hr Hfs'].
  destruct (m w1) as [r1 w1'], (m w2) as [r2 w2']. simpl in *. subst r2.
  destruct r1 as [a|e]; [done|]. destruct e; try done. by apply Hh.
Qed.

Lemma oblivious_lift_div {A} (q : option A) : oblivious (lift_div q).
Proof. destruct q; [apply oblivious_ret|apply oblivious_raise]. Qed.

(** The notice of line 54 depends on [sys.argv], the outcome of the
    vote does not. *)
Lemma oblivious_margin_check margin ranking winner_count offset :
  oblivious (margin_check margin ranking winner_count offset).
Proof.
  unfold margin_check.
  destruct margin as [m|]; [|apply oblivious_ret].
  destruct ranking as [|first [|[b2 rc] rest]]; [apply oblivious_ret..|].
  destruct (0 <? rc); [|apply oblivious_ret].
  apply oblivious_bind; [apply oblivious_lift_div|]. intros cm.
  destruct (Float.ge cm m); [|apply oblivious_ret].
  intros w1 w2 Hfs. unfold mbind, M_bind, bind, get_argv.
  by destruct (is_verbose (argv w1)), (is_verbose (argv w2)).
Qed.

Lemma oblivious_margin_report margin ranking winner_count :
  oblivious (margin_report margin ranking winner_count).
Proof.
  unfold margin_report.
  destruct margin as [m|]; [|apply oblivious_ret].
  destruct ranking as [|first [|[b2 rc] rest]]; [apply oblivious_ret..|].
  apply oblivious_bind; [apply oblivious_lift_div|]. intros cm. apply oblivious_ret.
Qed.

Lemma oblivious_attempt_vote byte_list num_files threshold margin offset input_files :
  oblivious (_attempt_vote byte_list num_files threshold margin offset input_files).
Proof.
  unfold _attempt_vote. destruct byte_list as [|b l]; [apply oblivious_raise|].
  cbv zeta. destruct (is_tie _); [apply oblivious_raise|].
  destruct (most_common _) as [|[winner wc] rest]; [apply oblivious_raise|].
  apply oblivious_bind; [apply oblivious_lift_div|]. intros agreement.
  destruct (Float.ge agreement threshold); [apply oblivious_ret|].
  apply oblivious_bind; [apply oblivious_margin_check|]. intros [|]; [apply oblivious_ret|].
  apply oblivious_bind; [apply oblivious_margin_report|]. intros note.
  apply oblivious_raise.
Qed.

Lemma oblivious_retry
    byte_list num_files threshold margin offset ignore_nulls input_files e :
  oblivious (retry_without_nulls byte_list num_files threshold margin offset
               ignore_nulls input_files e).
Proof.
  unfold retry_without_nulls. destruct (ignore_nulls && _); [|apply oblivious_ret].
  apply oblivious_bind; [apply oblivious_print|]. intros [].
  destruct (filter_nulls _ _) as [|d ds]; [apply oblivious_raise|].
  apply oblivious_except_ValueError; [|intros; apply oblivious_ret].
  apply oblivious_bind; [apply oblivious_attempt_vote|]. intros v. apply oblivious_ret.
Qed.

(** With interactive mode off, so does the whole of [get_voted_byte]. *)
Lemma oblivious_get_voted_byte int_of_str
    byte_list num_files threshold margin offset ignore_nulls input_files :
  oblivious (get_voted_byte int_of_str byte_list num_files threshold margin offset
               ignore_nulls false input_files).
Proof.
  unfold get_voted_byte. apply oblivious_bind; [apply oblivious_note_vote|]. intros [].
  apply oblivious_except_ValueError; [apply oblivious_attempt_vote|]. intros e.
  apply oblivious_bind; [apply oblivious_retry|].
  intros [v|e']; [apply oblivious_ret|apply oblivious_raise].
Qed.

(** ** The voter *)

Ltac run_M :=
  unfold mbind, M_bind, bind, mret, M_ret, ret, raise, lift_div, print, get_argv,
    note_vote, except_ValueError in *; simpl in *.

Lemma truediv_nonzero a b :
  b ≠ 0 →
  Float.truediv a b = Some (SFdiv Float.prec Float.emax (Float.of_int a) (Float.of_int b)).
Proof. intros Hb. unfold Float.truediv. by destruct (Z.eqb_spec b 0). Qed.

Lemma tied_values_elem b ranking max_count :
  b ∈ tied_values ranking max_count ↔ (b, max_count) ∈ ranking.
Proof.
  unfold tied_values. rewrite list_elem_of_fmap. split.
  - intros ([b' n] & -> & [Hn Hin]%list_elem_of_filter). simpl in *. by subst.
  - intros Hin. exists (b, max_count). split; [done|]. by apply list_elem_of_filter.
Qed.

(** The head of a ranking has the greatest count. *)
Lemma most_common_head_max l winner winner_count rest b :
  most_common (counter_of l) = (winner, winner_count) :: rest →
  occurrences b l ≤ winner_count.
Proof.
  intros Hrank. pose proof (most_common_descending (counter_of l)) as Hs.
  unfold descending in Hs. rewrite Hrank in Hs.
  destruct (decide (b ∈ l)) as [Hb|Hb].
  - assert ((b, occurrences b l) ∈ most_common (counter_of l)) as Hin
      by (by apply most_common_elem).
    rewrite Hrank in Hin. apply elem_of_cons in Hin as [[= -> ->]|Hin]; [lia|].
    apply StronglySorted_inv in Hs as [_ Hall]. rewrite Forall_forall in Hall.
    apply (Hall _ Hin).
  - assert (¬ 0 < occurrences b l) by (by rewrite occurrences_pos).
    assert (0 < winner_count); [|lia].
    pose proof (most_common_positive l) as Hpos. unfold positive_counts in Hpos.
    rewrite Hrank in Hpos. by apply Forall_cons in Hpos as [? _].
Qed.

(** C2: a column whose two top-ranked candidates have the same count
    makes the vote fail with the tie error, which carries the tied
    bytes (exactly the bytes of the column that occur that often, the
    two top candidates among them) and their shared count; the
    threshold, the margin and the number of files play no part, as the
    tie is tested before the agreement is even computed. *)
Theorem tie_fails_whatever_the_threshold
    byte_list num_files threshold margin offset input_files b1 b2 count rest w :
  most_common (counter_of byte_list) = (b1, count) :: (b2, count) :: rest →
  let tied := tied_values (most_common (counter_of byte_list)) count in
  _attempt_vote byte_list num_files threshold margin offset input_files w
  = (Raise (ValueError (TieDetected tied count
                          (get_detailed_breakdown byte_list input_files))), w)
  ∧ b1 ∈ tied ∧ b2 ∈ tied
  ∧ (∀ b, b ∈ tied ↔ b ∈ byte_list ∧ occurrences b byte_list = count)
  ∧ (∀ b, occurrences b byte_list ≤ count).
Proof.
  intros Hrank tied. split_and!.
  - unfold _attempt_vote. destruct byte_list as [|b l]; [done|].
    cbv zeta. unfold tied. rewrite Hrank. unfold is_tie.
    by rewrite Z.eqb_refl.
  - apply tied_values_elem. rewrite Hrank. apply list_elem_of_here.
  - apply tied_values_elem. rewrite Hrank. apply list_elem_of_further, list_elem_of_here.
  - intros b. unfold tied. rewrite tied_values_elem, most_common_elem.
    split; intros [? ?]; by subst.
  - intros b. by eapply most_common_head_max.
Qed.

Lemma margin_check_cases margin first rest winner_count offset w :
  positive_counts rest →
  margin_check margin (first :: rest) winner_count offset w =
  match margin, rest with
  | Some m, (_, runner_up_count) :: _ =>
      let calculated_margin :=
        SFdiv Float.prec Float.emax (Float.of_int (winner_count - runner_up_count))
          (Float.of_int runner_up_count) in
      if Float.ge calculated_margin m
      then (Ok true, noticed offset calculated_margin w)
      else (Ok false, w)
  | _, _ => (Ok false, w)
  end.
Proof.
  intros Hpos. unfold margin_check.
  destruct margin as [m|]; [|by destruct rest as [|[? ?] ?]].
  destruct rest as [|[b r] rest]; [done|].
  apply Forall_cons in Hpos as [Hr _]. simpl in Hr.
  destruct (Z.ltb_spec 0 r); [|lia].
  rewrite truediv_nonzero by lia. run_M.
  destruct (Float.ge _ m); [|done].
  unfold noticed. by destruct (is_verbose (argv w)).
Qed.

Lemma margin_report_cases margin first rest winner_count w :
  positive_counts rest →
  margin_report margin (first :: rest) winner_count w =
  (Ok match margin, rest with
      | None, _ => MarginNotSet
      | Some m, [] => NoRunnerUp
      | Some m, (_, runner_up_count) :: _ =>
          MarginWas (SFdiv Float.prec Float.emax
                       (Float.of_int (winner_count - runner_up_count))
                       (Float.of_int runner_up_count)) m
      end, w).
Proof.
  intros Hpos. unfold margin_report.
  destruct margin as [m|]; [|done].
  destruct rest as [|[b r] rest]; [done|].
  apply Forall_cons in Hpos as [Hr _]. simpl in Hr.
  rewrite truediv_nonzero by lia. by run_M.
Qed.

(** What [_attempt_vote] does on a column whose ranking has no tie at
    its head. *)
Lemma attempt_vote_ranked
    byte_list num_files threshold margin offset input_files winner winner_count rest w :
  most_common (counter_of byte_list) = (winner, winner_count) :: rest →
  is_tie ((winner, winner_count) :: rest) = false →
  num_files ≠ 0 →
  let counts := counter_of byte_list in
  let agreement :=
    SFdiv Float.prec Float.emax (Float.of_int winner_count) (Float.of_int num_files) in
  let failure note :=
    Raise (ValueError (ThresholdNotMet winner winner_count num_files agreement
                         threshold note counts
                         (get_detailed_breakdown byte_list input_files))) in
  _attempt_vote byte_list num_files threshold margin offset input_files w =
  if Float.ge agreement threshold then (Ok (winner, counts), w)
  else
    match margin, rest with
    | None, _ => (failure MarginNotSet, w)
    | Some m, [] => (failure NoRunnerUp, w)
    | Some m, (_, runner_up_count) :: _ =>
        let calculated_margin :=
          SFdiv Float.prec Float.emax (Float.of_int (winner_count - runner_up_count))
            (Float.of_int runner_up_count) in
        if Float.ge calculated_margin m
        then (Ok (winner, counts), noticed offset calculated_margin w)
        else (failure (MarginWas calculated_margin m), w)
    end.
Proof.
  intros Hrank Htie Hn counts agreement failure.
  assert (positive_counts rest) as Hpos.
  { pose proof (most_common_positive byte_list) as Hp. unfold positive_counts in *.
    rewrite Hrank in Hp. by apply Forall_cons in Hp as [_ ?]. }
  unfold _attempt_vote. destruct byte_list as [|b l]; [done|].
  cbv zeta. rewrite Hrank, Htie, truediv_nonzero by done.
  fold agreement. unfold mbind, M_bind, bind, lift_div. simpl.
  destruct (Float.ge agreement threshold); [done|].
  rewrite margin_check_cases by done.
  pose proof (margin_report_cases margin (winner, winner_count) rest winner_count)
    as Hreport.
  destruct margin as [m|].
  - destruct rest as [|[b2 r] rest']; [by rewrite Hreport|].
    cbv zeta. destruct (Float.ge _ m); [done|]. by rewrite Hreport.
  - destruct rest as [|[b2 r] rest']; by rewrite Hreport.
Qed.

(** C3: on a column that passed the tie test, the margin of victory is
    consulted only after the agreement has missed the threshold, and
    then only when a margin is configured and the ranking has a second
    candidate, whose count is always positive: the vote passes with the
    winner exactly when (winner_count - runner_up_count) / runner_up_count
    reaches the margin, and fails with the threshold error otherwise; no
    division by zero can happen. The column AA AA AA BB CC of five files
    with threshold 0.9 and margin 1.0 resolves to AA. *)
Theorem margin_fallback :
  (∀ byte_list num_files threshold margin offset input_files winner winner_count rest w,
     most_common (counter_of byte_list) = (winner, winner_count) :: rest →
     is_tie ((winner, winner_count) :: rest) = false →
     num_files ≠ 0 →
     let counts := counter_of byte_list in
     let agreement :=
       SFdiv Float.prec Float.emax (Float.of_int winner_count) (Float.of_int num_files) in
     let outcome := _attempt_vote byte_list num_files threshold margin offset input_files w in
     let fails := ∃ note,
       outcome = (Raise (ValueError (ThresholdNotMet winner winner_count num_files
                                       agreement threshold note counts
                                       (get_detailed_breakdown byte_list input_files))), w) in
     if Float.ge agreement threshold then outcome = (Ok (winner, counts), w)
     else
       match margin, rest with
       | Some m, (_, runner_up_count) :: _ =>
           0 < runner_up_count ∧
           let calculated_margin :=
             SFdiv Float.prec Float.emax (Float.of_int (winner_count - runner_up_count))
               (Float.of_int runner_up_count) in
           Float.truediv (winner_count - runner_up_count) runner_up_count
           = Some calculated_margin ∧
           if Float.ge calculated_margin m
           then outcome = (Ok (winner, counts), noticed offset calculated_margin w)
           else fails
       | _, _ => fails
       end)
  ∧ (∀ offset input_files w,
       (_attempt_vote [170; 170; 170; 187; 204] 5 f0_9 (Some f1_0) offset input_files w).1
       = Ok (170, [(170, 3); (187, 1); (204, 1)])).
Proof.
  split.
  - intros byte_list num_files threshold margin offset input_files winner winner_count
      rest w Hrank Htie Hn counts agreement outcome fails.
    unfold fails, outcome.
    rewrite (attempt_vote_ranked _ _ _ _ _ _ _ _ _ _ Hrank Htie Hn).
    fold counts agreement.
    destruct (Float.ge agreement threshold); [done|].
    destruct margin as [m|]; [|by eexists].
    destruct rest as [|[b2 r] rest']; [by eexists|].
    assert (0 < r) as Hr.
    { pose proof (most_common_positive byte_list) as Hp. unfold positive_counts in Hp.
      rewrite Hrank in Hp. apply Forall_cons in Hp as [_ Hp].
      by apply Forall_cons in Hp as [? _]. }
    split; [done|]. cbv zeta. split; [apply truediv_nonzero; lia|].
    destruct (Float.ge _ m); [done|by eexists].
  - intros offset input_files w.
    rewrite (attempt_vote_ranked _ _ _ _ _ _ 170 3 [(187, 1); (204, 1)]); done.
Qed.

(** ** Retry and escalation *)

Section VoterFacts.

Variable int_of_str : string -> option Z.

Lemma get_voted_byte_unfold
    byte_list num_files threshold margin offset ignore_nulls interactive input_files w :
  get_voted_byte int_of_str byte_list num_files threshold margin offset ignore_nulls
    interactive input_files w =
  match _attempt_vote byte_list num_files threshold margin offset input_files
          (entered offset w) with
  | (Raise (ValueError e), w1) =>
      after_conflict int_of_str byte_list num_files threshold margin offset
        ignore_nulls interactive input_files e w1
  | r => r
  end.
Proof.
  unfold get_voted_byte, after_conflict. unfold mbind at 1. unfold M_bind, bind.
  unfold note_vote, except_ValueError. done.
Qed.

(** The retry is the same vote on the column without its 0x00 bytes:
    same number of files, same threshold, same margin. *)
Lemma retry_without_nulls_unfold
    byte_list num_files threshold margin offset input_files e w :
  0 ∈ byte_list →
  filter_nulls byte_list input_files ≠ [] →
  let filtered_data := filter_nulls byte_list input_files in
  retry_without_nulls byte_list num_files threshold margin offset true input_files e w =
  match _attempt_vote (filtered_data.*1) num_files threshold margin offset
          (filtered_data.*2) (say (NoticeIgnoringNulls offset) w) with
  | (Ok voted_byte, w') => (Ok (inl voted_byte), w')
  | (Raise (ValueError retry_e), w') => (Ok (inr retry_e), w')
  | (Raise x, w') => (Raise x, w')
  end.
Proof.
  intros Hnull Hdata filtered_data. unfold retry_without_nulls.
  rewrite bool_decide_eq_true_2 by done. simpl.
  fold filtered_data. destruct filtered_data as [|d ds] eqn:Hd; [done|].
  unfold mbind at 1. unfold M_bind, bind, print, except_ValueError.
  unfold mbind, M_bind, bind, mret, M_ret, ret.
  destruct (_attempt_vote _ _ _ _ _ _ _) as [[v|x] w']; [done|]. by destruct x.
Qed.

Lemma retry_without_nulls_skipped
    byte_list num_files threshold margin offset ignore_nulls input_files e w :
  ignore_nulls = false ∨ 0 ∉ byte_list →
  retry_without_nulls byte_list num_files threshold margin offset ignore_nulls
    input_files e w = (Ok (inr e), w).
Proof.
  intros Hskip. unfold retry_without_nulls.
  destruct Hskip as [->|H0]; [done|].
  rewrite bool_decide_eq_false_2 by done. by rewrite andb_false_r.
Qed.


(** C4: the agreement is the winner's count over [num_files] as it was
    passed in, whatever the length of the column; and the retry without
    the 0x00 bytes passes the same [num_files] on, so that the filtered
    column AA AA of four files has agreement 2/4 = 0.5: it fails a
    threshold of 0.75 (which 2/2 would meet) and meets one of 0.5. *)
Theorem agreement_over_num_files :
  (∀ byte_list num_files threshold margin offset input_files winner winner_count rest w,
     most_common (counter_of byte_list) = (winner, winner_count) :: rest →
     is_tie ((winner, winner_count) :: rest) = false →
     num_files ≠ 0 →
     let agreement :=
       SFdiv Float.prec Float.emax (Float.of_int winner_count) (Float.of_int num_files) in
     let outcome := _attempt_vote byte_list num_files threshold margin offset input_files w in
     winner_count = occurrences winner byte_list ∧
     Float.truediv winner_count num_files = Some agreement ∧
     (Float.ge agreement threshold = true →
      outcome = (Ok (winner, counter_of byte_list), w)) ∧
     (∀ e w', outcome = (Raise (ValueError e), w') →
        ∃ note, e = ThresholdNotMet winner winner_count num_files agreement threshold
                      note (counter_of byte_list)
                      (get_detailed_breakdown byte_list input_files)))
  ∧ (∀ byte_list num_files threshold margin offset interactive input_files e w w1,
       _attempt_vote byte_list num_files threshold margin offset input_files
         (entered offset w) = (Raise (ValueError e), w1) →
       0 ∈ byte_list →
       filter_nulls byte_list input_files ≠ [] →
       let filtered_data := filter_nulls byte_list input_files in
       get_voted_byte int_of_str byte_list num_files threshold margin offset true
         interactive input_files w =
       match _attempt_vote (filtered_data.*1) num_files threshold margin offset
               (filtered_data.*2) (say (NoticeIgnoringNulls offset) w1) with
       | (Ok voted_byte, w2) => (Ok voted_byte, w2)
       | (Raise (ValueError retry_e), w2) =>
           escalate int_of_str byte_list offset interactive retry_e w2
       | (Raise x, w2) => (Raise x, w2)
       end)
  ∧ (∀ offset a b c d w,
       (get_voted_byte int_of_str [170; 170; 0; 0] 4 f0_75 None offset true false
          [a; b; c; d] w).1
       = Raise (ValueError (ErrorAtOffset offset
                  (ThresholdNotMet 170 2 4 f0_5 f0_75 MarginNotSet [(170, 2)]
                     (PerFile [(basename a, 170); (basename b, 170)]))))
       ∧ (get_voted_byte int_of_str [170; 170; 0; 0] 4 f0_5 None offset true false
            [a; b; c; d] w).1
         = Ok (170, [(170, 2)])).
Proof.
  split_and!.
  - intros byte_list num_files threshold margin offset input_files winner winner_count
      rest w Hrank Htie Hn agreement outcome.
    split_and!.
    + assert ((winner, winner_count) ∈ most_common (counter_of byte_list)) as Hin
        by (rewrite Hrank; apply list_elem_of_here).
      by apply most_common_elem in Hin as [_ ?].
    + by apply truediv_nonzero.
    + intros Hge. unfold outcome.
      rewrite (attempt_vote_ranked _ _ _ _ _ _ _ _ _ _ Hrank Htie Hn).
      fold agreement. by rewrite Hge.
    + intros e w'. unfold outcome.
      rewrite (attempt_vote_ranked _ _ _ _ _ _ _ _ _ _ Hrank Htie Hn).
      fold agreement. destruct (Float.ge agreement threshold); [done|].
      destruct margin as [m|]; [|intros [= <- <-]; by eexists].
      destruct rest as [|[b2 r] rest']; [intros [= <- <-]; by eexists|].
      cbv zeta. destruct (Float.ge _ m); [done|]. intros [= <- <-]. by eexists.
  - intros byte_list num_files threshold margin offset interactive input_files e w w1
      Hfirst Hnull Hdata filtered_data.
    rewrite get_voted_byte_unfold, Hfirst. unfold after_conflict.
    unfold mbind, M_bind, bind.
    rewrite retry_without_nulls_unfold by done. fold filtered_data. clear Hfirst.
    destruct (_attempt_vote _ _ _ _ _ _ _) as [[v|x] w2]; [done|]. by destruct x.
  - intros offset a b c d w. split; reflexivity.
Qed.

Lemma print_candidates_menu i sorted_candidates w :
  print_candidates i sorted_candidates w = (Ok tt, say_all (menu i sorted_candidates) w).
Proof.
  revert i w. induction sorted_candidates as [|[b c] l IH]; intros i w; simpl.
  - unfold ret, say_all. rewrite app_nil_r. by destruct w.
  - unfold mbind, M_bind, bind, print. rewrite IH.
    unfold say_all, say. simpl. by rewrite <- app_assoc.
Qed.

Lemma prompt_once_rejected sorted_candidates counts offset text keys w :
  stdin w = Line text :: keys →
  accepted int_of_str (length sorted_candidates) text = false →
  prompt_once int_of_str sorted_candidates counts offset w =
  (Ok None, typed keys (say_all (rejection int_of_str (length sorted_candidates) text) w)).
Proof.
  intros Hkeys Hrej. unfold prompt_once, accepted, rejection in *.
  unfold mbind, M_bind, bind, input. rewrite Hkeys.
  destruct (int_of_str text) as [k|]; simpl.
  - destruct (Z.leb_spec 0 (k - 1)); destruct (Z.ltb_spec (k - 1) (Z.of_nat (length sorted_candidates)));
      simpl.
    + exfalso. apply andb_false_iff in Hrej as [?%Z.leb_gt|?%Z.leb_gt]; lia.
    + unfold print, ret, say, say_all, typed. simpl. by rewrite <- app_assoc.
    + unfold print, ret, say, say_all, typed. simpl. by rewrite <- app_assoc.
    + unfold print, ret, say, say_all, typed. simpl. by rewrite <- app_assoc.
  - unfold print, ret, say, say_all, typed. simpl. by rewrite <- app_assoc.
Qed.

Lemma prompt_once_accepted sorted_candidates counts offset text k byte count keys w :
  stdin w = Line text :: keys →
  int_of_str text = Some k →
  1 ≤ k →
  sorted_candidates !! Z.to_nat (k - 1) = Some (byte, count) →
  prompt_once int_of_str sorted_candidates counts offset w =
  (Ok (Some (byte, counts)),
   typed keys (say_all [Prompt (Z.of_nat (length sorted_candidates));
                        UserSelected byte offset] w)).
Proof.
  intros Hkeys Hk H1 Hnth. unfold prompt_once.
  unfold mbind, M_bind, bind, input. rewrite Hkeys, Hk. simpl.
  apply lookup_lt_Some in Hnth as Hlt.
  destruct (Z.leb_spec 0 (k - 1)); [|lia].
  destruct (Z.ltb_spec (k - 1) (Z.of_nat (length sorted_candidates))); [|lia].
  simpl. rewrite Hnth.
  unfold print, ret, say, say_all, typed. simpl. by rewrite <- app_assoc.
Qed.

(** Any number of rejected answers, then an accepted one. *)
Lemma prompt_loop_rejected_then_accepted
    sorted_candidates counts offset rejected text k byte count keys w :
  Forall (fun t => accepted int_of_str (length sorted_candidates) t = false) rejected →
  int_of_str text = Some k →
  1 ≤ k →
  sorted_candidates !! Z.to_nat (k - 1) = Some (byte, count) →
  stdin w = (Line <$> rejected) ++ Line text :: keys →
  prompt_until_valid int_of_str sorted_candidates counts offset w =
  (Ok (byte, counts),
   typed keys
     (say_all (concat (rejection int_of_str (length sorted_candidates) <$> rejected)
               ++ [Prompt (Z.of_nat (length sorted_candidates));
                   UserSelected byte offset]) w)).
Proof.
  intros Hrej Hk H1 Hnth. unfold prompt_until_valid.
  revert w. induction Hrej as [|t rejected Ht Hrej IH]; intros w Hkeys.
  - rewrite Hkeys. simpl. unfold mbind, M_bind, bind.
    by rewrite (prompt_once_accepted _ _ _ _ _ _ _ _ _ Hkeys Hk H1 Hnth).
  - rewrite Hkeys. csimpl. unfold mbind, M_bind, bind.
    rewrite (prompt_once_rejected _ _ _ _ _ _ Hkeys Ht).
    set (w1 := typed _ _).
    specialize (IH w1 eq_refl).
    change (stdin w1) with ((Line <$> rejected) ++ Line text :: keys) in IH.
    rewrite IH.
    f_equal. unfold w1, typed, say_all. simpl. by rewrite <- !app_assoc.
Qed.

Lemma say_all_nil w : say_all [] w = w.
Proof. unfold say_all. rewrite app_nil_r. by destruct w. Qed.

Lemma say_all_app events events' w :
  say_all events' (say_all events w) = say_all (events ++ events') w.
Proof. unfold say_all. simpl. by rewrite app_assoc. Qed.

Lemma say_say_all e w : say e w = say_all [e] w.
Proof. done. Qed.

(** A vote only ever adds to the console. *)
Ltac unchanged H :=
  unfold ret, raise in H; injection H as _ <-; exists []; by rewrite say_all_nil.

Lemma margin_check_says margin ranking winner_count offset w r w' :
  margin_check margin ranking winner_count offset w = (r, w') →
  ∃ events, w' = say_all events w.
Proof.
  unfold margin_check. intros H.
  destruct margin as [m|]; [|unchanged H].
  destruct ranking as [|first [|[b2 rc] rest]]; [unchanged H..|].
  destruct (0 <? rc); [|unchanged H].
  unfold mbind, M_bind, bind, lift_div in H.
  destruct (Float.truediv _ _) as [cm|]; [|unchanged H].
  simpl in H. destruct (Float.ge cm m); [|unchanged H].
  unfold get_argv in H. destruct (is_verbose (argv w)); [|unchanged H].
  unfold print, ret in H. injection H as _ <-. by exists [NoticeMargin offset cm].
Qed.

Lemma margin_report_says margin ranking winner_count w r w' :
  margin_report margin ranking winner_count w = (r, w') → w' = w.
Proof.
  unfold margin_report. intros H.
  destruct margin as [m|]; [|by injection H].
  destruct ranking as [|first [|[b2 rc] rest]]; [by injection H..|].
  unfold mbind, M_bind, bind, lift_div in H.
  destruct (Float.truediv _ _); by injection H.
Qed.

Lemma attempt_vote_says byte_list num_files threshold margin offset input_files w r w' :
  _attempt_vote byte_list num_files threshold margin offset input_files w = (r, w') →
  ∃ events, w' = say_all events w.
Proof.
  unfold _attempt_vote. intros H.
  destruct byte_list as [|b l]; [unchanged H|].
  cbv zeta in H. destruct (is_tie _); [unchanged H|].
  destruct (most_common _) as [|[winner wc] rest]; [unchanged H|].
  unfold mbind at 1 in H. unfold M_bind, bind, lift_div in H.
  destruct (Float.truediv _ _) as [a|]; [|unchanged H].
  simpl in H. destruct (Float.ge a threshold); [unchanged H|].
  unfold mbind at 1 in H. unfold M_bind, bind in H.
  destruct (margin_check _ _ _ _ _) as [[passed|x] w1] eqn:Hcheck.
  - apply margin_check_says in Hcheck as [events ->].
    destruct passed; [injection H as _ <-; by eexists|].
    unfold mbind, M_bind, bind in H.
    destruct (margin_report _ _ _ _) as [[note|x] w2] eqn:Hrep;
      apply margin_report_says in Hrep as ->; injection H as _ <-; by eexists.
  - apply margin_check_says in Hcheck as [events ->]. injection H as _ <-. by eexists.
Qed.

Lemma retry_without_nulls_says
    byte_list num_files threshold margin offset ignore_nulls input_files e w r w' :
  retry_without_nulls byte_list num_files threshold margin offset ignore_nulls
    input_files e w = (r, w') →
  ∃ events, w' = say_all events w.
Proof.
  unfold retry_without_nulls. intros H.
  destruct (ignore_nulls && _).
  - unfold mbind at 1 in H. unfold M_bind, bind, print in H.
    destruct (filter_nulls _ _) as [|d ds].
    + injection H as _ <-. by exists [NoticeIgnoringNulls offset].
    + unfold except_ValueError, mbind, M_bind, bind, mret, M_ret, ret in H.
      destruct (_attempt_vote _ _ _ _ _ _ _) as [[v|x] w1] eqn:Hvote;
        apply attempt_vote_says in Hvote as [events ->].
      * injection H as _ <-. rewrite say_say_all, say_all_app. by eexists.
      * destruct x; injection H as _ <-; rewrite say_say_all, say_all_app; by eexists.
  - injection H as _ <-. exists []. by rewrite say_all_nil.
Qed.

Lemma escalate_interactive byte_list offset e w :
  let sorted_candidates := most_common (counter_of byte_list) in
  escalate int_of_str byte_list offset true e w =
  prompt_until_valid int_of_str sorted_candidates (counter_of byte_list) offset
    (say_all ([ErrPrint (ErrorAtOffset offset e); ErrInteractiveBanner; PleaseSelect]
              ++ menu 0 sorted_candidates) w).
Proof.
  intros sorted_candidates. unfold escalate. fold sorted_candidates.
  unfold mbind, M_bind, bind, print. rewrite print_candidates_menu.
  f_equal. unfold say_all, say. simpl. by rewrite <- !app_assoc.
Qed.

Lemma menu_lookup i sorted_candidates j byte count :
  sorted_candidates !! j = Some (byte, count) →
  menu i sorted_candidates !! j = Some (Candidate (i + Z.of_nat j + 1) byte count).
Proof.
  revert i j. induction sorted_candidates as [|[b c] l IH]; intros i j; [done|].
  destruct j as [|j]; simpl.
  - intros [= -> ->]. do 2 f_equal. lia.
  - intros Hj. rewrite (IH (i + 1) j Hj). do 2 f_equal. lia.
Qed.

(** C8: once the vote has failed, and the retry without 0x00 bytes (if
    there was one) has failed too, interactive mode shows the operator
    the ranking of the original column, numbered from 1; answers that
    are not a number of the menu are rejected, however many there are,
    and the prompt comes again; the first answer that is a number [k] of
    the menu makes [get_voted_byte] return the byte shown as number [k],
    a byte of the column, whatever the threshold and the margin are. *)
Theorem operator_choice_resolves
    byte_list num_files threshold margin offset ignore_nulls input_files
    e e' w w1 w2 rejected text k keys :
  _attempt_vote byte_list num_files threshold margin offset input_files
    (entered offset w) = (Raise (ValueError e), w1) →
  retry_without_nulls byte_list num_files threshold margin offset ignore_nulls
    input_files e w1 = (Ok (inr e'), w2) →
  let sorted_candidates := most_common (counter_of byte_list) in
  let n := length sorted_candidates in
  Forall (fun t => accepted int_of_str n t = false) rejected →
  int_of_str text = Some k →
  1 ≤ k ≤ Z.of_nat n →
  stdin w = (Line <$> rejected) ++ Line text :: keys →
  ∃ byte count,
    sorted_candidates !! Z.to_nat (k - 1) = Some (byte, count)
    ∧ menu 0 sorted_candidates !! Z.to_nat (k - 1) = Some (Candidate k byte count)
    ∧ byte ∈ byte_list
    ∧ get_voted_byte int_of_str byte_list num_files threshold margin offset
        ignore_nulls true input_files w
      = (Ok (byte, counter_of byte_list),
         typed keys
           (say_all ([ErrPrint (ErrorAtOffset offset e'); ErrInteractiveBanner; PleaseSelect]
                     ++ menu 0 sorted_candidates
                     ++ concat (rejection int_of_str n <$> rejected)
                     ++ [Prompt (Z.of_nat n); UserSelected byte offset]) w2)).
Proof.
  intros Hfirst Hretry sorted_candidates n Hrej Hk Hrange Hkeys.
  destruct (lookup_lt_is_Some_2 sorted_candidates (Z.to_nat (k - 1))) as [[byte count] Hnth];
    [unfold n in Hrange; lia|].
  exists byte, count. split_and!; [done| | |].
  - rewrite (menu_lookup 0 _ _ _ _ Hnth). do 2 f_equal. lia.
  - assert ((byte, count) ∈ sorted_candidates) as Hin
      by (apply list_elem_of_lookup; eauto).
    by apply most_common_elem in Hin as [? _].
  - rewrite get_voted_byte_unfold, Hfirst. unfold after_conflict.
    unfold mbind, M_bind, bind. rewrite Hretry.
    rewrite escalate_interactive. fold sorted_candidates.
    apply attempt_vote_says in Hfirst as [ev1 ->].
    apply retry_without_nulls_says in Hretry as [ev2 ->].
    rewrite (prompt_loop_rejected_then_accepted _ _ _ rejected text k byte count keys);
      [|done|done|lia|done|exact Hkeys].
    fold n. f_equal. rewrite !say_all_app.
    unfold typed, say_all. simpl. by rewrite <- ?app_assoc.
Qed.

(** C7 (as the code has it): an empty column makes [_attempt_vote] raise
    a [ValueError], as a tie or a missed threshold do, and
    [get_voted_byte] treats it as it treats those: the retry without
    0x00 bytes is skipped (an empty column holds no 0x00 byte), the error
    is raised again with its offset when interactive mode is off, and
    with interactive mode on the operator is prompted, with an empty
    menu, from which no answer can be accepted. *)
Theorem empty_column_is_handled_as_conflict
    num_files threshold margin offset ignore_nulls input_files w :
  _attempt_vote [] num_files threshold margin offset input_files w
  = (Raise (ValueError EmptyColumn), w)
  ∧ get_voted_byte int_of_str [] num_files threshold margin offset ignore_nulls false
      input_files w
    = (Raise (ValueError (ErrorAtOffset offset EmptyColumn)), entered offset w)
  ∧ get_voted_byte int_of_str [] num_files threshold margin offset ignore_nulls true
      input_files w
    = prompt_until_valid int_of_str [] [] offset
        (say_all [ErrPrint (ErrorAtOffset offset EmptyColumn); ErrInteractiveBanner;
                  PleaseSelect] (entered offset w))
  ∧ ∀ text, accepted int_of_str 0 text = false.
Proof.
  split_and!.
  - done.
  - rewrite get_voted_byte_unfold. simpl. unfold after_conflict, mbind, M_bind, bind.
    rewrite retry_without_nulls_skipped; [done|]. right. apply not_elem_of_nil.
  - rewrite get_voted_byte_unfold. simpl. unfold after_conflict, mbind, M_bind, bind.
    rewrite retry_without_nulls_skipped; [|right; apply not_elem_of_nil].
    by rewrite escalate_interactive.
  - intros text. unfold accepted. destruct (int_of_str text) as [k|]; [|done].
    apply andb_false_iff. destruct (Z.leb_spec 1 k); [right|left; done].
    apply Z.leb_gt. simpl. lia.
Qed.

(** ** The voter leaves the files alone *)

Ltac res_done :=
  first [apply respects_ret; apply _ | apply respects_raise; apply _].

Lemma print_same_files e : respects same_files (print e).
Proof. by intros w r w' [= _ <-]. Qed.

Lemma print_dialogue e : respects dialogue (print e).
Proof. by intros w r w' [= _ <-]. Qed.

Lemma attempt_vote_dialogue byte_list num_files threshold margin offset input_files :
  respects dialogue
    (_attempt_vote byte_list num_files threshold margin offset input_files).
Proof. intros w r w' [events ->]%attempt_vote_says. done. Qed.

Lemma retry_dialogue
    byte_list num_files threshold margin offset ignore_nulls input_files e :
  respects dialogue
    (retry_without_nulls byte_list num_files threshold margin offset ignore_nulls
       input_files e).
Proof. intros w r w' [events ->]%retry_without_nulls_says. done. Qed.

Lemma input_dialogue upto : respects dialogue (input upto).
Proof.
  intros w r w'. unfold input.
  destruct (stdin w) as [|[text|] keys]; by intros [= _ <-].
Qed.

Lemma prompt_once_dialogue sorted_candidates counts offset :
  respects dialogue (prompt_once int_of_str sorted_candidates counts offset).
Proof.
  unfold prompt_once. apply respects_bind; [apply _|apply input_dialogue|].
  intros text. destruct (int_of_str text) as [k|].
  - destruct (_ && _).
    + destruct (_ !! _) as [[? ?]|];
        (apply respects_bind; [apply _|apply print_dialogue|]);
        intros []; res_done.
    + apply respects_bind; [apply _|apply print_dialogue|].
      intros []; res_done.
  - apply respects_bind; [apply _|apply print_dialogue|].
    intros []; res_done.
Qed.

Lemma prompt_loop_dialogue sorted_candidates counts offset keys :
  respects dialogue (prompt_loop int_of_str sorted_candidates counts offset keys).
Proof.
  induction keys as [|key keys IH]; simpl;
    (apply respects_bind; [apply _|apply prompt_once_dialogue|]);
    intros [chosen|]; try res_done.
  apply IH.
Qed.

Lemma print_candidates_dialogue i sorted_candidates :
  respects dialogue (print_candidates i sorted_candidates).
Proof. intros w r w'. rewrite print_candidates_menu. by intros [= _ <-]. Qed.

Lemma escalate_dialogue byte_list offset interactive e :
  respects dialogue (escalate int_of_str byte_list offset interactive e).
Proof.
  unfold escalate. destruct interactive; [|res_done].
  repeat (apply respects_bind; [apply _|apply print_dialogue|]; intros []).
  apply respects_bind; [apply _|apply print_candidates_dialogue|]. intros [].
  intros w r w'. apply prompt_loop_dialogue.
Qed.

(** [get_voted_byte] adds its offset to the ghost log, and nothing else
    changes but the console and the keyboard input. *)
Lemma get_voted_byte_effect
    byte_list num_files threshold margin offset ignore_nulls interactive input_files
    w r w' :
  get_voted_byte int_of_str byte_list num_files threshold margin offset ignore_nulls
    interactive input_files w = (r, w') →
  fs w' = fs w ∧ argv w' = argv w ∧ voted w' = voted w ++ [offset].
Proof.
  unfold get_voted_byte. unfold mbind at 1. unfold M_bind, bind, note_vote.
  intros H.
  assert (dialogue (entered offset w) w') as (? & ? & ?); [|done].
  revert H. apply respects_except_ValueError; [apply _|apply attempt_vote_dialogue|].
  intros e. apply respects_bind; [apply _|apply retry_dialogue|].
  intros [v|e']; [res_done|apply escalate_dialogue].
Qed.

Lemma get_voted_byte_same_files
    byte_list num_files threshold margin offset ignore_nulls interactive input_files :
  respects same_files
    (get_voted_byte int_of_str byte_list num_files threshold margin offset
       ignore_nulls interactive input_files).
Proof. intros w r w' H. by apply get_voted_byte_effect in H as [? _]. Qed.

(** ** What the voter can raise *)

Lemma attempt_vote_raises byte_list num_files threshold margin offset input_files w e w' :
  _attempt_vote byte_list num_files threshold margin offset input_files w
  = (Raise e, w') →
  e = ZeroDivisionError ∨ e = IndexError ∨ e = ValueError EmptyColumn
  ∨ (∃ tied count details, e = ValueError (TieDetected tied count details))
  ∨ (∃ b c n a t note options details,
       e = ValueError (ThresholdNotMet b c n a t note options details)).
Proof.
  unfold _attempt_vote. intros H.
  destruct byte_list as [|b l]; [injection H as <- _; tauto|].
  cbv zeta in H. destruct (is_tie _).
  { injection H as <- _. do 3 right. left. by do 3 eexists. }
  destruct (most_common _) as [|[winner wc] rest]; [injection H as <- _; tauto|].
  unfold mbind at 1 in H. unfold M_bind, bind, lift_div in H.
  destruct (Float.truediv _ _) as [a|]; [|injection H as <- _; tauto].
  simpl in H. destruct (Float.ge a threshold); [done|].
  unfold mbind at 1 in H. unfold M_bind, bind in H.
  destruct (margin_check _ _ _ _ _) as [[passed|x] w1] eqn:Hcheck.
  - destruct passed; [done|].
    unfold mbind, M_bind, bind in H.
    destruct (margin_report _ _ _ _) as [[note|x] w2] eqn:Hrep.
    + injection H as <- _. do 4 right. by do 8 eexists.
    + injection H as <- _. left. revert Hrep. unfold margin_report.
      destruct margin as [m|]; [|done].
      destruct rest as [|[b2 rc] rest']; [done|].
      unfold mbind, M_bind, bind, lift_div.
      destruct (Float.truediv _ _); [done|]. by intros [= <- _].
  - injection H as <- _. left. revert Hcheck. unfold margin_check.
    destruct margin as [m|]; [|done].
    destruct rest as [|[b2 rc] rest']; [done|].
    destruct (0 <? rc); [|done].
    unfold mbind, M_bind, bind, lift_div.
    destruct (Float.truediv _ _) as [cm|]; [|by intros [= <- _]].
    simpl. destruct (Float.ge cm m); [|done].
    unfold get_argv. by destruct (is_verbose _).
Qed.

Lemma attempt_vote_not_only_nulls
    byte_list num_files threshold margin offset input_files w e w' :
  _attempt_vote byte_list num_files threshold margin offset input_files w
  = (Raise e, w') → ¬ only_nulls e.
Proof.
  intros H [o ->]. apply attempt_vote_raises in H.
  destruct H as [?|[?|[?|[(?&?&?&?)|(?&?&?&?&?&?&?&?&?)]]]]; done.
Qed.

Lemma prompt_once_raises sorted_candidates counts offset w e w' :
  prompt_once int_of_str sorted_candidates counts offset w = (Raise e, w') →
  (e = EOFError ∧ stdin w = []) ∨ e = KeyboardInterrupt.
Proof.
  unfold prompt_once, mbind, M_bind, bind, input.
  destruct (stdin w) as [|[text|] keys]; [intros [= <- _]; by left| |intros [= <- _]; by right].
  destruct (int_of_str text) as [k|]; [|done].
  destruct (_ && _); [|done]. by destruct (_ !! _) as [[? ?]|].
Qed.

Lemma prompt_once_keys sorted_candidates counts offset w r w' :
  prompt_once int_of_str sorted_candidates counts offset w = (Ok r, w') →
  stdin w' = tail (stdin w) ∧ stdin w ≠ [].
Proof.
  unfold prompt_once, mbind, M_bind, bind, input.
  destruct (stdin w) as [|[text|] keys]; [done| |done].
  destruct (int_of_str text) as [k|]; [|by intros [= _ <-]].
  destruct (_ && _); [|by intros [= _ <-]].
  destruct (_ !! _) as [[? ?]|]; by intros [= _ <-].
Qed.

(** The prompt never runs out of rounds: it ends with an accepted
    answer, with Ctrl-C, or with the end of the input. *)
Lemma prompt_until_valid_raises sorted_candidates counts offset w e w' :
  prompt_until_valid int_of_str sorted_candidates counts offset w = (Raise e, w') →
  e = EOFError ∨ e = KeyboardInterrupt.
Proof.
  unfold prompt_until_valid.
  generalize (eq_refl (stdin w)). generalize (stdin w) at 1 3. intros keys.
  revert w. induction keys as [|key keys IH]; intros w Hkeys; simpl;
    unfold mbind, M_bind, bind.
  - destruct (prompt_once _ _ _ _ _) as [[r|x] w1] eqn:Honce.
    + apply prompt_once_keys in Honce as [_ ?]. congruence.
    + intros [= <- _]. apply prompt_once_raises in Honce. tauto.
  - destruct (prompt_once _ _ _ _ _) as [[r|x] w1] eqn:Honce.
    + destruct r as [chosen|]; [done|]. apply IH.
      apply prompt_once_keys in Honce as [-> _]. by rewrite <- Hkeys.
    + intros [= <- _]. apply prompt_once_raises in Honce. tauto.
Qed.

Lemma escalate_raises byte_list offset interactive e0 w e w' :
  escalate int_of_str byte_list offset interactive e0 w = (Raise e, w') →
  (interactive = false ∧ e = ValueError (ErrorAtOffset offset e0) ∧ w' = w)
  ∨ (interactive = true ∧ (e = EOFError ∨ e = KeyboardInterrupt)).
Proof.
  destruct interactive.
  - rewrite escalate_interactive. intros H%prompt_until_valid_raises. by right.
  - intros [= <- <-]. by left.
Qed.

Lemma retry_without_nulls_raises
    byte_list num_files threshold margin offset ignore_nulls input_files e0 w e w' :
  retry_without_nulls byte_list num_files threshold margin offset ignore_nulls
    input_files e0 w = (Raise e, w') →
  e = ValueError (OnlyNulls offset) ∨ e = ZeroDivisionError ∨ e = IndexError.
Proof.
  unfold retry_without_nulls. destruct (ignore_nulls && _); [|done].
  unfold mbind at 1. unfold M_bind, bind, print.
  destruct (filter_nulls _ _) as [|d ds]; [intros [= <- _]; by left|].
  unfold except_ValueError, mbind, M_bind, bind, mret, M_ret, ret.
  destruct (_attempt_vote _ _ _ _ _ _ _) as [[v|x] w1] eqn:Hvote; [done|].
  apply attempt_vote_raises in Hvote.
  destruct Hvote as [->|[->|[->|[(?&?&?&->)|(?&?&?&?&?&?&?&?&->)]]]];
    try done; intros [= <- _]; tauto.
Qed.

(** Whatever [get_voted_byte] raises, it is not for want of fuel. *)
Lemma get_voted_byte_raises
    byte_list num_files threshold margin offset ignore_nulls interactive input_files
    w e w' :
  get_voted_byte int_of_str byte_list num_files threshold margin offset ignore_nulls
    interactive input_files w = (Raise e, w') →
  e = ZeroDivisionError ∨ e = IndexError ∨ e = EOFError ∨ fatal e.
Proof.
  rewrite get_voted_byte_unfold.
  destruct (_attempt_vote _ _ _ _ _ _ _) as [[v|x] w1] eqn:Hfirst; [done|].
  apply attempt_vote_raises in Hfirst.
  assert (∀ msg, fatal (ValueError msg)) as Hfatal by (intros; right; by eexists).
  destruct Hfirst as [->|[->|Hfirst]]; [intros [= <- _]; tauto..|].
  assert (∃ e0, x = ValueError e0) as [e0 ->].
  { destruct Hfirst as [->|[(?&?&?&->)|(?&?&?&?&?&?&?&?&->)]]; by eexists. }
  unfold after_conflict, mbind, M_bind, bind.
  destruct (retry_without_nulls _ _ _ _ _ _ _ _ _) as [[[v|e1]|x] w2] eqn:Hretry.
  - done.
  - intros [(_ & -> & _)|(_ & [->| ->])]%escalate_raises; auto.
    do 3 right. by left.
  - intros [= <- _]. apply retry_without_nulls_raises in Hretry as [->|[->| ->]]; auto.
Qed.

(** The error of line 92 is raised exactly when the first vote has
    failed and dropping the 0x00 bytes leaves nothing. *)
Lemma get_voted_byte_only_nulls
    byte_list num_files threshold margin offset ignore_nulls interactive input_files
    w e w' :
  get_voted_byte int_of_str byte_list num_files threshold margin offset ignore_nulls
    interactive input_files w = (Raise e, w') →
  only_nulls e →
  ignore_nulls = true ∧ 0 ∈ byte_list ∧ filter_nulls byte_list input_files = [].
Proof.
  rewrite get_voted_byte_unfold. intros H Hbad.
  destruct (_attempt_vote _ _ _ _ _ _ _) as [[v|x] w1] eqn:Hfirst; [done|].
  assert (∃ e0, x = ValueError e0) as [e0 ->].
  { destruct x; try (injection H as <- _; destruct Hbad as [? ?]; done). by eexists. }
  unfold after_conflict, mbind, M_bind, bind in H.
  destruct (retry_without_nulls _ _ _ _ _ _ _ _ _) as [[[v|e1]|x] w2] eqn:Hretry.
  - done.
  - apply escalate_raises in H as [(_ & -> & _)|(_ & [->| ->])];
      destruct Hbad as [? ?]; done.
  - injection H as <- _. revert Hretry. unfold retry_without_nulls.
    destruct ignore_nulls; simpl; [|done]. case_bool_decide as Hnull; [|done].
    unfold mbind at 1. unfold M_bind, bind, print.
    destruct (filter_nulls _ _) as [|d ds] eqn:Hdata; [done|].
    unfold except_ValueError, mbind, M_bind, bind, mret, M_ret, ret.
    destruct (_attempt_vote _ _ _ _ _ _ (say _ _)) as [[v|y] w3] eqn:Hvote; [done|].
    destruct y; try done; intros [= <- _]; destruct Hbad as [? ?]; done.
Qed.

(** A column in which the bytes differ holds a byte that is not 0x00. *)
Lemma disagreeing_nonzero column : disagreeing column → ∃ b, b ∈ column ∧ b ≠ 0.
Proof.
  intros Hdis. destruct column as [|first column]; [done|]. unfold disagreeing in Hdis.
  destruct (decide (first = 0)) as [->|Hne]; [|exists first; split; [left|done]].
  destruct (decide (Exists (fun b => b ≠ 0) (0 :: column))) as [Hsome|Hnone].
  { apply Exists_exists in Hsome as (b & ? & ?). eauto. }
  exfalso. apply not_Exists_Forall in Hnone; [|intros b; apply _].
  rewrite Forall_forall in Hnone.
  assert (forallb (fun b => b =? 0) (0 :: column) = true) as Hall; [|congruence].
  apply forallb_forall. intros b Hb%list_elem_of_In. apply Z.eqb_eq.
  specialize (Hnone b Hb). simpl in Hnone. by apply dec_stable in Hnone.
Qed.

(** With one byte per input file, such a column keeps a byte when its
    0x00 bytes are dropped. *)
Lemma filter_nulls_disagreeing column input_files :
  disagreeing column →
  length column = length input_files →
  filter_nulls column input_files ≠ [].
Proof.
  intros (b & Hb & Hb0)%disagreeing_nonzero Hlen.
  apply list_elem_of_lookup in Hb as [i Hi].
  destruct (lookup_lt_is_Some_2 input_files i) as [f Hf].
  { rewrite <- Hlen. by eapply lookup_lt_Some. }
  intros Hnil.
  assert ((b, f) ∈ filter_nulls column input_files) as Hin.
  { apply list_elem_of_filter. split; [done|].
    apply list_elem_of_lookup. exists i. rewrite lookup_zip_with, Hi. simpl. by rewrite Hf. }
  rewrite Hnil in Hin. by apply elem_of_nil in Hin.
Qed.

End VoterFacts.

(** ** The driver, one offset at a time *)

Lemma to_bytes1_int_of_byte b : to_bytes1 (int_of_byte b) = Some b.
Proof.
  unfold to_bytes1, int_of_byte.
  pose proof (Byte.to_N_bounded b) as Hb.
  destruct (Z.leb_spec 0 (Z.of_N (Byte.to_N b))); [|lia].
  destruct (Z.ltb_spec (Z.of_N (Byte.to_N b)) 256); [|lia].
  simpl. rewrite N2Z.id. apply Byte.of_to_N.
Qed.

Lemma int_of_byte_inj b1 b2 : int_of_byte b1 = int_of_byte b2 → b1 = b2.
Proof.
  intros H. pose proof (to_bytes1_int_of_byte b1) as H1.
  rewrite H, to_bytes1_int_of_byte in H1. congruence.
Qed.

Lemma column_at_length chunks i column :
  column_at chunks i = Some column → length column = length chunks.
Proof.
  revert column. induction chunks as [|chunk chunks IH]; intros column; simpl.
  - by intros [= <-].
  - destruct (chunk !! i); [|done]. destruct (column_at chunks i); [|done].
    intros [= <-]. simpl. f_equal. by apply IH.
Qed.

Lemma column_at_uniform chunks i b :
  Forall (fun chunk => chunk !! i = Some b) chunks →
  column_at chunks i = Some (replicate (length chunks) (int_of_byte b)).
Proof.
  induction 1 as [|chunk chunks Hb _ IH]; simpl; [done|]. by rewrite Hb, IH.
Qed.

Lemma forallb_replicate n x : forallb (fun b => b =? x) (replicate n x) = true.
Proof. induction n; simpl; [done|]. by rewrite Z.eqb_refl. Qed.

Section DriverFacts.

Variable int_of_str : string -> option Z.
Variables (input_files : list string) (output_file : string)
  (threshold : spec_float) (margin : option spec_float) (verbose : bool)
  (report_file : option string) (chunk_size : Z)
  (force ignore_nulls interactive : bool).
Variable render_report : list discrepancy -> list byte.

Local Abbreviation body :=
  (process_position int_of_str input_files output_file threshold margin verbose
     report_file ignore_nulls interactive).

Lemma body_uniform file_handles chunks bytes_processed st i b w :
  chunks ≠ [] →
  Forall (fun chunk => chunk !! i = Some b) chunks →
  body file_handles chunks bytes_processed st i w
  = (Ok st, with_fs (<[output_file := default [] (fs w !! output_file) ++ [b]]> (fs w)) w).
Proof.
  intros Hne Hall.
  unfold process_position. rewrite (column_at_uniform _ _ _ Hall).
  destruct chunks as [|chunk chunks]; [done|]. simpl.
  rewrite Z.eqb_refl, forallb_replicate. simpl.
  unfold write_byte. rewrite to_bytes1_int_of_byte.
  by unfold mbind, M_bind, bind, get_fs, set_fs, ret.
Qed.

(** ** One offset, both ways *)

Lemma write_byte_raises path n w e w' :
  write_byte path n w = (Raise e, w') → e = OverflowError ∧ w' = w.
Proof.
  unfold write_byte. destruct (to_bytes1 n); [done|]. by intros [= <- <-].
Qed.

Lemma write_byte_ok path n w w' :
  write_byte path n w = (Ok tt, w') →
  ∃ b, to_bytes1 n = Some b
       ∧ w' = with_fs (<[path := default [] (fs w !! path) ++ [b]]> (fs w)) w.
Proof.
  unfold write_byte. destruct (to_bytes1 n) as [b|]; [|done].
  intros [= <-]. by exists b.
Qed.

Lemma column_at_spec chunks i column :
  column_at chunks i = Some column ↔
  Forall2 (fun chunk z => ∃ b, chunk !! i = Some b ∧ z = int_of_byte b) chunks column.
Proof.
  revert column. induction chunks as [|chunk chunks IH]; intros column; simpl.
  - split; [intros [= <-]; constructor|by intros ->%Forall2_nil_inv_l].
  - destruct (chunk !! i) as [b|] eqn:Hb.
    + destruct (column_at chunks i) as [rest|].
      * split.
        -- intros [= <-]. constructor; [by exists b|by apply IH].
        -- intros (z & rest' & (b' & Hb' & Hz) & Hrest & ->)%Forall2_cons_inv_l.
           apply IH in Hrest. congruence.
      * split; [done|].
        intros (z & rest' & _ & Hrest & ->)%Forall2_cons_inv_l. by apply IH in Hrest.
    + split; [done|].
      intros (z & rest' & (b' & ? & _) & _ & ->)%Forall2_cons_inv_l. congruence.
Qed.

(** The test of line 178 passes exactly when the chunks hold one and
    the same byte at the index. *)
Lemma agreeing_column chunks i first column :
  column_at chunks i = Some (first :: column) →
  forallb (fun b => b =? first) (first :: column) = true →
  ∃ b, int_of_byte b = first ∧ Forall (fun chunk => chunk !! i = Some b) chunks.
Proof.
  intros Hcol%column_at_spec Hall.
  destruct chunks as [|chunk0 chunks]; [by apply Forall2_nil_inv_l in Hcol|].
  apply Forall2_cons_1 in Hcol as Hhead. destruct Hhead as [(b & Hb & ->) _].
  exists b. split; [done|].
  rewrite forallb_forall in Hall.
  apply Forall_forall. intros chunk Hchunk.
  apply list_elem_of_lookup in Hchunk as [j Hj].
  destruct (Forall2_lookup_l _ _ _ _ _ Hcol Hj) as (z & Hz & b' & Hb' & ->).
  assert (int_of_byte b' = int_of_byte b) as ->%int_of_byte_inj; [|done].
  apply Z.eqb_eq, Hall, list_elem_of_In, list_elem_of_lookup. eauto.
Qed.

(** What one offset does when it completes: the byte all chunks share
    is copied and nothing else happens, or the chunks differ, the voter
    is entered for the offset, the count goes up by one, a row is added
    to the report when one is wanted, and one byte is written. *)
Lemma body_step file_handles chunks bytes_processed st i w st' w' :
  body file_handles chunks bytes_processed st i w = (Ok st', w') →
  (∃ b, Forall (fun chunk => chunk !! i = Some b) chunks
        ∧ st' = st
        ∧ w' = with_fs (<[output_file := default [] (fs w !! output_file) ++ [b]]> (fs w)) w)
  ∨ ((¬ ∃ b, Forall (fun chunk => chunk !! i = Some b) chunks)
     ∧ ∃ b row,
         fs w' = <[output_file := default [] (fs w !! output_file) ++ [b]]> (fs w)
         ∧ voted w' = voted w ++ [bytes_processed + Z.of_nat i]
         ∧ discrepancy_count st' = discrepancy_count st + 1
         ∧ d_offset row = bytes_processed + Z.of_nat i
         ∧ report_data st' = if report_wanted report_file
                             then report_data st ++ [row] else report_data st).
Proof.
  intros Hbody.
  destruct (column_at chunks i) as [[|first column]|] eqn:Hcol;
    [by unfold process_position in Hbody; rewrite Hcol in Hbody| |
     by unfold process_position in Hbody; rewrite Hcol in Hbody].
  assert (chunks ≠ []) as Hne.
  { intros ->. simpl in Hcol. congruence. }
  destruct (forallb (fun b => b =? first) (first :: column)) eqn:Hall.
  { destruct (agreeing_column _ _ _ _ Hcol Hall) as (b & _ & Hb).
    rewrite (body_uniform _ _ _ _ _ _ _ Hne Hb) in Hbody. injection Hbody as <- <-.
    left. by exists b. }
  right. split.
  { intros [b Hb]. rewrite (column_at_uniform _ _ _ Hb) in Hcol.
    destruct chunks as [|chunk chunks]; [done|]. simpl in Hcol.
    injection Hcol as <- <-.
    pose proof (forallb_replicate (S (length chunks)) (int_of_byte b)) as Htrue.
    simpl in Htrue. simpl in Hall. congruence. }
  revert Hbody. unfold process_position. rewrite Hcol, Hall.
  simpl. unfold mbind at 1. unfold M_bind, bind.
  destruct (get_voted_byte _ _ _ _ _ _ _ _ _ _) as [[v|x] w1] eqn:Hvote; [|done].
  apply get_voted_byte_effect in Hvote as (Hfs & _ & Hvoted).
  unfold mbind at 1. unfold M_bind, bind.
  assert (∃ w2, (if verbose && negb interactive
                 then print (DiscrepancyAt (bytes_processed + Z.of_nat i) v.1 v.2)
                 else ret tt) w1 = (Ok tt, w2)
                ∧ fs w2 = fs w1 ∧ voted w2 = voted w1) as (w2 & -> & Hfs2 & Hvoted2).
  { destruct (verbose && negb interactive); by eexists. }
  unfold mbind, M_bind, bind.
  destruct (write_byte _ _ _) as [[[]|x] w3] eqn:Hw; [|done].
  apply write_byte_ok in Hw as (b & _ & ->). intros [= <- <-]. simpl.
  exists b. eexists. split_and!; [by rewrite Hfs2, Hfs|congruence|done| |done].
  done.
Qed.

(** ** What the driver can raise *)

Lemma for_each_raises {A S} (body : S → A → M S) l st w e w' :
  for_each body l st w = (Raise e, w') →
  ∃ st0 x w0, x ∈ l ∧ body st0 x w0 = (Raise e, w').
Proof.
  revert st w. induction l as [|x l IH]; intros st w; simpl; [done|].
  unfold mbind, M_bind, bind.
  destruct (body st x w) as [[st1|x0] w1] eqn:Hbody.
  - intros (st0 & y & w0 & Hy & H)%IH. exists st0, y, w0. split; [by right|done].
  - intros [= <- <-]. exists st, x, w. split; [left|done].
Qed.

Lemma body_not_only_nulls file_handles chunks bytes_processed st i w e w' :
  length chunks = length input_files →
  body file_handles chunks bytes_processed st i w = (Raise e, w') →
  ¬ only_nulls e.
Proof.
  intros Hlen. unfold process_position.
  destruct (column_at chunks i) as [column|] eqn:Hcol; [|by intros [= <- _] [? ?]].
  destruct column as [|first column]; [by intros [= <- _] [? ?]|].
  destruct (forallb _ _) eqn:Hall; simpl.
  - unfold mbind, M_bind, bind.
    destruct (write_byte _ _ _) as [[[]|x] w1] eqn:Hw; [done|].
    apply write_byte_raises in Hw as [-> _]. by intros [= <- _] [? ?].
  - unfold mbind at 1. unfold M_bind, bind.
    destruct (get_voted_byte _ _ _ _ _ _ _ _ _ _) as [[v|x] w1] eqn:Hvote.
    + unfold mbind, M_bind, bind.
      destruct (verbose && negb interactive); unfold print, ret;
        (destruct (write_byte _ _ _) as [[[]|x] w3] eqn:Hw; [done|]);
        apply write_byte_raises in Hw as [-> _]; by intros [= <- _] [? ?].
    + intros [= <- _] Hbad.
      apply (get_voted_byte_only_nulls _ _ _ _ _ _ _ _ _ _ _ _ Hvote) in Hbad
        as (_ & _ & Hnil).
      revert Hnil. apply filter_nulls_disagreeing; [done|].
      apply column_at_length in Hcol. congruence.
Qed.

Lemma read_chunks_length files (file_handles : list handle) :
  length ((read files chunk_size <$> file_handles).*1) = length file_handles
  ∧ length ((read files chunk_size <$> file_handles).*2) = length file_handles.
Proof. by rewrite !length_fmap. Qed.

Lemma stream_loop_not_only_nulls fuel first_file_size file_handles bytes_processed st w e w' :
  length file_handles = length input_files →
  stream_loop int_of_str input_files output_file threshold margin verbose report_file
    chunk_size ignore_nulls interactive fuel first_file_size file_handles
    bytes_processed st w = (Raise e, w') →
  ¬ only_nulls e.
Proof.
  revert file_handles bytes_processed st w.
  induction fuel as [|fuel IH]; intros file_handles bytes_processed st w Hlen; simpl.
  - destruct (_ <? _); [|done]. by intros [= <- _] [? ?].
  - destruct (_ <? _); [|done].
    unfold mbind at 1. unfold M_bind, bind, get_fs.
    destruct (negb (existsb _ _)); [done|].
    destruct ((read (fs w) chunk_size <$> file_handles).*1) as [|chunk0 chunks] eqn:Hchunks;
      [by intros [= <- _] [? ?]|].
    unfold mbind at 1. unfold M_bind, bind.
    destruct (for_each _ _ _ _) as [[st1|x] w1] eqn:Hfor.
    + unfold mbind, M_bind, bind, print. apply IH.
      by rewrite (proj2 (read_chunks_length _ _)).
    + intros [= <- _]. apply for_each_raises in Hfor as (st0 & i & w0 & _ & Hbody).
      eapply body_not_only_nulls; [|exact Hbody].
      rewrite <- Hchunks. by rewrite (proj1 (read_chunks_length _ _)).
Qed.

Lemma map_M_open_rb paths w r w' :
  map_M open_rb paths w = (r, w') →
  w' = w ∧ match r with
           | Ok file_handles =>
               file_handles = (fun path => (path, O)) <$> paths
               ∧ Forall (fun path => is_Some (fs w !! path)) paths
           | Raise e => ∃ path, path ∈ paths ∧ fs w !! path = None
                                ∧ e = FileNotFoundError path
           end.
Proof.
  revert r w'. induction paths as [|path paths IH]; intros r w'; simpl.
  - by intros [= <- <-].
  - unfold mbind at 1. unfold M_bind, bind, open_rb at 1.
    unfold mbind at 1. unfold M_bind, bind, get_fs.
    destruct (fs w !! path) as [data|] eqn:Hpath.
    + unfold ret at 1. unfold mbind, M_bind, bind.
      destruct (map_M open_rb paths w) as [[hs|x] w1] eqn:Hrest;
        destruct (IH _ _ eq_refl) as [-> Hr]; intros [= <- <-]; (split; [done|]).
      * destruct Hr as [-> Hall]. split; [done|]. constructor; [by eexists|done].
      * destruct Hr as (p & ? & ? & ->). exists p. split_and!; [by right|done..].
    + intros [= <- <-]. split; [done|]. exists path. split_and!; [left|done..].
Qed.

(** ** The driver writes to the output file only *)

Lemma print_only_writes path e : respects (only_writes path) (print e).
Proof.
  eapply respects_weaken; [apply same_files_only_writes|]. by intros w r w' [= _ <-].
Qed.

Lemma write_byte_only_writes n :
  respects (only_writes output_file) (write_byte output_file n).
Proof.
  intros w r w'. unfold write_byte.
  destruct (to_bytes1 n) as [b|]; [|intros [= _ <-]; reflexivity].
  intros [= _ <-]. split; simpl.
  - intros other Hne. by rewrite lookup_insert_ne.
  - intros _. rewrite lookup_insert_eq. by eexists.
Qed.

Lemma body_only_writes file_handles chunks bytes_processed st i :
  respects (only_writes output_file) (body file_handles chunks bytes_processed st i).
Proof.
  unfold process_position.
  destruct (column_at chunks i) as [[|first column]|];
    [apply respects_raise; apply _| |apply respects_raise; apply _].
  destruct (negb _).
  - apply respects_bind; [apply _| |].
    { eapply respects_weaken; [apply same_files_only_writes|].
      apply get_voted_byte_same_files. }
    intros v. apply respects_bind; [apply _| |].
    { destruct (verbose && negb interactive);
        [apply print_only_writes|apply respects_ret; apply _]. }
    intros []. apply respects_bind; [apply _|apply write_byte_only_writes|].
    intros []. apply respects_ret; apply _.
  - apply respects_bind; [apply _|apply write_byte_only_writes|].
    intros []. apply respects_ret; apply _.
Qed.

Lemma stream_loop_only_writes fuel first_file_size file_handles bytes_processed st :
  respects (only_writes output_file)
    (stream_loop int_of_str input_files output_file threshold margin verbose report_file
       chunk_size ignore_nulls interactive fuel first_file_size file_handles
       bytes_processed st).
Proof.
  revert file_handles bytes_processed st.
  induction fuel as [|fuel IH]; intros file_handles bytes_processed st; simpl.
  - destruct (_ <? _); [apply respects_raise|apply respects_ret]; apply _.
  - destruct (_ <? _); [|apply respects_ret; apply _].
    apply respects_bind; [apply _|by intros w r w' [= _ <-]|].
    intros files. destruct (negb (existsb _ _)); [apply respects_ret; apply _|].
    destruct (_.*1) as [|chunk0 chunks]; [apply respects_raise; apply _|].
    apply respects_bind; [apply _| |].
    { apply respects_for_each; [apply _|]. intros. apply body_only_writes. }
    intros st'. apply respects_bind; [apply _|apply print_only_writes|].
    intros []. apply IH.
Qed.

(** The handler: the error is printed, the output file removed, and the
    process left with status 1. *)
Lemma abort_fatal e w :
  fatal e →
  is_Some (fs w !! output_file) →
  abort output_file e w
  = (Raise (SystemExit 1),
     with_fs (delete output_file (fs w))
       (say match e with ValueError msg => ErrPrint msg | _ => ErrInterrupted end w)).
Proof.
  intros [->|[msg ->]] [data Hdata]; unfold abort, remove;
    unfold mbind, M_bind, bind, print, get_fs; simpl; by rewrite Hdata.
Qed.

Local Abbreviation run_stream :=
  (stream int_of_str input_files output_file threshold margin verbose report_file
     chunk_size ignore_nulls interactive).

Lemma stream_unfold first_file_size w :
  run_stream first_file_size w =
  match map_M open_rb input_files w with
  | (Ok file_handles, _) =>
      stream_loop int_of_str input_files output_file threshold margin verbose
        report_file chunk_size ignore_nulls interactive
        (S (Z.to_nat first_file_size)) first_file_size file_handles 0 (Locals 0 [])
        (with_fs (<[output_file := []]> (fs w)) w)
  | (Raise e, _) => (Raise e, w)
  end.
Proof.
  unfold stream. unfold mbind at 1. unfold M_bind, bind.
  destruct (map_M open_rb input_files w) as [[hs|x] w1] eqn:Hopen;
    apply map_M_open_rb in Hopen as [-> _]; [|done].
  unfold mbind, M_bind, bind, open_wb, get_fs, set_fs. done.
Qed.

(** An exception of the handler's kind is raised only once the output
    file has been opened. *)
Lemma stream_fatal_output_exists first_file_size w e w1 :
  run_stream first_file_size w = (Raise e, w1) →
  fatal e →
  is_Some (fs w1 !! output_file)
  ∧ ∀ other, other ≠ output_file → fs w1 !! other = fs w !! other.
Proof.
  rewrite stream_unfold.
  destruct (map_M open_rb input_files w) as [[hs|x] w0] eqn:Hopen;
    apply map_M_open_rb in Hopen as [-> Hr].
  - intros Hloop%stream_loop_only_writes _. destruct Hloop as [Hother Hout].
    simpl in *. split.
    + apply Hout. rewrite lookup_insert_eq. by eexists.
    + intros other Hne. by rewrite Hother, lookup_insert_ne.
  - destruct Hr as (path & _ & _ & ->). by intros [= <- _] [?|[? ?]].
Qed.

(** ** The checks before the streaming *)

Lemma getsize_spec path w :
  getsize path w = match fs w !! path with
                   | Some data => (Ok (Z.of_nat (length data)), w)
                   | None => (Raise (FileNotFoundError path), w)
                   end.
Proof.
  unfold getsize, mbind, M_bind, bind, get_fs. by destruct (fs w !! path).
Qed.

Lemma same_size_same_files first_file_size rest :
  respects same_files (same_size first_file_size rest).
Proof.
  induction rest as [|f rest IH]; simpl; [apply respects_ret; apply _|].
  apply respects_bind; [apply _| |].
  { intros w r w'. rewrite getsize_spec. by destruct (fs w !! f); intros [= _ <-]. }
  intros size. destruct (negb _); [|apply IH].
  apply respects_bind; [apply _|apply print_same_files|].
  intros []. apply respects_ret; apply _.
Qed.

Lemma same_size_true first_file_size rest w w' :
  same_size first_file_size rest w = (Ok true, w') ↔
  w' = w ∧ Forall (sized (fs w) first_file_size) rest.
Proof.
  revert w'. induction rest as [|f rest IH]; intros w'; simpl.
  - unfold ret. split; [by intros [= <-]|by intros [-> _]].
  - unfold mbind at 1. unfold M_bind, bind. rewrite getsize_spec.
    destruct (fs w !! f) as [data|] eqn:Hf.
    + destruct (Z.eqb_spec (Z.of_nat (length data)) first_file_size) as [Hsize|Hsize]; simpl.
      * rewrite IH. split; intros [-> Hall]; (split; [done|]).
        -- constructor; [by exists data|done].
        -- by apply Forall_cons in Hall as [_ ?].
      * unfold mbind, M_bind, bind, print, ret. split; [done|].
        intros [_ Hall]. apply Forall_cons in Hall as [(d & Hd & ?) _]. congruence.
    + split; [done|].
      intros [_ Hall]. apply Forall_cons in Hall as [(d & Hd & ?) _]. congruence.
Qed.

Local Abbreviation run_check := (check_sizes input_files).

Lemma check_sizes_some first_file_size w w' :
  run_check w = (Ok (Some first_file_size), w') ↔
  w' = w ∧ input_files ≠ [] ∧ Forall (sized (fs w) first_file_size) input_files.
Proof.
  unfold check_sizes, except_FileNotFoundError.
  destruct input_files as [|f0 rest].
  { unfold raise. split; [done|]. by intros (_ & ? & _). }
  unfold mbind at 1. unfold M_bind, bind. rewrite getsize_spec.
  destruct (fs w !! f0) as [data|] eqn:Hf0.
  - unfold mbind, M_bind, bind.
    destruct (same_size _ _ _) as [[[]|x] w1] eqn:Hsame.
    + apply same_size_true in Hsame as [-> Hall]. unfold ret. split.
      * intros [= <- <-]. split_and!; [done..|]. constructor; [by exists data|done].
      * intros (-> & _ & Hall'). apply Forall_cons in Hall' as [(d & Hd & <-) _].
        congruence.
    + unfold ret. split; [done|]. intros (-> & _ & Hall).
      apply Forall_cons in Hall as [(d & Hd & <-) Hall].
      assert (same_size (Z.of_nat (length d)) rest w = (Ok true, w)) as Htrue
        by (by apply same_size_true).
      congruence.
    + split.
      * by destruct x.
      * intros (-> & _ & Hall). apply Forall_cons in Hall as [(d & Hd & <-) Hall].
        assert (same_size (Z.of_nat (length d)) rest w = (Ok true, w)) as Htrue
          by (by apply same_size_true).
        congruence.
  - unfold mbind, M_bind, bind, print, ret. split; [done|].
    intros (_ & _ & Hall). apply Forall_cons in Hall as [(d & Hd & _) _]. congruence.
Qed.

Lemma check_sizes_same_files : respects same_files run_check.
Proof.
  unfold check_sizes. apply respects_except_FileNotFoundError; [apply _| |].
  - destruct input_files as [|f0 rest]; [apply respects_raise; apply _|].
    apply respects_bind; [apply _| |].
    { intros w r w'. rewrite getsize_spec. by destruct (fs w !! f0); intros [= _ <-]. }
    intros size. apply respects_bind; [apply _|apply same_size_same_files|].
    intros same. apply respects_ret; apply _.
  - intros path. apply respects_bind; [apply _|apply print_same_files|].
    intros []. apply respects_ret; apply _.
Qed.

Local Abbreviation run_announce :=
  (announce input_files output_file threshold margin report_file force).

Lemma announce_says first_file_size w :
  ∃ events, run_announce first_file_size w = (Ok tt, say_all events w).
Proof.
  unfold announce, report_wanted.
  unfold mbind, M_bind, bind, print, path_exists, get_fs, ret, mret, M_ret. simpl.
  destruct margin as [m|]; destruct report_file as [path|]; simpl;
    try destruct (negb (String.eqb path "")); simpl;
    destruct (force && _); simpl; rewrite ?say_say_all, ?say_all_app; by eexists.
Qed.

Local Abbreviation run :=
  (create_corrected_firmware int_of_str input_files output_file threshold margin
     verbose report_file chunk_size force ignore_nulls interactive render_report).

Local Abbreviation run_finish := (finish output_file report_file render_report).

(** Past the checks, the run is the announcement, the streaming under
    its handler, and the closing lines. *)
Lemma create_unfold first_file_size w :
  force = true ∨ fs w !! output_file = None →
  run_check w = (Ok (Some first_file_size), w) →
  run w =
  match try_except (run_stream first_file_size) (abort output_file)
          (run_announce first_file_size w).2 with
  | (Ok st, w') => run_finish st w'
  | (Raise e, w') => (Raise e, w')
  end.
Proof.
  intros Hforce Hcheck.
  assert (input_files ≠ []) as Hne by (by apply check_sizes_some in Hcheck as (_ & ? & _)).
  unfold create_corrected_firmware. destruct input_files as [|f0 rest] eqn:Hin; [done|].
  rewrite <- Hin in *.
  unfold mbind at 1. unfold M_bind, bind, path_exists at 1.
  unfold mbind at 1. unfold M_bind, bind, get_fs, ret.
  assert (bool_decide (is_Some (fs w !! output_file)) && negb force = false) as ->.
  { destruct Hforce as [-> | ->]; [apply andb_false_r|].
    rewrite bool_decide_eq_false_2; [done|]. by intros [? ?]. }
  unfold mbind at 1. unfold M_bind, bind. rewrite Hcheck.
  unfold mbind at 1. unfold M_bind, bind.
  destruct (announce_says first_file_size w) as [events ->]. simpl.
  unfold mbind, M_bind, bind. done.
Qed.


Lemma same_size_total first_file_size rest w :
  ∃ r w', same_size first_file_size rest w = (r, w')
          ∧ match r with
            | Ok _ => True
            | Raise e => ∃ path, e = FileNotFoundError path
            end.
Proof.
  induction rest as [|f rest IH]; simpl; [by exists (Ok true), w|].
  unfold mbind at 1. unfold M_bind, bind. rewrite getsize_spec.
  destruct (fs w !! f) as [data|]; [|by exists (Raise (FileNotFoundError f)), w; eauto].
  destruct (negb _); [|done].
  by exists (Ok false), (say (DifferentSize f) w).
Qed.

(** The checks of lines 142-153 never raise: a missing file is caught. *)
Lemma check_sizes_total w :
  input_files ≠ [] → ∃ checked w', run_check w = (Ok checked, w').
Proof.
  intros Hne. unfold check_sizes, except_FileNotFoundError.
  destruct input_files as [|f0 rest]; [done|].
  unfold mbind at 1. unfold M_bind, bind. rewrite getsize_spec.
  destruct (fs w !! f0) as [data|].
  - unfold mbind, M_bind, bind.
    destruct (same_size_total (Z.of_nat (length data)) rest w) as (r & w' & -> & Hr).
    destruct r as [same|e]; [by eexists _, _|].
    destruct Hr as [path ->]. unfold print, ret. by eexists _, _.
  - unfold mbind, M_bind, bind, print, ret. by eexists _, _.
Qed.

(** What a failed check does: the output-exists check leaves with
    status 1; the others print their message and return, which ends the
    script with status 0. No file is touched in either case. *)
Lemma failed_checks w :
  (input_files = [] → run w = (Ok tt, say NoInputFiles w))
  ∧ (input_files ≠ [] → is_Some (fs w !! output_file) → force = false →
     run w = (Raise (SystemExit 1), say (OutputExists output_file) w))
  ∧ (input_files ≠ [] → force = true ∨ fs w !! output_file = None →
     (¬ ∃ size, Forall (sized (fs w) size) input_files) →
     ∃ w', run w = (Ok tt, w') ∧ fs w' = fs w).
Proof.
  split_and!.
  - intros Hnil. unfold create_corrected_firmware. by rewrite Hnil.
  - intros Hne Hout ->. unfold create_corrected_firmware.
    destruct input_files as [|f0 rest]; [done|].
    unfold mbind at 1. unfold M_bind, bind, path_exists at 1.
    unfold mbind at 1. unfold M_bind, bind, get_fs, ret.
    by rewrite bool_decide_eq_true_2.
  - intros Hne Hforce Hsizes.
    destruct (check_sizes_total w Hne) as (checked & w' & Hcheck).
    destruct checked as [size|].
    { exfalso. apply Hsizes. exists size. by apply check_sizes_some in Hcheck as (_ & _ & ?). }
    exists w'. split; [|by eapply check_sizes_same_files].
    unfold create_corrected_firmware.
    destruct input_files as [|f0 rest] eqn:Hin; [done|]. rewrite <- Hin in *.
    unfold mbind at 1. unfold M_bind, bind, path_exists at 1.
    unfold mbind at 1. unfold M_bind, bind, get_fs, ret.
    assert (bool_decide (is_Some (fs w !! output_file)) && negb force = false) as ->.
    { destruct Hforce as [-> | ->]; [apply andb_false_r|].
      rewrite bool_decide_eq_false_2; [done|]. by intros [? ?]. }
    unfold mbind, M_bind, bind. by rewrite Hcheck.
Qed.

(** ** Enough fuel *)

Lemma body_raises file_handles chunks bytes_processed st i w e w' :
  body file_handles chunks bytes_processed st i w = (Raise e, w') →
  e = ZeroDivisionError ∨ e = IndexError ∨ e = EOFError ∨ e = OverflowError ∨ fatal e.
Proof.
  unfold process_position.
  destruct (column_at chunks i) as [[|first column]|];
    [intros [= <- _]; tauto| |intros [= <- _]; tauto].
  destruct (negb _).
  - unfold mbind at 1. unfold M_bind, bind.
    destruct (get_voted_byte _ _ _ _ _ _ _ _ _ _) as [[v|x] w1] eqn:Hvote.
    + unfold mbind, M_bind, bind.
      destruct (verbose && negb interactive); unfold print, ret;
        (destruct (write_byte _ _ _) as [[[]|x] w3] eqn:Hw; [done|]);
        apply write_byte_raises in Hw as [-> _]; intros [= <- _]; tauto.
    + intros [= <- _]. apply get_voted_byte_raises in Hvote. tauto.
  - unfold mbind, M_bind, bind.
    destruct (write_byte _ _ _) as [[[]|x] w1] eqn:Hw; [done|].
    apply write_byte_raises in Hw as [-> _]. intros [= <- _]. tauto.
Qed.

Lemma body_not_out_of_fuel file_handles chunks bytes_processed st i w e w' :
  body file_handles chunks bytes_processed st i w = (Raise e, w') → e ≠ OutOfFuel.
Proof.
  intros [->|[->|[->|[->|[->|[msg ->]]]]]]%body_raises; done.
Qed.

Lemma read_sized files size position path :
  sized files (Z.of_nat size) path →
  (position ≤ size)%nat →
  let n := chunk_length chunk_size size position in
  (read files chunk_size (path, position)).2 = (path, (position + n)%nat)
  ∧ length (read files chunk_size (path, position)).1 = n.
Proof.
  intros (data & Hdata & Hsize) Hpos n. apply Nat2Z.inj in Hsize.
  unfold read. simpl. rewrite Hdata. simpl.
  assert (length (if chunk_size <? 0 then drop position data
                  else take (Z.to_nat chunk_size) (drop position data)) = n) as Hlen.
  { unfold n, chunk_length. destruct (chunk_size <? 0).
    - rewrite length_drop. lia.
    - rewrite length_take, length_drop. lia. }
  by rewrite Hlen.
Qed.

Lemma read_handles_at files size position :
  Forall (sized files (Z.of_nat size)) input_files →
  (position ≤ size)%nat →
  let n := chunk_length chunk_size size position in
  (read files chunk_size <$> handles_at input_files position).*2
  = handles_at input_files (position + n)
  ∧ Forall (fun chunk => length chunk = n)
      ((read files chunk_size <$> handles_at input_files position).*1).
Proof.
  intros Hall Hpos n. unfold handles_at.
  induction Hall as [|path paths Hpath Hpaths [IH1 IH2]]; [done|].
  destruct (read_sized _ _ _ _ Hpath Hpos) as [H2 H1]. fold n in H1, H2.
  rewrite !fmap_cons, H2, IH1. split; [done|]. by constructor.
Qed.

Lemma existsb_nonempty n (chunks : list (list byte)) :
  Forall (fun chunk => length chunk = n) chunks →
  existsb (fun chunk => negb (is_empty chunk)) chunks = true →
  (0 < n)%nat.
Proof.
  induction 1 as [|chunk chunks Hn _ IH]; simpl; [done|].
  intros [H|H]%orb_true_iff; [|by apply IH].
  destruct chunk; [done|]. simpl in Hn. lia.
Qed.

Lemma sized_only_writes size w w' :
  output_file ∉ input_files →
  only_writes output_file w w' →
  Forall (sized (fs w) size) input_files →
  Forall (sized (fs w') size) input_files.
Proof.
  intros Hout [Hother _]. rewrite !Forall_forall. intros Hall path Hin.
  destruct (Hall path Hin) as (data & Hdata & Hsize). exists data. split; [|done].
  rewrite Hother; [done|]. by intros ->.
Qed.

(** As long as the output file is not one of the input files, the loop
    reads a chunk of the same, positive length from every file, so a
    fuel above the number of bytes left is never used up. *)
Lemma stream_loop_enough_fuel fuel size position st w e w' :
  output_file ∉ input_files →
  (size - position < fuel)%nat →
  (position ≤ size)%nat →
  Forall (sized (fs w) (Z.of_nat size)) input_files →
  stream_loop int_of_str input_files output_file threshold margin verbose report_file
    chunk_size ignore_nulls interactive fuel (Z.of_nat size)
    (handles_at input_files position) (Z.of_nat position) st w = (Raise e, w') →
  e ≠ OutOfFuel.
Proof.
  intros Hout. revert position st w.
  induction fuel as [|fuel IH]; intros position st w Hfuel Hpos Hsized; [lia|].
  simpl. destruct (_ <? _); [|done].
  unfold mbind at 1. unfold M_bind, bind, get_fs.
  destruct (read_handles_at (fs w) size position Hsized Hpos) as [Hhandles Hchunks].
  set (n := chunk_length chunk_size size position) in *.
  rewrite Hhandles.
  destruct (existsb _ _) eqn:Hany; [|done]. simpl.
  apply (existsb_nonempty _ _ Hchunks) in Hany.
  destruct (_.*1) as [|chunk0 chunks] eqn:Hreads; [by intros [= <- _]|].
  apply Forall_cons in Hchunks as [Hn _]. rewrite Hn.
  unfold mbind at 1. unfold M_bind, bind.
  destruct (for_each _ _ _ _) as [[st1|x] w1] eqn:Hfor.
  - unfold mbind, M_bind, bind, print.
    rewrite <- Nat2Z.inj_add. apply IH.
    + assert (n ≤ size - position)%nat; [|lia].
      unfold n, chunk_length. destruct (chunk_size <? 0); lia.
    + assert (n ≤ size - position)%nat; [|lia].
      unfold n, chunk_length. destruct (chunk_size <? 0); lia.
    + change (Forall (sized (fs w1) (Z.of_nat size)) input_files).
      apply (sized_only_writes _ w); [done| |done].
      eapply (respects_for_each (only_writes output_file)); [|exact Hfor].
      intros. apply body_only_writes.
  - intros [= <- _]. apply for_each_raises in Hfor as (st0 & i & w0 & _ & Hbody).
    by eapply body_not_out_of_fuel.
Qed.

Lemma open_all_sized size w :
  Forall (sized (fs w) size) input_files →
  map_M open_rb input_files w = (Ok (handles_at input_files 0), w).
Proof.
  intros Hsized.
  destruct (map_M open_rb input_files w) as [[hs|x] w1] eqn:Hopen;
    apply map_M_open_rb in Hopen as [-> Hr].
  - by destruct Hr as [-> _].
  - destruct Hr as (path & Hin & Hnone & _). rewrite Forall_forall in Hsized.
    destruct (Hsized path Hin) as (data & ? & _). congruence.
Qed.

Lemma stream_enough_fuel first_file_size w e w' :
  output_file ∉ input_files →
  Forall (sized (fs w) first_file_size) input_files →
  input_files ≠ [] →
  run_stream first_file_size w = (Raise e, w') → e ≠ OutOfFuel.
Proof.
  intros Hout Hsized Hne.
  assert (∃ size, first_file_size = Z.of_nat size) as [size ->].
  { destruct input_files as [|f0 rest]; [done|].
    apply Forall_cons in Hsized as [(data & _ & <-) _]. by eexists. }
  rewrite stream_unfold, (open_all_sized _ _ Hsized). rewrite Nat2Z.id.
  change 0 with (Z.of_nat 0). apply stream_loop_enough_fuel; [done|lia|lia|].
  apply (sized_only_writes _ w); [done| |done].
  split; simpl.
  - intros other Hother. by rewrite lookup_insert_ne.
  - intros _. rewrite lookup_insert_eq. by eexists.
Qed.

(** The run never ends for want of fuel. *)
Lemma run_enough_fuel w e w' :
  output_file ∉ input_files →
  run w = (Raise e, w') → e ≠ OutOfFuel.
Proof.
  intros Hout Hrun.
  destruct (decide (input_files = [])) as [Hnil|Hne].
  { destruct (failed_checks w) as (H & _). rewrite (H Hnil) in Hrun. done. }
  destruct (decide (is_Some (fs w !! output_file) ∧ force = false)) as [[Hex Hf]|Hforce].
  { destruct (failed_checks w) as (_ & H & _). rewrite (H Hne Hex Hf) in Hrun.
    by injection Hrun as <- _. }
  assert (force = true ∨ fs w !! output_file = None) as Hforce'.
  { destruct force; [by left|right]. destruct (fs w !! output_file) eqn:Ho; [|done].
    exfalso. apply Hforce. split; [by eexists|done]. }
  destruct (check_sizes_total w Hne) as ([size|] & w1 & Hcheck).
  - apply check_sizes_some in Hcheck as Hc. destruct Hc as (-> & _ & Hsized).
    rewrite (create_unfold _ _ Hforce' Hcheck) in Hrun.
    destruct (announce_says size w) as [events Ha]. rewrite Ha in Hrun. simpl in Hrun.
    unfold try_except in Hrun.
    destruct (run_stream size _) as [[st|x] w2] eqn:Hstream.
    + revert Hrun. unfold finish, mbind, M_bind, bind, print, write_file, get_fs, set_fs.
      destruct report_file as [path|]; [|done]. by destruct (_ && _).
    + apply stream_enough_fuel in Hstream; [|done..].
      revert Hrun. unfold abort, remove, mbind, M_bind, bind, print, get_fs, set_fs.
      destruct x; simpl; try (by intros [= <- _]).
      * destruct (fs w2 !! output_file); by intros [= <- _].
      * destruct (fs w2 !! output_file); by intros [= <- _].
  - destruct (failed_checks w) as (_ & _ & H).
    destruct (H Hne Hforce') as (w2 & Hrun' & _).
    + intros [size Hsized].
      assert (run_check w = (Ok (Some size), w)) by (by apply check_sizes_some).
      congruence.
    + congruence.
Qed.

(** ** The whole streaming, offset by offset *)

Lemma for_each_invariant {A St} (I : nat → St → world → Prop) (step : St → A → M St)
    l k st w st' w' :
  for_each step l st w = (Ok st', w') →
  I k st w →
  (∀ j x st w st' w',
     l !! j = Some x → I (k + j)%nat st w → step st x w = (Ok st', w') →
     I (k + j + 1)%nat st' w') →
  I (k + length l)%nat st' w'.
Proof.
  revert k st w. induction l as [|x l IH]; intros k st w; simpl.
  - intros [= <- <-] HI _. by rewrite Nat.add_0_r.
  - unfold mbind, M_bind, bind.
    destruct (step st x w) as [[st1|e] w1] eqn:Hstep; [|done].
    intros Hrest HI Hbody.
    replace (k + S (length l))%nat with (S k + length l)%nat by lia.
    apply (IH _ _ _ Hrest).
    + specialize (Hbody O x st w st1 w1 eq_refl).
      rewrite Nat.add_0_r in Hbody. replace (S k) with (k + 1)%nat by lia. auto.
    + intros j y st2 w2 st3 w3 Hj HI2 Hstep2.
      replace (S k + j + 1)%nat with (k + S j + 1)%nat by lia.
      apply (Hbody (S j) y st2 w2); [done| |done].
      by replace (k + S j)%nat with (S k + j)%nat by lia.
Qed.

Lemma read_lookup files size position path i :
  sized files (Z.of_nat size) path →
  (position ≤ size)%nat →
  (i < chunk_length chunk_size size position)%nat →
  (read files chunk_size (path, position)).1 !! i = byte_at files path (position + i).
Proof.
  intros (data & Hdata & Hsize) Hpos Hi. unfold read, byte_at. simpl.
  rewrite Hdata. simpl. unfold chunk_length in Hi.
  destruct (chunk_size <? 0); [by rewrite lookup_drop|].
  rewrite lookup_take_lt by lia. by rewrite lookup_drop.
Qed.

Lemma chunks_uniform files size position i b :
  Forall (sized files (Z.of_nat size)) input_files →
  (position ≤ size)%nat →
  (i < chunk_length chunk_size size position)%nat →
  Forall (fun chunk => chunk !! i = Some b)
    (read files chunk_size <$> handles_at input_files position).*1
  ↔ uniform_at files input_files (position + i) b.
Proof.
  intros Hsized Hpos Hi. unfold uniform_at, handles_at.
  induction Hsized as [|path paths Hpath _ IH]; [done|].
  rewrite !fmap_cons, !Forall_cons, IH. by rewrite (read_lookup _ _ _ _ _ Hpath Hpos Hi).
Qed.

Lemma read_agree files files' position :
  (∀ path, path ∈ input_files → files !! path = files' !! path) →
  read files chunk_size <$> handles_at input_files position
  = read files' chunk_size <$> handles_at input_files position.
Proof.
  intros Hsame. unfold handles_at. rewrite <- !list_fmap_compose.
  apply list_fmap_ext. intros j path Hin%list_elem_of_lookup_2. unfold read, compose. simpl.
  by rewrite (Hsame path) by done.
Qed.

Lemma uniform_at_unique files i b b' :
  input_files ≠ [] →
  uniform_at files input_files i b → uniform_at files input_files i b' → b = b'.
Proof.
  unfold uniform_at. destruct input_files as [|path paths]; [done|].
  intros _ [H _]%Forall_cons [H' _]%Forall_cons. congruence.
Qed.

Lemma disagreeing_before_mono files position position' offset :
  (position ≤ position')%nat →
  disagreeing_before files input_files position offset →
  disagreeing_before files input_files position' offset.
Proof. intros Hle (i & ? & ? & ?). exists i. split_and!; [done|lia|done]. Qed.

Lemma streamed_say files0 voted0 position st e w :
  streamed files0 voted0 input_files output_file position st w →
  streamed files0 voted0 input_files output_file position st (say e w).
Proof. by intros [? ? ? ?]. Qed.

(** One more offset keeps what [streamed] says. *)
Lemma streamed_step files0 voted0 size position i file_handles st w st' w' :
  input_files ≠ [] →
  Forall (sized files0 (Z.of_nat size)) input_files →
  (position ≤ size)%nat →
  (i < chunk_length chunk_size size position)%nat →
  streamed files0 voted0 input_files output_file (position + i) st w →
  body file_handles (read files0 chunk_size <$> handles_at input_files position).*1
    (Z.of_nat position) st i w = (Ok st', w') →
  streamed files0 voted0 input_files output_file (position + i + 1) st' w'.
Proof.
  intros Hne Hsized Hpos Hi [Hinputs (out & Hout & Hlen & Huniform)
    (votes & Hvoted & Hvotes & Hcount) Hreport] Hbody.
  pose proof (fun b => chunks_uniform files0 size position i b Hsized Hpos Hi) as Hchunks.
  assert (∀ offset,
            disagreeing_before files0 input_files (position + i) offset →
            disagreeing_before files0 input_files (position + i + 1) offset) as Hmono.
  { intros offset. apply disagreeing_before_mono. lia. }
  apply body_step in Hbody as [(b & Hb & -> & ->)|(Hnone & b & row & Hfs & Hv & Hc & Hrow & Hrep)].
  - apply Hchunks in Hb. split; simpl.
    + intros path Hpath. by rewrite lookup_insert_ne, Hinputs.
    + exists (out ++ [b]). rewrite lookup_insert_eq, Hout. simpl.
      split_and!; [done|rewrite length_app; simpl; lia|].
      intros j b' Hj Hb'. destruct (decide (j < position + i)%nat) as [Hlt|Hge].
      * rewrite lookup_app_l by lia. by apply Huniform.
      * assert (j = (position + i)%nat) as -> by lia.
        rewrite (uniform_at_unique _ _ _ _ Hne Hb' Hb).
        rewrite lookup_app_r by lia. by rewrite Hlen, Nat.sub_diag.
    + exists votes. split_and!; [done| |done].
      eapply Forall_impl; [exact Hvotes|]. apply Hmono.
    + eapply Forall_impl; [exact Hreport|]. intros d. apply Hmono.
  - assert (¬ ∃ b, uniform_at files0 input_files (position + i) b) as Hdis.
    { intros [b' Hb']. apply Hnone. exists b'. by apply Hchunks. }
    assert (disagreeing_before files0 input_files (position + i + 1)
              (Z.of_nat position + Z.of_nat i)) as Hhere.
    { exists (position + i)%nat. split_and!; [lia|lia|done]. }
    split.
    + intros path Hpath. by rewrite Hfs, lookup_insert_ne, Hinputs.
    + exists (out ++ [b]). rewrite Hfs, lookup_insert_eq, Hout. simpl.
      split_and!; [done|rewrite length_app; simpl; lia|].
      intros j b' Hj Hb'. destruct (decide (j < position + i)%nat) as [Hlt|Hge].
      * rewrite lookup_app_l by lia. by apply Huniform.
      * assert (j = (position + i)%nat) as -> by lia. exfalso. apply Hdis. by exists b'.
    + exists (votes ++ [Z.of_nat position + Z.of_nat i]). split_and!.
      * by rewrite Hv, Hvoted, app_assoc.
      * apply Forall_app. split; [|by repeat constructor].
        eapply Forall_impl; [exact Hvotes|]. apply Hmono.
      * rewrite Hc, Hcount, length_app. simpl. lia.
    + rewrite Hrep. destruct (report_wanted report_file).
      * apply Forall_app. split; [|constructor; [by rewrite Hrow|constructor]].
        eapply Forall_impl; [exact Hreport|]. intros d. apply Hmono.
      * eapply Forall_impl; [exact Hreport|]. intros d. apply Hmono.
Qed.

Lemma existsb_empty n (chunks : list (list byte)) :
  chunks ≠ [] →
  Forall (fun chunk => length chunk = n) chunks →
  existsb (fun chunk => negb (is_empty chunk)) chunks = false →
  n = O.
Proof.
  intros Hne Hall. destruct Hall as [|chunk chunks Hn _]; [done|]. simpl.
  intros [H _]%orb_false_iff. destruct chunk; [done|]. done.
Qed.

(** The loop, from [position] to the end of the files. *)
Lemma stream_loop_streamed files0 voted0 fuel size position st w st' w' :
  output_file ∉ input_files →
  input_files ≠ [] →
  chunk_size ≠ 0 →
  Forall (sized files0 (Z.of_nat size)) input_files →
  (position ≤ size)%nat →
  streamed files0 voted0 input_files output_file position st w →
  stream_loop int_of_str input_files output_file threshold margin verbose report_file
    chunk_size ignore_nulls interactive fuel (Z.of_nat size)
    (handles_at input_files position) (Z.of_nat position) st w = (Ok st', w') →
  streamed files0 voted0 input_files output_file size st' w'.
Proof.
  intros Hout Hne Hcs Hsized. revert position st w.
  induction fuel as [|fuel IH]; intros position st w Hpos Hst; simpl.
  - destruct (Z.ltb_spec (Z.of_nat position) (Z.of_nat size)); [done|].
    intros [= <- <-]. by replace size with position by lia.
  - destruct (Z.ltb_spec (Z.of_nat position) (Z.of_nat size)) as [Hlt|Hge].
    2:{ intros [= <- <-]. by replace size with position by lia. }
    unfold mbind at 1. unfold M_bind, bind, get_fs.
    rewrite (read_agree (fs w) files0).
    2:{ intros path Hin. apply (streamed_inputs _ _ _ _ _ _ _ Hst). by intros ->. }
    destruct (read_handles_at files0 size position Hsized Hpos) as [Hhandles Hchunks].
    set (n := chunk_length chunk_size size position) in *.
    assert (0 < n)%nat as Hn.
    { unfold n, chunk_length. destruct (Z.ltb_spec chunk_size 0); lia. }
    rewrite Hhandles.
    set (chunks := (read files0 chunk_size <$> handles_at input_files position).*1) in *.
    assert (chunks ≠ []) as Hchunks_ne.
    { unfold chunks, handles_at. destruct input_files; [done|]. by rewrite !fmap_cons. }
    destruct (existsb _ chunks) eqn:Hany.
    2:{ apply (existsb_empty _ _ Hchunks_ne Hchunks) in Hany. lia. }
    simpl. destruct chunks as [|chunk0 chunks'] eqn:Hreads; [done|].
    apply Forall_cons in Hchunks as Hlen. destruct Hlen as [Hlen _]. rewrite Hlen.
    unfold mbind at 1. unfold M_bind, bind.
    destruct (for_each _ _ _ _) as [[st1|x] w1] eqn:Hfor; [|done].
    unfold mbind, M_bind, bind, print. rewrite <- Nat2Z.inj_add.
    assert (n ≤ size - position)%nat as Hle.
    { unfold n, chunk_length. destruct (chunk_size <? 0); lia. }
    apply IH; [lia|]. apply streamed_say.
    pose proof (for_each_invariant
                  (fun j st w => streamed files0 voted0 input_files output_file j st w)
                  _ _ position _ _ _ _ Hfor Hst) as Hinv.
    rewrite length_seq in Hinv. apply Hinv.
    intros j x st2 w2 st3 w3 [-> Hj]%lookup_seq HI Hstep. simpl in *.
    eapply (streamed_step _ _ size position j); [done..|].
    unfold chunks in Hreads. rewrite Hreads. exact Hstep.
Qed.

Lemma uniform_at_insert_output files data i b :
  output_file ∉ input_files →
  uniform_at (<[output_file := data]> files) input_files i b
  ↔ uniform_at files input_files i b.
Proof.
  intros Hout. unfold uniform_at. rewrite !Forall_forall.
  split; intros H path Hin; specialize (H path Hin); unfold byte_at in *;
    rewrite lookup_insert_ne in *; try done; by intros ->.
Qed.

Lemma uniform_at_below files size i b :
  input_files ≠ [] →
  Forall (sized files (Z.of_nat size)) input_files →
  uniform_at files input_files i b → (i < size)%nat.
Proof.
  unfold uniform_at. destruct input_files as [|path paths]; [done|].
  intros _ [(data & Hdata & Hsize) _]%Forall_cons [Hb _]%Forall_cons.
  unfold byte_at in Hb. rewrite Hdata in Hb. simpl in Hb.
  apply lookup_lt_Some in Hb. lia.
Qed.


(** C10: the driver hands [get_voted_byte] only columns in which the
    bytes differ, one byte per input file; such a column holds a byte
    other than 0x00, so dropping the 0x00 bytes never leaves it empty,
    and neither one offset of the loop nor the whole streaming phase can
    raise the error of line 92. A column of 0x00 bytes only is copied by
    the fast path, and [get_voted_byte] is not entered for it. *)
Theorem only_nulls_is_unreachable :
  (∀ column,
     disagreeing column →
     length column = length input_files →
     (∃ b, b ∈ column ∧ b ≠ 0) ∧ filter_nulls column input_files ≠ [])
  ∧ (∀ file_handles chunks bytes_processed st i w e w',
       length chunks = length input_files →
       body file_handles chunks bytes_processed st i w = (Raise e, w') →
       ¬ only_nulls e)
  ∧ (∀ first_file_size w e w',
       run_stream first_file_size w = (Raise e, w') → ¬ only_nulls e)
  ∧ (∀ file_handles chunks bytes_processed st i w,
       chunks ≠ [] →
       Forall (fun chunk => chunk !! i = Some x00) chunks →
       body file_handles chunks bytes_processed st i w
       = (Ok st, with_fs (<[output_file := default [] (fs w !! output_file) ++ [x00]]>
                            (fs w)) w)).
Proof.
  split_and!.
  - intros column Hdis Hlen. split; [by apply disagreeing_nonzero|].
    by apply filter_nulls_disagreeing.
  - intros *. apply body_not_only_nulls.
  - intros first_file_size w e w'. rewrite stream_unfold.
    destruct (map_M open_rb input_files w) as [[hs|x] w1] eqn:Hopen;
      apply map_M_open_rb in Hopen as [-> Hr].
    + destruct Hr as [-> _]. apply stream_loop_not_only_nulls. by rewrite length_fmap.
    + destruct Hr as (path & _ & _ & ->). by intros [= <- _] [? ?].
  - intros *. apply body_uniform.
Qed.

End DriverFacts.

(** ** Runs without the operator *)

Section Determinism.

Variable int_of_str : string -> option Z.
Variables (input_files : list string) (output_file : string)
  (threshold : spec_float) (margin : option spec_float) (verbose : bool)
  (report_file : option string) (chunk_size : Z)
  (force ignore_nulls : bool).
Variable render_report : list discrepancy -> list byte.

Lemma oblivious_write_byte path n : oblivious (write_byte path n).
Proof.
  unfold write_byte. destruct (to_bytes1 n) as [b|]; [|apply oblivious_raise].
  apply oblivious_bind; [apply oblivious_get_fs|]. intros files. apply oblivious_set_fs.
Qed.

Lemma oblivious_path_exists path : oblivious (path_exists path).
Proof.
  apply oblivious_bind; [apply oblivious_get_fs|]. intros files. apply oblivious_ret.
Qed.

Lemma oblivious_getsize path : oblivious (getsize path).
Proof.
  apply oblivious_bind; [apply oblivious_get_fs|]. intros files.
  destruct (files !! path); [apply oblivious_ret|apply oblivious_raise].
Qed.

Lemma oblivious_open_rb path : oblivious (open_rb path).
Proof.
  apply oblivious_bind; [apply oblivious_get_fs|]. intros files.
  destruct (files !! path); [apply oblivious_ret|apply oblivious_raise].
Qed.

Lemma oblivious_remove path : oblivious (remove path).
Proof.
  apply oblivious_bind; [apply oblivious_get_fs|]. intros files.
  destruct (files !! path); [apply oblivious_set_fs|apply oblivious_raise].
Qed.

Lemma oblivious_body file_handles chunks bytes_processed st i :
  oblivious (process_position int_of_str input_files output_file threshold margin
               verbose report_file ignore_nulls false file_handles chunks
               bytes_processed st i).
Proof.
  unfold process_position.
  destruct (column_at chunks i) as [[|first column]|];
    [apply oblivious_raise| |apply oblivious_raise].
  destruct (negb _).
  - apply oblivious_bind; [apply oblivious_get_voted_byte|]. intros v.
    apply oblivious_bind.
    { destruct (verbose && negb false); [apply oblivious_print|apply oblivious_ret]. }
    intros []. apply oblivious_bind; [apply oblivious_write_byte|].
    intros []. apply oblivious_ret.
  - apply oblivious_bind; [apply oblivious_write_byte|]. intros []. apply oblivious_ret.
Qed.

Lemma oblivious_stream_loop fuel first_file_size file_handles bytes_processed st :
  oblivious (stream_loop int_of_str input_files output_file threshold margin verbose
               report_file chunk_size ignore_nulls false fuel first_file_size
               file_handles bytes_processed st).
Proof.
  revert file_handles bytes_processed st.
  induction fuel as [|fuel IH]; intros file_handles bytes_processed st; simpl.
  - destruct (_ <? _); [apply oblivious_raise|apply oblivious_ret].
  - destruct (_ <? _); [|apply oblivious_ret].
    apply oblivious_bind; [apply oblivious_get_fs|]. intros files.
    destruct (negb (existsb _ _)); [apply oblivious_ret|].
    destruct (_.*1) as [|chunk0 chunks]; [apply oblivious_raise|].
    apply oblivious_bind.
    { apply oblivious_for_each. intros. apply oblivious_body. }
    intros st'. apply oblivious_bind; [apply oblivious_print|]. intros []. apply IH.
Qed.

Lemma oblivious_stream first_file_size :
  oblivious (stream int_of_str input_files output_file threshold margin verbose
               report_file chunk_size ignore_nulls false first_file_size).
Proof.
  unfold stream.
  apply oblivious_bind; [apply oblivious_map_M, oblivious_open_rb|]. intros file_handles.
  apply oblivious_bind; [|intros []; apply oblivious_stream_loop].
  apply oblivious_bind; [apply oblivious_get_fs|]. intros files. apply oblivious_set_fs.
Qed.

Lemma oblivious_abort e : oblivious (abort output_file e).
Proof.
  destruct e; try apply oblivious_raise; simpl;
    (apply oblivious_bind; [apply oblivious_print|]; intros []);
    (apply oblivious_bind; [apply oblivious_remove|]; intros []);
    apply oblivious_raise.
Qed.

Lemma oblivious_same_size first_file_size rest :
  oblivious (same_size first_file_size rest).
Proof.
  induction rest as [|f rest IH]; simpl; [apply oblivious_ret|].
  apply oblivious_bind; [apply oblivious_getsize|]. intros size.
  destruct (negb _); [|apply IH].
  apply oblivious_bind; [apply oblivious_print|]. intros []. apply oblivious_ret.
Qed.

Lemma oblivious_check_sizes : oblivious (check_sizes input_files).
Proof.
  unfold check_sizes. apply oblivious_except_FileNotFoundError.
  - destruct input_files as [|f0 rest]; [apply oblivious_raise|].
    apply oblivious_bind; [apply oblivious_getsize|]. intros size.
    apply oblivious_bind; [apply oblivious_same_size|]. intros same. apply oblivious_ret.
  - intros path. apply oblivious_bind; [apply oblivious_print|].
    intros []. apply oblivious_ret.
Qed.

Lemma oblivious_announce first_file_size :
  oblivious (announce input_files output_file threshold margin report_file force
               first_file_size).
Proof.
  unfold announce.
  repeat (apply oblivious_bind; [apply oblivious_print|]; intros []).
  apply oblivious_bind.
  { destruct margin; [apply oblivious_print|apply oblivious_ret]. }
  intros []. apply oblivious_bind.
  { destruct report_file; [|apply oblivious_ret].
    destruct (report_wanted _); [apply oblivious_print|apply oblivious_ret]. }
  intros []. apply oblivious_bind; [apply oblivious_path_exists|]. intros present.
  apply oblivious_bind; [|intros []; apply oblivious_print].
  destruct (force && present); apply oblivious_print.
Qed.

Lemma oblivious_finish st : oblivious (finish output_file report_file render_report st).
Proof.
  unfold finish. apply oblivious_bind.
  { destruct report_file as [path|]; [|apply oblivious_ret].
    destruct (_ && _); [|apply oblivious_ret].
    apply oblivious_bind; [|intros []; apply oblivious_print].
    apply oblivious_bind; [apply oblivious_get_fs|]. intros files. apply oblivious_set_fs. }
  intros []. repeat (apply oblivious_bind; [apply oblivious_print|]; intros []).
  apply oblivious_print.
Qed.

Local Abbreviation run_unattended :=
  (create_corrected_firmware int_of_str input_files output_file threshold margin
     verbose report_file chunk_size force ignore_nulls false render_report).

Lemma oblivious_create : oblivious run_unattended.
Proof.
  unfold create_corrected_firmware.
  destruct input_files as [|f0 rest] eqn:Hin; [apply oblivious_print|]. rewrite <- Hin.
  apply oblivious_bind; [apply oblivious_path_exists|]. intros present.
  destruct (present && negb force).
  { apply oblivious_bind; [apply oblivious_print|]. intros []. apply oblivious_raise. }
  apply oblivious_bind; [apply oblivious_check_sizes|]. intros [first_file_size|];
    [|apply oblivious_ret].
  apply oblivious_bind; [apply oblivious_announce|]. intros [].
  apply oblivious_bind; [|apply oblivious_finish].
  apply oblivious_try_except; [apply oblivious_stream|apply oblivious_abort].
Qed.


End Determinism.

(** * More about the voter *)

(** ** The ranking *)

Lemma counter_incr_total b c : counter_total (counter_incr b c) = counter_total c + 1.
Proof.
  induction c as [|[k n] c IH]; simpl; [done|].
  destruct (k =? b); simpl; [lia|]. rewrite IH. lia.
Qed.

Lemma counter_of_snoc l b : counter_of (l ++ [b]) = counter_incr b (counter_of l).
Proof. unfold counter_of. by rewrite fold_left_app. Qed.

Lemma counter_of_total l : counter_total (counter_of l) = Z.of_nat (length l).
Proof.
  induction l as [|b l IH] using rev_ind; [done|].
  rewrite counter_of_snoc, counter_incr_total, IH, length_app. simpl. lia.
Qed.

Lemma counter_total_perm c c' : c ≡ₚ c' → counter_total c = counter_total c'.
Proof. induction 1; simpl; lia. Qed.

Lemma counter_of_key b l : b ∈ (counter_of l).*1 ↔ b ∈ l.
Proof.
  rewrite list_elem_of_fmap. split.
  - intros ([b' n] & -> & Hin). by apply counter_of_elem in Hin as [? _].
  - intros Hb. exists (b, occurrences b l). split; [done|]. by apply counter_of_elem.
Qed.

(** The keys of a counter are the bytes of the column in the order of
    their first appearance. *)
Lemma counter_of_keys l : (counter_of l).*1 = reverse (remove_dups (reverse l)).
Proof.
  induction l as [|b l IH] using rev_ind; [done|].
  rewrite counter_of_snoc, counter_incr_keys, reverse_snoc. simpl.
  case_bool_decide as Hkey.
  - apply (proj1 (counter_of_key _ _)) in Hkey.
    destruct (decide_rel _ _ _) as [_|Hn]; [done|].
    exfalso. apply Hn. by rewrite elem_of_reverse.
  - destruct (decide_rel _ _ _) as [Hy|_].
    + exfalso. apply Hkey, (proj2 (counter_of_key _ _)). by rewrite elem_of_reverse in Hy.
    + by rewrite reverse_cons, IH.
Qed.

(** The sort is stable: candidates with the same count stay in the order
    of the counter. *)
Lemma rank_insert_stable n x l :
  filter (fun y => y.2 = n) (rank_insert x l) = filter (fun y => y.2 = n) (x :: l).
Proof.
  induction l as [|y l IH]; simpl; [done|].
  destruct (Z.ltb_spec x.2 y.2) as [Hlt|_]; [|done].
  rewrite (filter_cons _ y), IH, !(filter_cons _ x), (filter_cons _ y).
  repeat case_decide; try done; lia.
Qed.

Lemma most_common_stable n c :
  filter (fun y => y.2 = n) (most_common c) = filter (fun y => y.2 = n) c.
Proof.
  induction c as [|x c IH]; simpl; [done|].
  by rewrite rank_insert_stable, !filter_cons, IH.
Qed.

(** X1: the ranking of a column. The counter lists the bytes of the
    column in the order of their first appearance; the ranking is a
    rearrangement of it in which every byte of the column occurs once,
    with the number of its occurrences; the counts never increase along
    the ranking, candidates with equal counts stay in the order of their
    first appearance, and the counts add up to the length of the
    column. *)
Theorem ranking_of_a_column byte_list :
  let counts := counter_of byte_list in
  let ranking := most_common counts in
  counts.*1 = reverse (remove_dups (reverse byte_list))
  ∧ ranking ≡ₚ counts
  ∧ NoDup (ranking.*1)
  ∧ (∀ b n, (b, n) ∈ ranking ↔ b ∈ byte_list ∧ n = occurrences b byte_list)
  ∧ descending ranking
  ∧ (∀ n, filter (fun y => y.2 = n) ranking = filter (fun y => y.2 = n) counts)
  ∧ counter_total ranking = Z.of_nat (length byte_list).
Proof.
  intros counts ranking. split_and!.
  - apply counter_of_keys.
  - apply most_common_perm.
  - unfold ranking. rewrite most_common_perm. apply counter_of_NoDup.
  - intros b n. apply most_common_elem.
  - apply most_common_descending.
  - intros n. apply most_common_stable.
  - unfold ranking. rewrite (counter_total_perm _ _ (most_common_perm counts)).
    apply counter_of_total.
Qed.

(** ** What a vote can end with *)

Lemma most_common_cons l :
  l ≠ [] → ∃ winner winner_count rest,
    most_common (counter_of l) = (winner, winner_count) :: rest.
Proof.
  intros Hne. destruct (most_common (counter_of l)) as [|[winner wc] rest] eqn:Hrank.
  - by apply most_common_nil in Hrank.
  - by eexists _, _, _.
Qed.

(** Without a tie at its head, the ranking has a strict winner. *)
Lemma strict_winner l winner winner_count rest :
  most_common (counter_of l) = (winner, winner_count) :: rest →
  is_tie ((winner, winner_count) :: rest) = false →
  winner ∈ l ∧ winner_count = occurrences winner l
  ∧ ∀ b, b ≠ winner → occurrences b l < winner_count.
Proof.
  intros Hrank Htie.
  assert ((winner, winner_count) ∈ most_common (counter_of l)) as Hwin
    by (rewrite Hrank; apply list_elem_of_here).
  apply most_common_elem in Hwin as [Hin Hcount]. split_and!; [done..|].
  intros b Hb.
  pose proof (most_common_positive l) as Hpos. unfold positive_counts in Hpos.
  rewrite Hrank in Hpos. apply Forall_cons in Hpos as [Hwc _]. simpl in Hwc.
  destruct (decide (b ∈ l)) as [Hbl|Hbl].
  2:{ assert (¬ 0 < occurrences b l) by (by rewrite occurrences_pos). lia. }
  assert ((b, occurrences b l) ∈ most_common (counter_of l)) as Hbr
    by (by apply most_common_elem).
  rewrite Hrank in Hbr. apply elem_of_cons in Hbr as [[= ? _]|Hbr]; [done|].
  pose proof (most_common_descending (counter_of l)) as Hs.
  unfold descending in Hs. rewrite Hrank in Hs.
  apply StronglySorted_inv in Hs as [Hs Hall].
  destruct rest as [|[b2 c2] rest']; [by apply elem_of_nil in Hbr|].
  simpl in Htie. apply Z.eqb_neq in Htie.
  apply Forall_cons in Hall as [Hc2 _]. simpl in Hc2.
  apply elem_of_cons in Hbr as [[= _ ->]|Hbr]; [lia|].
  apply StronglySorted_inv in Hs as [_ Hall2]. rewrite Forall_forall in Hall2.
  specialize (Hall2 _ Hbr). simpl in Hall2. lia.
Qed.

Lemma tie_or_not byte_list num_files threshold margin offset input_files
    b1 b2 count rest w :
  most_common (counter_of byte_list) = (b1, count) :: (b2, count) :: rest →
  let tied := tied_values (most_common (counter_of byte_list)) count in
  _attempt_vote byte_list num_files threshold margin offset input_files w
  = (Raise (ValueError (TieDetected tied count
                          (get_detailed_breakdown byte_list input_files))), w)
  ∧ (2 ≤ length tied)%nat
  ∧ ∀ b, b ∈ tied → b ∈ byte_list ∧ occurrences b byte_list = count.
Proof.
  intros Hrank tied. split_and!.
  - unfold _attempt_vote. destruct byte_list as [|b l]; [done|].
    cbv zeta. unfold tied. rewrite Hrank. unfold is_tie. by rewrite Z.eqb_refl.
  - unfold tied, tied_values. rewrite Hrank, length_fmap, !filter_cons. simpl.
    rewrite !decide_True by done. simpl. lia.
  - intros b. unfold tied. rewrite tied_values_elem, most_common_elem.
    intros [? ?]. by subst.
Qed.

Lemma attempt_vote_zero_files
    byte_list threshold margin offset input_files winner winner_count rest w :
  most_common (counter_of byte_list) = (winner, winner_count) :: rest →
  is_tie ((winner, winner_count) :: rest) = false →
  _attempt_vote byte_list 0 threshold margin offset input_files w
  = (Raise ZeroDivisionError, w).
Proof.
  intros Hrank Htie. unfold _attempt_vote.
  destruct byte_list as [|b l]; [done|].
  cbv zeta. rewrite Hrank, Htie. by unfold mbind, M_bind, bind, lift_div.
Qed.

(** The kinds of outcome of a vote, for the proofs below. *)
Lemma attempt_vote_kinds byte_list num_files threshold margin offset input_files w :
  match (_attempt_vote byte_list num_files threshold margin offset input_files w).1 with
  | Ok (winner, counts) =>
      counts = counter_of byte_list ∧ winner ∈ byte_list ∧ num_files ≠ 0
  | Raise (ValueError (OnlyNulls _)) | Raise (ValueError (ErrorAtOffset _ _)) => False
  | Raise (ValueError _) => True
  | Raise ZeroDivisionError => num_files = 0
  | Raise _ => False
  end.
Proof.
  destruct (decide (byte_list = [])) as [->|Hne]; [done|].
  destruct (most_common_cons _ Hne) as (winner & wc & rest & Hrank).
  destruct (is_tie ((winner, wc) :: rest)) eqn:Htie.
  { destruct rest as [|[b2 c2] rest']; [done|]. simpl in Htie.
    apply Z.eqb_eq in Htie as <-.
    by destruct (tie_or_not byte_list num_files threshold margin offset input_files
                   winner b2 wc rest' w Hrank) as (-> & _). }
  destruct (strict_winner _ _ _ _ Hrank Htie) as (Hin & _ & _).
  destruct (decide (num_files = 0)) as [->|Hn].
  { by rewrite (attempt_vote_zero_files _ _ _ _ _ _ _ _ _ Hrank Htie). }
  rewrite (attempt_vote_ranked _ _ _ _ _ _ _ _ _ _ Hrank Htie Hn).
  destruct (Float.ge _ threshold); [done|].
  destruct margin as [m|]; [|done].
  destruct rest as [|[b2 c2] rest']; [done|].
  cbv zeta. by destruct (Float.ge _ m).
Qed.

(** X2: how a vote ends. It returns a byte only if that byte occurs in
    the column strictly more often than every other byte, and then with
    the counter of the column; it raises a [ValueError] for an empty
    column, a tie or a missed threshold, a [ZeroDivisionError] when
    [num_files] is 0 (and there is no tie), and nothing else; the world
    is as it was but for the notice of the margin. *)
Theorem vote_outcomes byte_list num_files threshold margin offset input_files w :
  let outcome := _attempt_vote byte_list num_files threshold margin offset input_files w in
  match outcome.1 with
  | Ok (winner, counts) =>
      counts = counter_of byte_list
      ∧ winner ∈ byte_list
      ∧ (∀ b, b ≠ winner → occurrences b byte_list < occurrences winner byte_list)
      ∧ num_files ≠ 0
      ∧ (outcome.2 = w ∨ ∃ calculated_margin,
           margin ≠ None ∧ outcome.2 = noticed offset calculated_margin w)
  | Raise (ValueError EmptyColumn) => byte_list = [] ∧ outcome.2 = w
  | Raise (ValueError (TieDetected tied count _)) =>
      (2 ≤ length tied)%nat
      ∧ (∀ b, b ∈ tied → b ∈ byte_list ∧ occurrences b byte_list = count)
      ∧ outcome.2 = w
  | Raise (ValueError (ThresholdNotMet winner winner_count n agreement t _ _ _)) =>
      winner ∈ byte_list
      ∧ winner_count = occurrences winner byte_list
      ∧ n = num_files ∧ num_files ≠ 0 ∧ t = threshold
      ∧ Float.truediv winner_count num_files = Some agreement
      ∧ Float.ge agreement threshold = false
      ∧ outcome.2 = w
  | Raise ZeroDivisionError => num_files = 0 ∧ byte_list ≠ [] ∧ outcome.2 = w
  | Raise _ => False
  end.
Proof.
  intros outcome. unfold outcome. clear outcome.
  destruct (decide (byte_list = [])) as [->|Hne]; [done|].
  destruct (most_common_cons _ Hne) as (winner & wc & rest & Hrank).
  destruct (is_tie ((winner, wc) :: rest)) eqn:Htie.
  { destruct rest as [|[b2 c2] rest']; [done|]. simpl in Htie.
    apply Z.eqb_eq in Htie as <-.
    destruct (tie_or_not byte_list num_files threshold margin offset input_files
                winner b2 wc rest' w Hrank) as (-> & Hlen & Htied).
    simpl. done. }
  destruct (strict_winner _ _ _ _ Hrank Htie) as (Hin & Hcount & Hstrict).
  destruct (decide (num_files = 0)) as [->|Hn].
  { by rewrite (attempt_vote_zero_files _ _ _ _ _ _ _ _ _ Hrank Htie). }
  rewrite (attempt_vote_ranked _ _ _ _ _ _ _ _ _ _ Hrank Htie Hn).
  assert (∀ b, b ≠ winner →
               occurrences b byte_list < occurrences winner byte_list) as Hstrict'.
  { intros b Hb. rewrite <- Hcount. by apply Hstrict. }
  destruct (Float.ge _ threshold) eqn:Hge.
  { simpl. split_and!; [done..|by left]. }
  assert (winner ∈ byte_list ∧ wc = occurrences winner byte_list
          ∧ num_files = num_files ∧ num_files ≠ 0 ∧ threshold = threshold
          ∧ Float.truediv wc num_files
            = Some (SFdiv Float.prec Float.emax (Float.of_int wc) (Float.of_int num_files))
          ∧ Float.ge (SFdiv Float.prec Float.emax (Float.of_int wc)
                        (Float.of_int num_files)) threshold = false
          ∧ w = w) as Hfail.
  { split_and!; try done. by apply truediv_nonzero. }
  destruct margin as [m|]; [|exact Hfail].
  destruct rest as [|[b2 c2] rest']; [exact Hfail|].
  cbv zeta. destruct (Float.ge _ m).
  - simpl. split_and!; [done..|right; by eexists].
  - exact Hfail.
Qed.

(** ** Columns without a majority *)

Lemma counter_incr_fresh b c : b ∉ c.*1 → counter_incr b c = c ++ [(b, 1)].
Proof.
  induction c as [|[k n] c IH]; csimpl; [done|].
  intros [Hne Hc]%not_elem_of_cons.
  destruct (Z.eqb_spec k b); [congruence|]. by rewrite IH.
Qed.

Lemma counter_of_NoDup_column l : NoDup l → counter_of l = (fun b => (b, 1)) <$> l.
Proof.
  induction l as [|b l IH] using rev_ind; [done|].
  intros [Hl [Hb _]]%NoDup_app. rewrite counter_of_snoc, IH by done.
  rewrite counter_incr_fresh, fmap_app; [done|].
  rewrite <- list_fmap_compose. simpl. rewrite list_fmap_id.
  intros Hin. by apply (Hb b); [|left].
Qed.

Lemma most_common_all_ones (l : list Z) :
  most_common ((fun b => (b, 1)) <$> l) = (fun b => (b, 1)) <$> l.
Proof.
  induction l as [|b l IH]; csimpl; [done|]. rewrite IH.
  by destruct l.
Qed.

Lemma tied_values_all_ones (l : list Z) : tied_values ((fun b => (b, 1)) <$> l) 1 = l.
Proof.
  unfold tied_values. induction l as [|x l IH]; [done|].
  rewrite fmap_cons, filter_cons, decide_True by done.
  rewrite fmap_cons. simpl. by rewrite IH.
Qed.


(** ** What [get_voted_byte] can end with *)

Section MoreVoter.

Variable int_of_str : string -> option Z.

Lemma prompt_once_chosen sorted_candidates counts offset w byte counts' w' :
  prompt_once int_of_str sorted_candidates counts offset w
  = (Ok (Some (byte, counts')), w') →
  counts' = counts ∧ ∃ count, (byte, count) ∈ sorted_candidates.
Proof.
  unfold prompt_once, mbind, M_bind, bind, input.
  destruct (stdin w) as [|[text|] keys]; [done| |done].
  destruct (int_of_str text) as [k|]; [|done].
  destruct (_ && _); [|done].
  destruct (_ !! _) as [[b c]|] eqn:Hnth; [|done].
  intros [= <- <- _]. split; [done|]. exists c.
  apply list_elem_of_lookup. eauto.
Qed.

Lemma prompt_loop_chosen sorted_candidates counts offset keys w byte counts' w' :
  prompt_loop int_of_str sorted_candidates counts offset keys w
  = (Ok (byte, counts'), w') →
  counts' = counts ∧ ∃ count, (byte, count) ∈ sorted_candidates.
Proof.
  revert w. induction keys as [|key keys IH]; intros w; simpl;
    unfold mbind, M_bind, bind;
    destruct (prompt_once _ _ _ _ _) as [[[[b c]|]|x] w1] eqn:Honce; try done.
  - intros [= <- <- _]. by eapply prompt_once_chosen.
  - intros [= <- <- _]. by eapply prompt_once_chosen.
  - apply IH.
Qed.

(** What the operator selects is a byte of the column. *)
Lemma escalate_chosen byte_list offset interactive e w byte counts w' :
  escalate int_of_str byte_list offset interactive e w = (Ok (byte, counts), w') →
  interactive = true ∧ counts = counter_of byte_list ∧ byte ∈ byte_list.
Proof.
  destruct interactive; [|done]. rewrite escalate_interactive.
  intros (-> & count & Hin)%prompt_loop_chosen.
  by apply most_common_elem in Hin as [? _].
Qed.

Lemma filter_nulls_elem byte_list input_files b :
  b ∈ (filter_nulls byte_list input_files).*1 → b ∈ byte_list ∧ b ≠ 0.
Proof.
  intros ([b' f] & -> & [Hb Hin]%list_elem_of_filter)%list_elem_of_fmap.
  split; [|done]. by apply elem_of_zip_l in Hin.
Qed.

(** The kinds of outcome of [get_voted_byte]. *)
Lemma get_voted_byte_kinds
    byte_list num_files threshold margin offset ignore_nulls interactive input_files w :
  let outcome :=
    get_voted_byte int_of_str byte_list num_files threshold margin offset ignore_nulls
      interactive input_files w in
  match outcome.1 with
  | Ok (byte, counts) =>
      byte ∈ byte_list
      ∧ (counts = counter_of byte_list
         ∨ (ignore_nulls = true ∧ 0 ∈ byte_list ∧ byte ≠ 0
            ∧ counts = counter_of (filter_nulls byte_list input_files).*1))
  | Raise (ValueError (ErrorAtOffset o _)) => o = offset ∧ interactive = false
  | Raise (ValueError (OnlyNulls o)) =>
      o = offset ∧ ignore_nulls = true ∧ 0 ∈ byte_list
      ∧ filter_nulls byte_list input_files = []
  | Raise (ValueError _) => False
  | Raise ZeroDivisionError => num_files = 0
  | Raise EOFError | Raise KeyboardInterrupt => interactive = true
  | Raise _ => False
  end.
Proof.
  intros outcome. unfold outcome. clear outcome. rewrite get_voted_byte_unfold.
  pose proof (attempt_vote_kinds byte_list num_files threshold margin offset input_files
                (entered offset w)) as Hfirst.
  destruct (_attempt_vote _ _ _ _ _ _ _) as [[[winner counts]|x] w1].
  { simpl in *. destruct Hfirst as (-> & ? & _). auto. }
  simpl in Hfirst. destruct x as [e| | | | | | | |]; try done.
  assert (∀ e1 w2,
            match (escalate int_of_str byte_list offset interactive e1 w2).1 with
            | Ok (byte, counts) => byte ∈ byte_list ∧ counts = counter_of byte_list
            | Raise (ValueError (ErrorAtOffset o _)) => o = offset ∧ interactive = false
            | Raise EOFError | Raise KeyboardInterrupt => interactive = true
            | Raise _ => False
            end) as Hescalate.
  { intros e1 w2.
    destruct (escalate _ _ _ _ _ _) as [[[byte counts]|x] w3] eqn:Hesc; simpl.
    - apply escalate_chosen in Hesc. tauto.
    - apply escalate_raises in Hesc as [(-> & -> & _)|(-> & [->| ->])]; done. }
  unfold after_conflict, mbind, M_bind, bind, retry_without_nulls.
  destruct ignore_nulls; simpl.
  2:{ specialize (Hescalate e w1).
      destruct (escalate _ _ _ _ _ _) as [[[byte counts]|x] w3]; simpl in *;
        [tauto|]. destruct x as [[]| | | | | | | |]; done. }
  case_bool_decide as Hnull; simpl.
  2:{ specialize (Hescalate e w1).
      destruct (escalate _ _ _ _ _ _) as [[[byte counts]|x] w3]; simpl in *;
        [tauto|]. destruct x as [[]| | | | | | | |]; done. }
  unfold mbind, M_bind, bind, print.
  destruct (filter_nulls byte_list input_files) as [|d ds] eqn:Hdata; [done|].
  rewrite <- Hdata. unfold except_ValueError, mbind, M_bind, bind, mret, M_ret, ret.
  pose proof (attempt_vote_kinds (filter_nulls byte_list input_files).*1 num_files
                threshold margin offset (filter_nulls byte_list input_files).*2
                (say (NoticeIgnoringNulls offset) w1)) as Hretry.
  destruct (_attempt_vote _ _ _ _ _ _ (say _ _)) as [[[winner counts]|x] w2].
  { simpl in *. destruct Hretry as (-> & Hin & _).
    apply filter_nulls_elem in Hin as [? ?]. split; [done|]. right. by rewrite Hdata. }
  simpl in Hretry. destruct x as [e2| | | | | | | |]; try done.
  specialize (Hescalate e2 w2).
  destruct (escalate _ _ _ _ _ _) as [[[byte counts]|x] w3]; simpl in *;
    [tauto|]. destruct x as [[]| | | | | | | |]; done.
Qed.

(** With interactive mode off, [get_voted_byte] reads nothing: it only
    adds to the console and to the ghost log. *)
Lemma get_voted_byte_unattended
    byte_list num_files threshold margin offset ignore_nulls input_files w r w' :
  get_voted_byte int_of_str byte_list num_files threshold margin offset ignore_nulls
    false input_files w = (r, w') →
  ∃ events, w' = say_all events (entered offset w).
Proof.
  rewrite get_voted_byte_unfold.
  destruct (_attempt_vote _ _ _ _ _ _ _) as [r1 w1] eqn:Hfirst.
  apply attempt_vote_says in Hfirst as [ev1 ->].
  assert (∀ x : result (Z * Counter),
            (x, say_all ev1 (entered offset w)) = (r, w') →
            ∃ events, w' = say_all events (entered offset w)) as Hsame.
  { intros x [= _ <-]. by eexists. }
  destruct r1 as [v|x]; [apply Hsame|].
  destruct x; try apply Hsame.
  unfold after_conflict, mbind, M_bind, bind.
  destruct (retry_without_nulls _ _ _ _ _ _ _ _ _) as [r2 w2] eqn:Hretry.
  apply retry_without_nulls_says in Hretry as [ev2 ->]. rewrite say_all_app.
  destruct r2 as [[v|e2]|x]; try (intros [= _ <-]; by eexists).
Qed.

(** X3: how [get_voted_byte] ends. A byte it returns is a byte of the
    column, from the first vote or the operator with the counter of the
    column, or from the retry, and then it is not 0x00 and comes with
    the counter of the filtered column. A [ValueError] it raises names
    the offset: the wrapped error of the last vote, with interactive mode
    off, or the error of line 92. Apart from that it can raise a
    [ZeroDivisionError], when [num_files] is 0, and with interactive mode
    on what the prompt raises at Ctrl-C and at the end of the input.
    However it ends, the files are as they were and the call is logged
    once for the offset; with interactive mode off it does nothing but
    print. *)
Theorem voted_byte_outcomes
    byte_list num_files threshold margin offset ignore_nulls interactive input_files w :
  let outcome :=
    get_voted_byte int_of_str byte_list num_files threshold margin offset ignore_nulls
      interactive input_files w in
  (match outcome.1 with
  | Ok (byte, counts) =>
      byte ∈ byte_list
      ∧ (counts = counter_of byte_list
         ∨ (ignore_nulls = true ∧ 0 ∈ byte_list ∧ byte ≠ 0
            ∧ counts = counter_of (filter_nulls byte_list input_files).*1))
  | Raise (ValueError (ErrorAtOffset o _)) => o = offset ∧ interactive = false
  | Raise (ValueError (OnlyNulls o)) =>
      o = offset ∧ ignore_nulls = true ∧ 0 ∈ byte_list
      ∧ filter_nulls byte_list input_files = []
  | Raise (ValueError _) => False
  | Raise ZeroDivisionError => num_files = 0
  | Raise EOFError | Raise KeyboardInterrupt => interactive = true
  | Raise _ => False
  end)
  ∧ fs (outcome.2) = fs w
  ∧ voted (outcome.2) = voted w ++ [offset]
  ∧ (interactive = false → ∃ events, outcome.2 = say_all events (entered offset w)).
Proof.
  intros outcome. split_and!.
  - apply get_voted_byte_kinds.
  - unfold outcome.
    destruct (get_voted_byte _ _ _ _ _ _ _ _ _ _) as [r w'] eqn:Hvote.
    by apply get_voted_byte_effect in Hvote as (? & _).
  - unfold outcome.
    destruct (get_voted_byte _ _ _ _ _ _ _ _ _ _) as [r w'] eqn:Hvote.
    by apply get_voted_byte_effect in Hvote as (_ & _ & ?).
  - intros ->. unfold outcome.
    destruct (get_voted_byte _ _ _ _ _ _ _ _ _ _) as [r w'] eqn:Hvote.
    by apply get_voted_byte_unattended in Hvote.
Qed.

End MoreVoter.

(** ** Lower thresholds *)

(** [<=] on floats is transitive, a NaN being below and above nothing. *)
Lemma SFleb_trans x y z : SFleb x y = true → SFleb y z = true → SFleb x z = true.
Proof.
  unfold SFleb, SFcompare.
  destruct x as [sx|sx| |sx mx ex], y as [sy|sy| |sy my ey], z as [sz|sz| |sz mz ez];
    try destruct sx; try destruct sy; try destruct sz; try discriminate;
    try reflexivity.
  all: change (Pos.compare_cont Eq ?a ?b) with (Pos.compare a b).
  all: destruct (Z.compare_spec ex ey), (Z.compare_spec ey ez), (Z.compare_spec ex ez);
    try lia; try discriminate; try reflexivity; subst.
  all: destruct (Pos.compare_spec mx my), (Pos.compare_spec my mz),
         (Pos.compare_spec mx mz);
    simpl; try lia; try discriminate; try reflexivity.
Qed.

Lemma float_ge_trans a b c :
  Float.ge a b = true → Float.ge b c = true → Float.ge a c = true.
Proof. unfold Float.ge. intros Hab Hbc. by apply (SFleb_trans c b a). Qed.

(** A margin that passes still passes when less is asked for. *)
Lemma margin_check_relaxed margin margin' ranking winner_count offset w w1 :
  margin_relaxed margin margin' →
  margin_check margin ranking winner_count offset w = (Ok true, w1) →
  ∃ w2, margin_check margin' ranking winner_count offset w = (Ok true, w2).
Proof.
  unfold margin_relaxed, margin_check, mbind, M_bind, bind, lift_div, ret, raise,
    get_argv, print.
  destruct margin as [m|]; [|done]. destruct margin' as [m'|]; [|done].
  intros Hle. destruct ranking as [|first [|[runner runner_up_count] rest]]; [done..|].
  destruct (0 <? runner_up_count); [|done].
  destruct (Float.truediv _ _) as [calculated|]; [|done].
  destruct (Float.ge calculated m) eqn:Hpass; [|done].
  rewrite (float_ge_trans _ _ _ Hpass Hle). intros _.
  destruct (is_verbose _); by eexists.
Qed.

(** X10: lowering the threshold, lowering the margin or adding one
    never turns a vote that passes into one that fails, and never
    changes its outcome: when [_attempt_vote] returns a byte and counts
    for a threshold and a margin, it returns the same byte and the same
    counts for every threshold that is no higher and every margin that
    asks for no more. Only what it prints may differ. *)
Theorem relaxing_keeps_the_vote
    byte_list num_files threshold threshold' margin margin' offset input_files
    w voted_byte w1 :
  Float.ge threshold threshold' = true →
  margin_relaxed margin margin' →
  _attempt_vote byte_list num_files threshold margin offset input_files w
  = (Ok voted_byte, w1) →
  ∃ w2,
    _attempt_vote byte_list num_files threshold' margin' offset input_files w
    = (Ok voted_byte, w2).
Proof.
  intros Hthreshold Hmargin. unfold _attempt_vote.
  destruct byte_list as [|b byte_list]; [done|].
  destruct (is_tie _); [done|].
  destruct (most_common _) as [|[most_common_byte winner_count] rest] eqn:Hranking;
    [done|].
  unfold mbind, M_bind, bind, lift_div.
  destruct (Float.truediv winner_count num_files) as [agreement|]; [|done].
  unfold ret at 1 4.
  destruct (Float.ge agreement threshold) eqn:Hpass.
  { rewrite (float_ge_trans _ _ _ Hpass Hthreshold). intros [= <- <-]. by eexists. }
  destruct (margin_check margin _ _ _ _) as [[[|]|x] w0] eqn:Hcheck.
  - intros [= <- <-].
    destruct (Float.ge agreement threshold'); [by eexists|].
    destruct (margin_check_relaxed _ _ _ _ _ _ _ Hmargin Hcheck) as [w2 ->].
    by eexists.
  - by destruct (margin_report _ _ _ _) as [[?|?] ?].
  - done.
Qed.


(** * More about the driver *)

Section MoreDriver.

Variable int_of_str : string -> option Z.
Variables (input_files : list string) (output_file : string)
  (threshold : spec_float) (margin : option spec_float) (verbose : bool)
  (report_file : option string) (chunk_size : Z)
  (force ignore_nulls interactive : bool).
Variable render_report : list discrepancy -> list byte.

Local Abbreviation offset_body :=
  (process_position int_of_str input_files output_file threshold margin verbose
     report_file ignore_nulls interactive).

Local Abbreviation streaming :=
  (stream int_of_str input_files output_file threshold margin verbose report_file
     chunk_size ignore_nulls interactive).

Local Abbreviation streaming_loop :=
  (stream_loop int_of_str input_files output_file threshold margin verbose report_file
     chunk_size ignore_nulls interactive).

Local Abbreviation whole_run :=
  (create_corrected_firmware int_of_str input_files output_file threshold margin
     verbose report_file chunk_size force ignore_nulls interactive render_report).

Local Abbreviation chunks_at files position :=
  ((read files chunk_size <$> handles_at input_files position).*1).

(** ** No traceback but at the end of the input *)

(** The column of an index within the chunks: one byte per input file. *)
Lemma column_at_chunks files size position i :
  Forall (sized files (Z.of_nat size)) input_files →
  (position ≤ size)%nat →
  (i < chunk_length chunk_size size position)%nat →
  ∃ column,
    column_at (chunks_at files position) i = Some column
    ∧ length column = length input_files
    ∧ Forall (fun z => ∃ b, z = int_of_byte b) column.
Proof.
  intros Hsized Hpos Hi. unfold handles_at.
  induction Hsized as [|path paths Hpath _ (column & Hcol & Hlen & Hbytes)].
  - exists []. by split_and!.
  - rewrite !fmap_cons. cbn [column_at].
    rewrite (read_lookup _ _ _ _ _ _ Hpath Hpos Hi).
    destruct Hpath as (data & Hdata & Hsize). apply Nat2Z.inj in Hsize.
    unfold byte_at. rewrite Hdata. cbn [mbind option_bind].
    destruct (lookup_lt_is_Some_2 data (position + i)) as [b Hb].
    { unfold chunk_length in Hi. destruct (chunk_size <? 0); lia. }
    rewrite Hb, Hcol. exists (int_of_byte b :: column).
    split_and!; [done|simpl; by rewrite Hlen|]. constructor; [by exists b|done].
Qed.

Lemma write_byte_of_column path column z w :
  Forall (fun z => ∃ b, z = int_of_byte b) column →
  z ∈ column →
  ∃ b, z = int_of_byte b
       ∧ write_byte path z w
         = (Ok tt, with_fs (<[path := default [] (fs w !! path) ++ [b]]> (fs w)) w).
Proof.
  rewrite Forall_forall. intros Hall Hin. destruct (Hall z Hin) as [b ->].
  exists b. split; [done|]. unfold write_byte. by rewrite to_bytes1_int_of_byte.
Qed.

(** Within the chunks, an offset fails only the expected way. *)
Lemma offset_body_raises files size position i file_handles st w e w' :
  input_files ≠ [] →
  Forall (sized files (Z.of_nat size)) input_files →
  (position ≤ size)%nat →
  (i < chunk_length chunk_size size position)%nat →
  length file_handles = length input_files →
  offset_body file_handles (chunks_at files position) (Z.of_nat position) st i w
  = (Raise e, w') →
  expected_raise interactive size e.
Proof.
  intros Hne Hsized Hpos Hi Hhandles.
  destruct (column_at_chunks _ _ _ _ Hsized Hpos Hi) as (column & Hcol & Hlen & Hbytes).
  unfold process_position. rewrite Hcol.
  destruct column as [|first column].
  { destruct input_files; [done|]. simpl in Hlen. lia. }
  destruct (forallb _ _) eqn:Hall; simpl.
  - destruct (write_byte_of_column output_file _ first w Hbytes) as (b & _ & Hw);
      [left|]. unfold mbind, M_bind, bind. by rewrite Hw.
  - unfold mbind at 1. unfold M_bind, bind.
    pose proof (get_voted_byte_kinds int_of_str (first :: column)
                  (Z.of_nat (length file_handles)) threshold margin
                  (Z.of_nat position + Z.of_nat i) ignore_nulls interactive
                  input_files w) as Hkinds.
    destruct (get_voted_byte _ _ _ _ _ _ _ _ _ _) as [[[byte counts]|x] w1].
    + simpl in Hkinds. destruct Hkinds as [Hin _].
      unfold mbind, M_bind, bind.
      destruct (verbose && negb interactive); unfold print, ret;
        destruct (write_byte_of_column output_file _ byte
                    w1 Hbytes Hin) as (b & _ & Hw);
        try destruct (write_byte_of_column output_file _ byte
                        (say (DiscrepancyAt (Z.of_nat position + Z.of_nat i) byte counts) w1)
                        Hbytes Hin) as (b' & _ & Hw');
        simpl; by rewrite ?Hw, ?Hw'.
    + simpl in Hkinds. intros [= <- _].
      destruct x as [[| | |o|o cause]| | | | | | | |]; try done.
      * destruct Hkinds as (_ & _ & _ & Hnil). exfalso. revert Hnil.
        apply filter_nulls_disagreeing; [done|]. simpl in *. lia.
      * destruct Hkinds as [-> ->]. right. split; [done|].
        exists (position + i)%nat, cause. split; [|by rewrite Nat2Z.inj_add].
        unfold chunk_length in Hi. destruct (chunk_size <? 0); lia.
      * exfalso. rewrite Hhandles in Hkinds. destruct input_files; [done|].
        simpl in Hkinds. lia.
      * left. auto.
      * left. auto.
Qed.

(** So does the loop, which never runs out of fuel either. *)
Lemma streaming_loop_raises fuel size position st w e w' :
  output_file ∉ input_files →
  input_files ≠ [] →
  (size - position < fuel)%nat →
  (position ≤ size)%nat →
  Forall (sized (fs w) (Z.of_nat size)) input_files →
  streaming_loop fuel (Z.of_nat size) (handles_at input_files position)
    (Z.of_nat position) st w = (Raise e, w') →
  expected_raise interactive size e.
Proof.
  intros Hout Hne. revert position st w.
  induction fuel as [|fuel IH]; intros position st w Hfuel Hpos Hsized; [lia|].
  simpl. destruct (_ <? _); [|done].
  unfold mbind at 1. unfold M_bind, bind, get_fs.
  destruct (read_handles_at input_files chunk_size (fs w) size position Hsized Hpos)
    as [Hhandles Hchunks].
  set (n := chunk_length chunk_size size position) in *.
  rewrite Hhandles.
  destruct (existsb _ _) eqn:Hany; [|done]. simpl.
  apply (existsb_nonempty _ _ Hchunks) in Hany.
  destruct (_.*1) as [|chunk0 chunks] eqn:Hreads.
  { exfalso. unfold handles_at in Hreads. destruct input_files; [done|].
    by rewrite !fmap_cons in Hreads. }
  apply Forall_cons in Hchunks as [Hn _]. rewrite Hn.
  unfold mbind at 1. unfold M_bind, bind.
  assert (n ≤ size - position)%nat as Hle.
  { unfold n, chunk_length. destruct (chunk_size <? 0); lia. }
  destruct (for_each _ _ _ _) as [[st1|x] w1] eqn:Hfor.
  - unfold mbind, M_bind, bind, print.
    rewrite <- Nat2Z.inj_add. apply IH; [lia..|].
    change (Forall (sized (fs w1) (Z.of_nat size)) input_files).
    apply (sized_only_writes input_files output_file _ w); [done| |done].
    eapply (respects_for_each (only_writes output_file)); [|exact Hfor].
    intros. apply body_only_writes.
  - intros [= <- _]. apply for_each_raises in Hfor as (st0 & i & w0 & Hi & Hbody).
    apply list_elem_of_lookup in Hi as [j [-> Hj]%lookup_seq]. simpl in Hbody.
    rewrite <- Hreads in Hbody.
    eapply (offset_body_raises (fs w) size position j); [done..| |exact Hbody].
    unfold handles_at. by rewrite length_fmap.
Qed.

Lemma streaming_raises size w e w' :
  output_file ∉ input_files →
  input_files ≠ [] →
  Forall (sized (fs w) (Z.of_nat size)) input_files →
  streaming (Z.of_nat size) w = (Raise e, w') →
  expected_raise interactive size e.
Proof.
  intros Hout Hne Hsized.
  rewrite stream_unfold, (open_all_sized _ _ _ Hsized), Nat2Z.id.
  change 0 with (Z.of_nat 0). apply streaming_loop_raises; [done|done|lia|lia|].
  apply (sized_only_writes input_files output_file _ w); [done| |done].
  split; simpl.
  - intros other Hother. by rewrite lookup_insert_ne.
  - intros _. rewrite lookup_insert_eq. by eexists.
Qed.

(** Whatever the streaming ends with, the output file is there
    afterwards, and no other file has changed. *)
Lemma streaming_output_exists size w r w1 :
  Forall (sized (fs w) size) input_files →
  streaming size w = (r, w1) →
  is_Some (fs w1 !! output_file)
  ∧ ∀ other, other ≠ output_file → fs w1 !! other = fs w !! other.
Proof.
  intros Hsized. rewrite stream_unfold, (open_all_sized _ _ _ Hsized).
  intros [Hother Hout]%stream_loop_only_writes. simpl in *. split.
  - apply Hout. rewrite lookup_insert_eq. by eexists.
  - intros other Hne. by rewrite Hother, lookup_insert_ne.
Qed.

Lemma finish_completes st w :
  ∃ w', finish output_file report_file render_report st w = (Ok tt, w').
Proof.
  unfold finish, mbind, M_bind, bind, print, write_file, get_fs, set_fs.
  destruct report_file as [path|]; [|by eexists]. destruct (_ && _); by eexists.
Qed.


(** ** The tally of a completed run *)

Lemma column_at_column_of files size position i :
  Forall (sized files (Z.of_nat size)) input_files →
  (position ≤ size)%nat →
  (i < chunk_length chunk_size size position)%nat →
  column_at (chunks_at files position) i
  = Some (column_of files input_files (position + i))
  ∧ length (column_of files input_files (position + i)) = length input_files.
Proof.
  intros Hsized Hpos Hi. unfold handles_at, column_of.
  induction Hsized as [|path paths Hpath _ [Hcol Hlen]]; [done|].
  rewrite !fmap_cons. cbn [column_at omap list_omap].
  rewrite (read_lookup _ _ _ _ _ _ Hpath Hpos Hi), Hcol.
  destruct Hpath as (data & Hdata & Hsize). apply Nat2Z.inj in Hsize.
  destruct (lookup_lt_is_Some_2 data (position + i)) as [b Hb].
  { unfold chunk_length in Hi. destruct (chunk_size <? 0); lia. }
  assert (byte_at files path (position + i) = Some b) as Hbyte.
  { unfold byte_at. by rewrite Hdata. }
  rewrite !Hbyte. cbn [fmap option_fmap option_map]. split; [done|].
  cbn [length]. by rewrite Hlen.
Qed.

Lemma column_of_bytes files i z :
  z ∈ column_of files input_files i →
  ∃ path b, path ∈ input_files ∧ byte_at files path i = Some b ∧ z = int_of_byte b.
Proof.
  unfold column_of. rewrite list_elem_of_omap. intros (path & Hin & Hz).
  destruct (byte_at files path i) as [b|] eqn:Hb; [|done].
  injection Hz as <-. by exists path, b.
Qed.

Lemma column_of_agree files files' i :
  (∀ path, path ∈ input_files → files !! path = files' !! path) →
  column_of files input_files i = column_of files' input_files i.
Proof.
  intros Hsame. unfold column_of. induction input_files as [|path paths IH]; [done|].
  cbn [omap list_omap].
  assert (byte_at files path i = byte_at files' path i) as ->.
  { unfold byte_at. rewrite (Hsame path); [done|left]. }
  rewrite IH; [done|]. intros other Hother. apply Hsame. by right.
Qed.

Lemma conflicts_next files position :
  conflicts files input_files (position + 1)
  = conflicts files input_files position
    ++ (if differs (column_of files input_files position) then [position] else []).
Proof.
  unfold conflicts. rewrite Nat.add_1_r, seq_S, List.filter_app. simpl.
  by destruct (differs _).
Qed.

Lemma conflicts_below files position i :
  i ∈ conflicts files input_files position →
  (i < position)%nat ∧ differs (column_of files input_files i) = true.
Proof.
  unfold conflicts. rewrite list_elem_of_In, List.filter_In, <- list_elem_of_In.
  rewrite elem_of_seq. intros [? ?]. split; [lia|done].
Qed.

Lemma column_at_bytes chunks i column :
  column_at chunks i = Some column → Forall (fun z => ∃ b, z = int_of_byte b) column.
Proof.
  intros Hcol%column_at_spec. apply Forall_forall. intros z Hz.
  apply list_elem_of_lookup in Hz as [j Hj].
  destruct (Forall2_lookup_r _ _ _ _ _ Hcol Hj) as (chunk & _ & b & _ & ->). by exists b.
Qed.

(** A byte other than the null byte occurs as often without the null
    bytes as with them. *)
Lemma occurrences_filter_nulls b byte_list files :
  b ≠ 0 → length byte_list = length files →
  occurrences b (filter_nulls byte_list files).*1 = occurrences b byte_list.
Proof.
  intros Hb. unfold occurrences, filter_nulls. revert files.
  induction byte_list as [|x l IH]; intros [|f files] Hlen; try done.
  injection Hlen as Hlen. specialize (IH files Hlen). apply Nat2Z.inj in IH.
  cbn [zip zip_with]. rewrite !filter_cons. cbn [fst].
  destruct (decide (x ≠ 0)) as [Hx|Hx].
  - rewrite fmap_cons, filter_cons. cbn [fst].
    destruct (decide (x = b)); cbn [length]; by rewrite IH.
  - apply dec_stable in Hx. rewrite decide_False by congruence. by rewrite IH.
Qed.

(** What one offset does when it completes, said exactly. *)
Lemma offset_body_returns file_handles chunks bytes_processed column st i w st' w' :
  column_at chunks i = Some column →
  length column = length input_files →
  offset_body file_handles chunks bytes_processed st i w = (Ok st', w') →
  ∃ b,
    int_of_byte b ∈ column
    ∧ fs w' = <[output_file := default [] (fs w !! output_file) ++ [b]]> (fs w)
    ∧ if differs column
      then voted w' = voted w ++ [bytes_processed + Z.of_nat i]
           ∧ discrepancy_count st' = discrepancy_count st + 1
           ∧ report_data st'
             = (if report_wanted report_file
                then report_data st
                       ++ [Discrepancy (bytes_processed + Z.of_nat i) (int_of_byte b)
                             (occurrences (int_of_byte b) column,
                              Z.of_nat (length file_handles))
                             (counter_of column)]
                else report_data st)
      else st' = st ∧ voted w' = voted w.
Proof.
  intros Hcol Hlen. pose proof (column_at_bytes _ _ _ Hcol) as Hbytes.
  unfold process_position. rewrite Hcol.
  destruct column as [|first column]; [done|].
  unfold differs. destruct (forallb _ _) eqn:Hall; cbn [negb].
  - destruct (write_byte_of_column output_file _ first w Hbytes) as (b & -> & Hw);
      [left|]. unfold mbind, M_bind, bind. rewrite Hw. intros [= <- <-].
    exists b. split_and!; [left|done..].
  - unfold mbind at 1. unfold M_bind, bind.
    pose proof (get_voted_byte_kinds int_of_str (first :: column)
                  (Z.of_nat (length file_handles)) threshold margin
                  (bytes_processed + Z.of_nat i) ignore_nulls interactive
                  input_files w) as Hkinds.
    destruct (get_voted_byte _ _ _ _ _ _ _ _ _ _) as [[[byte counts]|x] w1] eqn:Hvote;
      [|done].
    apply get_voted_byte_effect in Hvote as (Hfs & _ & Hvoted).
    simpl in Hkinds. destruct Hkinds as [Hin Hcounts].
    destruct (write_byte_of_column output_file _ byte w1 Hbytes Hin) as (b & -> & Hw).
    assert (counter_get (int_of_byte b) counts
            = occurrences (int_of_byte b) (first :: column)) as Hget.
    { destruct Hcounts as [->|(_ & _ & Hnz & ->)]; rewrite counter_of_get; [done|].
      by apply occurrences_filter_nulls. }
    unfold mbind at 1. unfold M_bind, bind.
    assert (∃ w2, (if verbose && negb interactive
                   then print (DiscrepancyAt (bytes_processed + Z.of_nat i)
                                 (int_of_byte b, counts).1 (int_of_byte b, counts).2)
                   else ret tt) w1 = (Ok tt, w2)
                  ∧ fs w2 = fs w1 ∧ voted w2 = voted w1) as (w2 & -> & Hfs2 & Hvoted2).
    { destruct (verbose && negb interactive); by eexists. }
    unfold mbind, M_bind, bind.
    destruct (write_byte_of_column output_file _ (int_of_byte b) w2 Hbytes Hin)
      as (b' & ->%int_of_byte_inj & Hw2).
    cbn [fst snd]. rewrite Hw2. intros [= <- <-]. exists b'. cbn.
    rewrite Hfs2, Hfs, Hvoted2, Hvoted, Hget. done.
Qed.

Lemma row_for_longer files out b i row :
  row_for files input_files out i row → row_for files input_files (out ++ [b]) i row.
Proof.
  intros (b' & Hb' & ->). exists b'. split; [|done]. by apply lookup_app_l_Some.
Qed.

Lemma tallied_say files0 voted0 position st e w :
  tallied files0 voted0 input_files output_file report_file position st w →
  tallied files0 voted0 input_files output_file report_file position st (say e w).
Proof. by intros [? ? ? ?]. Qed.

(** One more offset keeps what [tallied] says. *)
Lemma tallied_step files0 voted0 size position i file_handles st w st' w' :
  Forall (sized files0 (Z.of_nat size)) input_files →
  (position ≤ size)%nat →
  (i < chunk_length chunk_size size position)%nat →
  length file_handles = length input_files →
  tallied files0 voted0 input_files output_file report_file (position + i) st w →
  offset_body file_handles (chunks_at files0 position) (Z.of_nat position) st i w
  = (Ok st', w') →
  tallied files0 voted0 input_files output_file report_file (position + i + 1) st' w'.
Proof.
  intros Hsized Hpos Hi Hhandles
    [Hinputs (out & Hout & Hlen & Hfrom & Hreport) Hvoted Hcount] Hbody.
  destruct (column_at_column_of _ _ _ _ Hsized Hpos Hi) as [Hcol Hcolumn].
  destruct (offset_body_returns _ _ _ _ _ _ _ _ _ Hcol Hcolumn Hbody)
    as (b & Hin & Hfs & Hif).
  rewrite Hout in Hfs. cbn [default] in Hfs.
  assert (∀ j b', (out ++ [b]) !! j = Some b' →
                  int_of_byte b' ∈ column_of files0 input_files j) as Hfrom'.
  { intros j b' [Hj|[Hj Hb]]%lookup_app_Some; [by apply Hfrom|].
    apply list_lookup_singleton_Some in Hb as [Hj' <-].
    by replace j with (position + i)%nat by lia. }
  assert ((out ++ [b]) !! (position + i)%nat = Some b) as Hlast.
  { rewrite lookup_app_r by lia. by rewrite Hlen, Nat.sub_diag. }
  split.
  - intros path Hpath. by rewrite Hfs, lookup_insert_ne, Hinputs.
  - exists (out ++ [b]). rewrite Hfs, lookup_insert_eq.
    split_and!; [done|rewrite length_app; simpl; lia|done|].
    rewrite conflicts_next.
    destruct (differs _).
    + destruct Hif as (_ & _ & ->). destruct (report_wanted report_file); [|done].
      apply Forall2_app.
      * eapply Forall2_impl; [exact Hreport|]. intros. by apply row_for_longer.
      * constructor; [|constructor]. exists b. split; [done|].
        by rewrite Hhandles, Nat2Z.inj_add.
    + destruct Hif as [-> _]. rewrite app_nil_r.
      destruct (report_wanted report_file); [|done].
      eapply Forall2_impl; [exact Hreport|]. intros. by apply row_for_longer.
  - rewrite conflicts_next. destruct (differs _).
    + destruct Hif as (-> & _). rewrite Hvoted, fmap_app, app_assoc. simpl.
      by rewrite Nat2Z.inj_add.
    + destruct Hif as [_ ->]. by rewrite app_nil_r.
  - rewrite conflicts_next. destruct (differs _).
    + destruct Hif as (_ & -> & _). rewrite Hcount, length_app. simpl. lia.
    + destruct Hif as [-> _]. by rewrite app_nil_r.
Qed.

(** The loop, from [position] to the end of the files. *)
Lemma stream_loop_tallied files0 voted0 fuel size position st w st' w' :
  output_file ∉ input_files →
  input_files ≠ [] →
  chunk_size ≠ 0 →
  Forall (sized files0 (Z.of_nat size)) input_files →
  (position ≤ size)%nat →
  tallied files0 voted0 input_files output_file report_file position st w →
  streaming_loop fuel (Z.of_nat size) (handles_at input_files position)
    (Z.of_nat position) st w = (Ok st', w') →
  tallied files0 voted0 input_files output_file report_file size st' w'.
Proof.
  intros Hout Hne Hcs Hsized. revert position st w.
  induction fuel as [|fuel IH]; intros position st w Hpos Hst; simpl.
  - destruct (Z.ltb_spec (Z.of_nat position) (Z.of_nat size)); [done|].
    intros [= <- <-]. by replace size with position by lia.
  - destruct (Z.ltb_spec (Z.of_nat position) (Z.of_nat size)) as [Hlt|Hge].
    2:{ intros [= <- <-]. by replace size with position by lia. }
    unfold mbind at 1. unfold M_bind, bind, get_fs.
    rewrite (read_agree input_files chunk_size (fs w) files0).
    2:{ intros path Hin. apply (tallied_inputs _ _ _ _ _ _ _ _ Hst). by intros ->. }
    destruct (read_handles_at input_files chunk_size files0 size position Hsized Hpos)
      as [Hhandles Hchunks].
    set (n := chunk_length chunk_size size position) in *.
    assert (0 < n)%nat as Hn.
    { unfold n, chunk_length. destruct (Z.ltb_spec chunk_size 0); lia. }
    rewrite Hhandles.
    set (chunks := chunks_at files0 position) in *.
    assert (chunks ≠ []) as Hchunks_ne.
    { unfold chunks, handles_at. destruct input_files; [done|]. by rewrite !fmap_cons. }
    destruct (existsb _ chunks) eqn:Hany.
    2:{ apply (existsb_empty _ _ Hchunks_ne Hchunks) in Hany. lia. }
    simpl. destruct chunks as [|chunk0 chunks'] eqn:Hreads; [done|].
    apply Forall_cons in Hchunks as Hlen. destruct Hlen as [Hlen _]. rewrite Hlen.
    unfold mbind at 1. unfold M_bind, bind.
    destruct (for_each _ _ _ _) as [[st1|x] w1] eqn:Hfor; [|done].
    unfold mbind, M_bind, bind, print. rewrite <- Nat2Z.inj_add.
    assert (n ≤ size - position)%nat as Hle.
    { unfold n, chunk_length. destruct (chunk_size <? 0); lia. }
    apply IH; [lia|]. apply tallied_say.
    pose proof (for_each_invariant
                  (fun j st w =>
                     tallied files0 voted0 input_files output_file report_file j st w)
                  _ _ position _ _ _ _ Hfor Hst) as Hinv.
    rewrite length_seq in Hinv. apply Hinv.
    intros j x st2 w2 st3 w3 [-> Hj]%lookup_seq HI Hstep. simpl in *.
    eapply (tallied_step _ _ size position j (handles_at input_files (position + n)));
      [done..| |done|].
    + unfold handles_at. by rewrite length_fmap.
    + unfold chunks in Hreads. rewrite Hreads. exact Hstep.
Qed.

Lemma conflicts_agree files files' position :
  (∀ path, path ∈ input_files → files !! path = files' !! path) →
  conflicts files input_files position = conflicts files' input_files position.
Proof.
  intros Hsame. unfold conflicts. apply List.filter_ext. intros i.
  by rewrite (column_of_agree files files' i Hsame).
Qed.

Lemma abort_raises e w : ∃ e' w', abort output_file e w = (Raise e', w').
Proof.
  unfold abort, remove, mbind, M_bind, bind, print, get_fs, set_fs.
  destruct e; simpl; try (by eexists _, _); destruct (fs w !! output_file);
    by eexists _, _.
Qed.

(** The streaming phase, when it completes, from files of [size] bytes. *)
Lemma streaming_tallied size w st w' :
  output_file ∉ input_files →
  input_files ≠ [] →
  chunk_size ≠ 0 →
  Forall (sized (fs w) (Z.of_nat size)) input_files →
  streaming (Z.of_nat size) w = (Ok st, w') →
  tallied (fs w) (voted w) input_files output_file report_file size st w'.
Proof.
  intros Hout Hne Hcs Hsized.
  rewrite stream_unfold, (open_all_sized _ _ _ Hsized), Nat2Z.id.
  set (files0 := <[output_file := []]> (fs w)).
  assert (∀ path, path ∈ input_files → files0 !! path = fs w !! path) as Hsame.
  { intros path Hin. unfold files0. rewrite lookup_insert_ne; [done|by intros <-]. }
  assert (Forall (sized files0 (Z.of_nat size)) input_files) as Hsized0.
  { rewrite Forall_forall in *. intros path Hin. unfold sized.
    rewrite (Hsame path Hin). by apply Hsized. }
  change 0 with (Z.of_nat 0). intros Hloop.
  apply (stream_loop_tallied files0 (voted w)) in Hloop; [|done..|lia|].
  - destruct Hloop as [Hinputs (out & Hout' & Hlen & Hfrom & Hreport) Hvoted Hcount].
    rewrite (conflicts_agree files0 (fs w) size Hsame) in *.
    split; [|exists out; split_and!|done..]; [|done|done| |].
    + intros path Hpath. rewrite (Hinputs path Hpath). unfold files0.
      by rewrite lookup_insert_ne.
    + intros i b Hb. rewrite <- (column_of_agree files0 (fs w) i Hsame). by apply Hfrom.
    + destruct (report_wanted report_file); [|done].
      eapply Forall2_impl; [exact Hreport|]. intros i row (b & Hb & ->).
      exists b. by rewrite (column_of_agree files0 (fs w) i Hsame).
  - split; simpl.
    + done.
    + exists []. unfold files0. rewrite lookup_insert_eq.
      split_and!; [done..|]. destruct (report_wanted report_file); [constructor|done].
    + by rewrite app_nil_r.
    + done.
Qed.


Lemma closing_lines {A} (l : list A) a b c :
  ∃ earlier, ((l ++ [a]) ++ [b]) ++ [c] = earlier ++ [a; b; c].
Proof. exists l. by rewrite <- !app_assoc. Qed.


(** ** Input files that agree everywhere *)

Lemma elem_of_conflicts files position i :
  i ∈ conflicts files input_files position
  ↔ (i < position)%nat ∧ differs (column_of files input_files i) = true.
Proof.
  unfold conflicts. rewrite list_elem_of_In, List.filter_In, <- list_elem_of_In.
  rewrite elem_of_seq. split; intros [? ?]; split; [lia|done|lia|done].
Qed.

Lemma differs_false column x y :
  differs column = false → x ∈ column → y ∈ column → x = y.
Proof.
  destruct column as [|first column]; [by intros _ ?%elem_of_nil|].
  unfold differs. intros Hall%negb_false_iff. rewrite forallb_forall in Hall.
  intros Hx%list_elem_of_In%Hall%Z.eqb_eq Hy%list_elem_of_In%Hall%Z.eqb_eq. congruence.
Qed.

Lemma column_of_elem files path i b :
  path ∈ input_files → byte_at files path i = Some b →
  int_of_byte b ∈ column_of files input_files i.
Proof.
  intros Hin Hb. unfold column_of. apply list_elem_of_omap. exists path.
  split; [done|]. by rewrite Hb.
Qed.

(** An offset fails only where the input files differ. *)
Lemma offset_body_raises_differs files size position i file_handles st w e w' :
  input_files ≠ [] →
  Forall (sized files (Z.of_nat size)) input_files →
  (position ≤ size)%nat →
  (i < chunk_length chunk_size size position)%nat →
  offset_body file_handles (chunks_at files position) (Z.of_nat position) st i w
  = (Raise e, w') →
  differs (column_of files input_files (position + i)) = true.
Proof.
  intros Hne Hsized Hpos Hi.
  destruct (column_at_column_of _ _ _ _ Hsized Hpos Hi) as [Hcol Hlen].
  pose proof (column_at_bytes _ _ _ Hcol) as Hbytes.
  unfold process_position. rewrite Hcol.
  destruct (column_of _ _ _) as [|first column]; [by destruct input_files|].
  unfold differs. destruct (forallb _ _); [|done]. cbn [negb].
  destruct (write_byte_of_column output_file _ first w Hbytes) as (b & _ & Hw);
    [left|]. unfold mbind, M_bind, bind. by rewrite Hw.
Qed.

Lemma streaming_loop_raises_conflict files0 fuel size position st w e w' :
  output_file ∉ input_files →
  input_files ≠ [] →
  (size - position < fuel)%nat →
  (position ≤ size)%nat →
  Forall (sized files0 (Z.of_nat size)) input_files →
  (∀ path, path ∈ input_files → fs w !! path = files0 !! path) →
  streaming_loop fuel (Z.of_nat size) (handles_at input_files position)
    (Z.of_nat position) st w = (Raise e, w') →
  conflicts files0 input_files size ≠ [].
Proof.
  intros Hout Hne. revert position st w.
  induction fuel as [|fuel IH]; intros position st w Hfuel Hpos Hsized Hsame; [lia|].
  simpl. destruct (_ <? _); [|done].
  unfold mbind at 1. unfold M_bind, bind, get_fs.
  rewrite (read_agree input_files chunk_size (fs w) files0 _ Hsame).
  destruct (read_handles_at input_files chunk_size files0 size position Hsized Hpos)
    as [Hhandles Hchunks].
  set (n := chunk_length chunk_size size position) in *.
  rewrite Hhandles.
  destruct (existsb _ _) eqn:Hany; [|done]. simpl.
  apply (existsb_nonempty _ _ Hchunks) in Hany.
  destruct (_.*1) as [|chunk0 chunks] eqn:Hreads.
  { exfalso. unfold handles_at in Hreads. destruct input_files; [done|].
    by rewrite !fmap_cons in Hreads. }
  apply Forall_cons in Hchunks as [Hn _]. rewrite Hn.
  unfold mbind at 1. unfold M_bind, bind.
  assert (n ≤ size - position)%nat as Hle.
  { unfold n, chunk_length. destruct (chunk_size <? 0); lia. }
  destruct (for_each _ _ _ _) as [[st1|x] w1] eqn:Hfor.
  - unfold mbind, M_bind, bind, print.
    rewrite <- Nat2Z.inj_add. apply IH; [lia..|done|].
    intros path Hin. simpl. rewrite <- (Hsame path Hin).
    assert (only_writes output_file w w1) as [Hother _].
    { eapply (respects_for_each (only_writes output_file)); [|exact Hfor].
      intros. apply body_only_writes. }
    apply Hother. by intros ->.
  - intros [= <- _]. apply for_each_raises in Hfor as (st0 & i & w0 & Hi & Hbody).
    apply list_elem_of_lookup in Hi as [j [-> Hj]%lookup_seq]. simpl in Hbody.
    rewrite <- Hreads in Hbody.
    apply offset_body_raises_differs with (size := size) in Hbody; [|done..].
    intros Hnone.
    assert ((position + j)%nat ∈ conflicts files0 input_files size) as Hin.
    { apply elem_of_conflicts. split; [lia|done]. }
    rewrite Hnone in Hin. by apply elem_of_nil in Hin.
Qed.


End MoreDriver.

Section Frame.

#[local] Instance other_files_kept_preorder output report :
  PreOrder (other_files_kept output report).
Proof.
  split; [done|]. intros w1 w2 w3 H12 H23 other Hout Hrep.
  by rewrite H23, H12.
Qed.

Lemma same_files_kept output report w w' :
  same_files w w' → other_files_kept output report w w'.
Proof. intros Hfs other _ _. by rewrite Hfs. Qed.

Lemma print_kept output report e : respects (other_files_kept output report) (print e).
Proof.
  eapply respects_weaken; [apply same_files_kept|apply print_same_files].
Qed.

Variable int_of_str : string -> option Z.
Variables (input_files : list string) (output_file : string)
  (threshold : spec_float) (margin : option spec_float) (verbose : bool)
  (report_file : option string) (chunk_size : Z)
  (force ignore_nulls interactive : bool).
Variable render_report : list discrepancy -> list byte.

Lemma announce_kept size :
  respects (other_files_kept output_file report_file)
    (announce input_files output_file threshold margin report_file force size).
Proof.
  intros w r w'.
  destruct (announce_says input_files output_file threshold margin report_file force
              size w) as [events ->].
  intros [= _ <-]. by apply same_files_kept.
Qed.

Lemma stream_kept size :
  respects (other_files_kept output_file report_file)
    (stream int_of_str input_files output_file threshold margin verbose report_file
       chunk_size ignore_nulls interactive size).
Proof.
  intros w r w'. rewrite stream_unfold.
  destruct (map_M open_rb input_files w) as [[hs|x] w0] eqn:Hopen;
    apply map_M_open_rb in Hopen as [-> _]; [|by intros [= _ <-]].
  intros [Hother _]%stream_loop_only_writes other Hout _. simpl in Hother.
  by rewrite Hother, lookup_insert_ne.
Qed.

Lemma abort_kept e :
  respects (other_files_kept output_file report_file) (abort output_file e).
Proof.
  assert (respects (other_files_kept output_file report_file) (remove output_file))
    as Hremove.
  { intros w r w'. unfold remove, mbind, M_bind, bind, get_fs, set_fs.
    destruct (fs w !! output_file); intros [= _ <-]; [|done].
    intros other Hout _. simpl. by rewrite lookup_delete_ne. }
  unfold abort. destruct e; try (apply respects_raise; apply _).
  - apply respects_bind; [apply _|apply print_kept|]. intros [].
    apply respects_bind; [apply _|apply Hremove|]. intros [].
    apply respects_raise; apply _.
  - apply respects_bind; [apply _|apply print_kept|]. intros [].
    apply respects_bind; [apply _|apply Hremove|]. intros [].
    apply respects_raise; apply _.
Qed.

Lemma finish_kept st :
  respects (other_files_kept output_file report_file)
    (finish output_file report_file render_report st).
Proof.
  unfold finish. apply respects_bind; [apply _| |].
  - destruct report_file as [path|] eqn:Hreport; [|apply respects_ret; apply _].
    destruct (_ && _); [|apply respects_ret; apply _].
    apply respects_bind; [apply _| |intros []; apply print_kept].
    intros w r w'. unfold write_file, mbind, M_bind, bind, get_fs, set_fs.
    intros [= _ <-] other _ Hrep. simpl. rewrite lookup_insert_ne; [done|congruence].
  - intros []. apply respects_bind; [apply _|apply print_kept|]. intros [].
    apply respects_bind; [apply _|apply print_kept|]. intros []. apply print_kept.
Qed.

(** X6: a run changes no file but the output file and the report: every
    other path, an input file among them, holds after the run what it
    held before, however the run ends. *)
Theorem other_files_are_left_alone w other :
  other ≠ output_file →
  report_file ≠ Some other →
  fs (create_corrected_firmware int_of_str input_files output_file threshold margin
        verbose report_file chunk_size force ignore_nulls interactive render_report
        w).2 !! other
  = fs w !! other.
Proof.
  intros Hout Hrep.
  assert (respects (other_files_kept output_file report_file)
            (create_corrected_firmware int_of_str input_files output_file threshold
               margin verbose report_file chunk_size force ignore_nulls interactive
               render_report)) as Hrun.
  { unfold create_corrected_firmware. destruct input_files as [|f0 rest] eqn:Hfiles;
      [apply print_kept|]. rewrite <- Hfiles.
    apply respects_bind; [apply _| |].
    { intros w0 r w'. unfold path_exists, mbind, M_bind, bind, get_fs.
      by intros [= _ <-]. }
    intros present. destruct (present && negb force).
    { apply respects_bind; [apply _|apply print_kept|]. intros [].
      apply respects_raise; apply _. }
    apply respects_bind; [apply _| |].
    { eapply respects_weaken; [apply same_files_kept|apply check_sizes_same_files]. }
    intros [size|]; [|apply respects_ret; apply _].
    apply respects_bind; [apply _|apply announce_kept|]. intros [].
    apply respects_bind; [apply _| |apply finish_kept].
    apply respects_try_except; [apply _|apply stream_kept|apply abort_kept]. }
  destruct (create_corrected_firmware _ _ _ _ _ _ _ _ _ _ _ _ w) as [r w'] eqn:Hw.
  by apply (Hrun _ _ _ Hw).
Qed.

End Frame.


(** * The chunk size *)

Section Chunking.

Variable int_of_str : string -> option Z.
Variables (input_files : list string) (output_file : string)
  (threshold : spec_float) (margin : option spec_float) (verbose : bool)
  (report_file : option string) (force ignore_nulls : bool).
Variable render_report : list discrepancy -> list byte.

(** The input files read in one piece. *)
Local Abbreviation whole files :=
  ((fun path => default [] (files !! path)) <$> input_files).

Local Abbreviation offset_step :=
  (process_position int_of_str input_files output_file threshold margin verbose
     report_file ignore_nulls false).

(** The offsets one after the other, without chunks. *)
Local Abbreviation by_offset files :=
  (offset_step (handles_at input_files 0) (whole files) 0).

Local Abbreviation chunked_loop chunk_size :=
  (stream_loop int_of_str input_files output_file threshold margin verbose report_file
     chunk_size ignore_nulls false).

Local Abbreviation chunked_stream chunk_size :=
  (stream int_of_str input_files output_file threshold margin verbose report_file
     chunk_size ignore_nulls false).

Local Abbreviation chunked_run chunk_size :=
  (create_corrected_firmware int_of_str input_files output_file threshold margin
     verbose report_file chunk_size force ignore_nulls false render_report).

Lemma for_each_app {A St} (step : St → A → M St) l1 l2 st w :
  for_each step (l1 ++ l2) st w
  = match for_each step l1 st w with
    | (Ok st1, w1) => for_each step l2 st1 w1
    | (Raise e, w1) => (Raise e, w1)
    end.
Proof.
  revert st w. induction l1 as [|x l1 IH]; intros st w; simpl; [done|].
  unfold mbind, M_bind, bind. destruct (step st x w) as [[st1|e] w1]; [apply IH|done].
Qed.

Lemma for_each_seq_ext {St} (f g : St → nat → M St) a b n st w :
  (∀ i st w, (i < n)%nat → f st (a + i)%nat w = g st (b + i)%nat w) →
  for_each f (seq a n) st w = for_each g (seq b n) st w.
Proof.
  revert a b st w. induction n as [|n IH]; intros a b st w Hfg; simpl; [done|].
  unfold mbind, M_bind, bind.
  pose proof (Hfg 0%nat st w) as H0. rewrite !Nat.add_0_r in H0. rewrite H0 by lia.
  destruct (g st b w) as [[st1|e] w1]; [|done]. apply IH.
  intros i st2 w2 Hi.
  replace (S a + i)%nat with (a + S i)%nat by lia.
  replace (S b + i)%nat with (b + S i)%nat by lia. apply Hfg. lia.
Qed.

(** An offset depends on the chunks through its column only, on the
    handles through their number, and on the position through the
    offset. *)
Lemma process_position_ext file_handles file_handles' chunks chunks'
    bytes_processed bytes_processed' st i i' :
  length file_handles = length file_handles' →
  column_at chunks i = column_at chunks' i' →
  bytes_processed + Z.of_nat i = bytes_processed' + Z.of_nat i' →
  offset_step file_handles chunks bytes_processed st i
  = offset_step file_handles' chunks' bytes_processed' st i'.
Proof.
  intros Hlen Hcol Hoffset. unfold process_position. by rewrite Hlen, Hcol, Hoffset.
Qed.

Lemma column_at_whole files size i :
  Forall (sized files (Z.of_nat size)) input_files →
  (i < size)%nat →
  column_at (whole files) i = Some (column_of files input_files i).
Proof.
  intros Hsized Hi. unfold column_of.
  induction Hsized as [|path paths Hpath _ IH]; [done|].
  rewrite fmap_cons. cbn [column_at omap list_omap]. rewrite IH.
  destruct Hpath as (data & Hdata & Hsize). apply Nat2Z.inj in Hsize.
  destruct (lookup_lt_is_Some_2 data i) as [b Hb]; [lia|].
  assert (byte_at files path i = Some b) as Hbyte.
  { unfold byte_at. by rewrite Hdata. }
  rewrite Hdata, Hbyte. change (default [] (Some data)) with data. by rewrite Hb.
Qed.

(** The offsets of a chunk, as offsets of the files. *)
Lemma chunk_as_offsets chunk_size files size position file_handles st w :
  Forall (sized files (Z.of_nat size)) input_files →
  (position ≤ size)%nat →
  length file_handles = length input_files →
  for_each (offset_step file_handles
              (read files chunk_size <$> handles_at input_files position).*1
              (Z.of_nat position))
    (seq 0 (chunk_length chunk_size size position)) st w
  = for_each (by_offset files) (seq position (chunk_length chunk_size size position))
      st w.
Proof.
  intros Hsized Hpos Hlen. apply for_each_seq_ext. intros i st1 w1 Hi.
  assert (position + i < size)%nat as Hlt.
  { unfold chunk_length in Hi. destruct (chunk_size <? 0); lia. }
  rewrite (process_position_ext file_handles (handles_at input_files 0)
             _ (whole files) (Z.of_nat position) 0 st1 (0 + i) (position + i)); [done| | |].
  - unfold handles_at. by rewrite length_fmap.
  - cbn [Nat.add].
    destruct (column_at_column_of input_files chunk_size files size position i
                Hsized Hpos Hi) as [-> _].
    by rewrite (column_at_whole files size).
  - lia.
Qed.

(** One round of the loop. *)
Lemma chunked_loop_round chunk_size files0 fuel size position st w :
  chunk_size ≠ 0 →
  input_files ≠ [] →
  (position < size)%nat →
  Forall (sized files0 (Z.of_nat size)) input_files →
  (∀ path, path ∈ input_files → fs w !! path = files0 !! path) →
  let n := chunk_length chunk_size size position in
  chunked_loop chunk_size (S fuel) (Z.of_nat size) (handles_at input_files position)
    (Z.of_nat position) st w
  = match for_each (by_offset files0) (seq position n) st w with
    | (Ok st1, w1) =>
        chunked_loop chunk_size fuel (Z.of_nat size)
          (handles_at input_files (position + n)) (Z.of_nat (position + n)) st1
          (say (Progress (Z.of_nat (position + n)) (Z.of_nat size)) w1)
    | (Raise e, w1) => (Raise e, w1)
    end.
Proof.
  intros Hcs Hne Hpos Hsized Hsame n. simpl.
  destruct (Z.ltb_spec (Z.of_nat position) (Z.of_nat size)) as [Hlt|Hge]; [|lia].
  unfold mbind at 1. unfold M_bind, bind, get_fs.
  rewrite (read_agree input_files chunk_size (fs w) files0 _ Hsame).
  destruct (read_handles_at input_files chunk_size files0 size position Hsized)
    as [Hhandles Hchunks]; [lia|].
  fold n in Hhandles, Hchunks.
  assert (0 < n)%nat as Hn.
  { unfold n, chunk_length. destruct (Z.ltb_spec chunk_size 0); lia. }
  rewrite Hhandles.
  set (chunks := (read files0 chunk_size <$> handles_at input_files position).*1) in *.
  assert (chunks ≠ []) as Hchunks_ne.
  { unfold chunks, handles_at. destruct input_files; [done|]. by rewrite !fmap_cons. }
  destruct (existsb _ chunks) eqn:Hany.
  2:{ apply (existsb_empty _ _ Hchunks_ne Hchunks) in Hany. lia. }
  cbn [negb]. destruct chunks as [|chunk0 chunks'] eqn:Hreads; [done|].
  apply Forall_cons in Hchunks as Hlen. destruct Hlen as [Hlen _]. rewrite Hlen.
  unfold mbind at 1. unfold M_bind, bind. rewrite <- Hreads. unfold chunks, n.
  rewrite (chunk_as_offsets chunk_size files0 size position); [|done|lia|].
  2:{ unfold handles_at. by rewrite length_fmap. }
  fold n.
  destruct (for_each (by_offset files0) (seq position n) st w) as [[st1|x] w1]; [|done].
  unfold mbind, M_bind, bind, print. by rewrite <- Nat2Z.inj_add.
Qed.

(** With interactive mode off, the result of the loop and the files it
    leaves are those of the offsets taken one after the other, whatever
    the chunk size, as long as it is not 0. *)
Lemma chunked_loop_as_offsets chunk_size files0 fuel size position st w :
  chunk_size ≠ 0 →
  output_file ∉ input_files →
  input_files ≠ [] →
  (size - position < fuel)%nat →
  (position ≤ size)%nat →
  Forall (sized files0 (Z.of_nat size)) input_files →
  (∀ path, path ∈ input_files → fs w !! path = files0 !! path) →
  let chunked :=
    chunked_loop chunk_size fuel (Z.of_nat size) (handles_at input_files position)
      (Z.of_nat position) st w in
  let plain := for_each (by_offset files0) (seq position (size - position)) st w in
  chunked.1 = plain.1 ∧ fs (chunked.2) = fs (plain.2).
Proof.
  intros Hcs Hout Hne. revert position st w.
  induction fuel as [|fuel IH]; intros position st w Hfuel Hpos Hsized Hsame; [lia|].
  destruct (decide (position < size)%nat) as [Hlt|Hge].
  2:{ replace (size - position)%nat with 0%nat by lia. simpl.
      by destruct (Z.ltb_spec (Z.of_nat position) (Z.of_nat size)); [lia|]. }
  intros chunked plain. unfold chunked, plain. clear chunked plain.
  rewrite (chunked_loop_round chunk_size files0) by done.
  set (n := chunk_length chunk_size size position).
  assert (0 < n ≤ size - position)%nat as Hn.
  { unfold n, chunk_length. destruct (Z.ltb_spec chunk_size 0); lia. }
  replace (size - position)%nat with (n + (size - (position + n)))%nat by lia.
  rewrite seq_app, for_each_app.
  destruct (for_each (by_offset files0) (seq position n) st w) as [[st1|x] w1] eqn:Hfor;
    [|done].
  set (w2 := say _ w1).
  destruct (IH (position + n)%nat st1 w2) as [Hr Hfs]; [lia|lia|done| |].
  { intros path Hin. unfold w2. simpl. rewrite <- (Hsame path Hin).
    assert (only_writes output_file w w1) as [Hother _].
    { eapply (respects_for_each (only_writes output_file)); [|exact Hfor].
      intros. apply body_only_writes. }
    apply Hother. by intros ->. }
  rewrite Hr, Hfs.
  apply (oblivious_for_each (by_offset files0)); [|done].
  intros. apply oblivious_body.
Qed.

Lemma chunked_stream_as_offsets chunk_size size w :
  chunk_size ≠ 0 →
  output_file ∉ input_files →
  input_files ≠ [] →
  Forall (sized (fs w) (Z.of_nat size)) input_files →
  let chunked := chunked_stream chunk_size (Z.of_nat size) w in
  let plain :=
    for_each (by_offset (fs w)) (seq 0 size) (Locals 0 [])
      (with_fs (<[output_file := []]> (fs w)) w) in
  chunked.1 = plain.1 ∧ fs (chunked.2) = fs (plain.2).
Proof.
  intros Hcs Hout Hne Hsized.
  rewrite stream_unfold, (open_all_sized _ _ _ Hsized), Nat2Z.id.
  pose proof (chunked_loop_as_offsets chunk_size (fs w) (S size) size 0 (Locals 0 [])
                (with_fs (<[output_file := []]> (fs w)) w) Hcs Hout Hne) as Hloop.
  rewrite Nat.sub_0_r in Hloop. apply Hloop; [lia|lia|done|].
  intros path Hin. simpl. rewrite lookup_insert_ne; [done|by intros <-].
Qed.


End Chunking.

(** * An output file that is one of the input files *)

Section Aliasing.

Variable int_of_str : string -> option Z.
Variables (first : string) (rest : list string) (output_file : string)
  (threshold : spec_float) (margin : option spec_float) (verbose : bool)
  (report_file : option string) (chunk_size : Z)
  (ignore_nulls interactive : bool).
Variable render_report : list discrepancy -> list byte.

Local Abbreviation aliased_loop :=
  (stream_loop int_of_str (first :: rest) output_file threshold margin verbose
     report_file chunk_size ignore_nulls interactive).

Local Abbreviation aliased_stream :=
  (stream int_of_str (first :: rest) output_file threshold margin verbose report_file
     chunk_size ignore_nulls interactive).

Local Abbreviation forced_run :=
  (create_corrected_firmware int_of_str (first :: rest) output_file threshold margin
     verbose report_file chunk_size true ignore_nulls interactive render_report).

(** Nothing is left to read of a file that has just been truncated. *)
Lemma read_truncated files path position :
  files !! path = Some [] → read files chunk_size (path, position) = ([], (path, position)).
Proof.
  intros Hfile. unfold read. simpl. rewrite Hfile. simpl. rewrite drop_nil.
  destruct (chunk_size <? 0); simpl; by rewrite ?take_nil, Nat.add_0_r.
Qed.

Lemma column_at_short chunks i :
  [] ∈ chunks → column_at chunks i = None.
Proof.
  induction chunks as [|chunk chunks IH]; [by intros ?%elem_of_nil|].
  intros [<-|Hin]%elem_of_cons; simpl; [done|].
  destruct (chunk !! i); [|done]. by rewrite IH.
Qed.

(** The output file is the first input file: every round reads an empty
    first chunk, so that no offset is processed, until the other files
    have been read to their ends. *)
Lemma aliased_loop_first fuel size position st w :
  fs w !! first = Some [] →
  Forall (sized (fs w) (Z.of_nat size)) rest →
  (position ≤ size)%nat →
  (size - position < fuel)%nat →
  ∃ events,
    aliased_loop fuel (Z.of_nat size) ((first, 0%nat) :: handles_at rest position)
      0 st w
    = (Ok st, say_all events w).
Proof.
  revert position w.
  induction fuel as [|fuel IH]; intros position w Hempty Hsized Hpos Hfuel; [lia|].
  cbn [stream_loop]. destruct (0 <? Z.of_nat size); [|exists []; by rewrite say_all_nil].
  unfold mbind at 1. unfold M_bind, bind, get_fs.
  rewrite fmap_cons, (read_truncated _ _ _ Hempty), !fmap_cons. cbn [fst snd existsb is_empty negb orb].
  destruct (read_handles_at rest chunk_size (fs w) size position Hsized Hpos)
    as [Hhandles Hchunks].
  set (n := chunk_length chunk_size size position) in *.
  destruct (existsb _ _) eqn:Hany; cbn [negb];
    [|exists []; by rewrite say_all_nil].
  apply (existsb_nonempty _ _ Hchunks) in Hany.
  assert (n ≤ size - position)%nat as Hle.
  { unfold n, chunk_length. destruct (chunk_size <? 0); lia. }
  cbn [length seq for_each]. unfold mbind, M_bind, bind, ret, print.
  rewrite Hhandles.
  destruct (IH (position + n)%nat (say (Progress (0 + Z.of_nat 0) (Z.of_nat size)) w))
    as [events Hloop]; [done|done|lia|lia|].
  change (0 + Z.of_nat 0) with 0 in *.
  eexists. etrans; [exact Hloop|]. by rewrite say_say_all, say_all_app.
Qed.

(** The output file is another of the input files: its chunk is empty
    and the first offset has no column. *)
Lemma aliased_loop_other size st w :
  first ≠ output_file →
  output_file ∈ rest →
  chunk_size ≠ 0 →
  (0 < size)%nat →
  fs w !! output_file = Some [] →
  sized (fs w) (Z.of_nat size) first →
  aliased_loop (S size) (Z.of_nat size) (handles_at (first :: rest) 0) 0 st w
  = (Raise IndexError, w).
Proof.
  intros Hfirst Hin Hcs Hsize Hempty Hsized.
  cbn [stream_loop]. destruct (Z.ltb_spec 0 (Z.of_nat size)); [|lia].
  unfold mbind at 1. unfold M_bind, bind, get_fs.
  unfold handles_at. rewrite !fmap_cons. cbn [fst snd].
  destruct (read_sized chunk_size (fs w) size 0 first Hsized) as [_ Hlen]; [lia|].
  assert (0 < chunk_length chunk_size size 0)%nat as Hn.
  { unfold chunk_length. destruct (Z.ltb_spec chunk_size 0); lia. }
  destruct ((read (fs w) chunk_size (first, 0%nat)).1) as [|b chunk0] eqn:Hchunk0;
    [simpl in Hlen; lia|].
  cbn [existsb is_empty negb orb length seq for_each].
  set (chunks := (b :: chunk0) :: _).
  assert (column_at chunks 0 = None) as Hcol.
  { apply column_at_short. right. apply list_elem_of_fmap.
    exists ([], (output_file, 0%nat)). split; [done|].
    apply list_elem_of_fmap. exists (output_file, 0%nat). split.
    - by rewrite (read_truncated _ _ _ Hempty).
    - apply list_elem_of_fmap. by exists output_file. }
  assert (∀ file_handles,
            process_position int_of_str (first :: rest) output_file threshold margin
              verbose report_file ignore_nulls interactive file_handles chunks 0 st
              0%nat w
            = (Raise IndexError, w)) as Hstep.
  { intros file_handles. unfold process_position. by rewrite Hcol. }
  unfold mbind, M_bind, bind. by rewrite Hstep.
Qed.


End Aliasing.

(** * Worked examples *)

(** C2 at the column AA AA BB BB of four files: the tie is reported
    although the agreement 2/4 meets the threshold 0.5. *)
Lemma tie_fails_at_AABB :
  _attempt_vote [170; 170; 187; 187] 4 f0_5 None 0 ["a"; "b"; "c"; "d"]%string
    (World ∅ [] [] [] [])
  = (Raise (ValueError (TieDetected [170; 187] 2
              (PerFile [("a", 170); ("b", 170); ("c", 187); ("d", 187)]%string))),
     World ∅ [] [] [] []).
Proof.
  exact (proj1 (tie_fails_whatever_the_threshold [170; 170; 187; 187] 4 f0_5 None 0
                  ["a"; "b"; "c"; "d"]%string 170 187 2 [] (World ∅ [] [] [] [])
                  eq_refl)).
Defined.

(** C3 at the column AA AA AA BB CC of five files, threshold 0.9 and
    margin 1.0, from the general statement. *)
Lemma margin_resolves_AAABC :
  (_attempt_vote [170; 170; 170; 187; 204] 5 f0_9 (Some f1_0) 0 [] (World ∅ [] [] [] []))
  = (Ok (170, [(170, 3); (187, 1); (204, 1)]), World ∅ [] [] [] []).
Proof.
  exact (proj2 (proj2 (proj1 margin_fallback [170; 170; 170; 187; 204] 5 f0_9 (Some f1_0) 0 []
                  170 3 [(187, 1); (204, 1)] (World ∅ [] [] [] [])
                  eq_refl eq_refl ltac:(lia)))).
Defined.

(** C4 at the column AA AA BB 00 of four files, threshold 0.9: the
    first vote fails with agreement 2/4, and so does the retry on
    AA AA BB. *)
Lemma agreement_after_filtering :
  _attempt_vote [170; 170; 187] 4 f0_9 None 0 ["a"; "b"; "c"]%string
    (World ∅ [] [] [] [])
  = (Raise (ValueError (ThresholdNotMet 170 2 4 f0_5 f0_9 MarginNotSet
              [(170, 2); (187, 1)]
              (PerFile [("a", 170); ("b", 170); ("c", 187)]%string))),
     World ∅ [] [] [] []).
Proof.
  destruct (proj1 (agreement_over_num_files decimal) [170; 170; 187] 4 f0_9 None 0
              ["a"; "b"; "c"]%string 170 2 [(187, 1)] (World ∅ [] [] [] [])
              eq_refl eq_refl ltac:(lia)) as (_ & _ & _ & Herr).
  destruct (Herr _ _ eq_refl) as [note Hnote]. reflexivity.
Defined.

(** C7 as stated fails: with interactive mode on, the error of an empty
    column brings up the prompt, where the answer 1 is rejected and the
    prompt comes again, until the operator gives up. *)
Lemma empty_column_reaches_the_prompt :
  get_voted_byte decimal [] 3 f0_65 None 5 false true ["a"; "b"; "c"]%string
    (World ∅ [Line "1"; CtrlC] [] [] [])
  = (Raise KeyboardInterrupt,
     World ∅ [] [ErrPrint (ErrorAtOffset 5 EmptyColumn); ErrInteractiveBanner;
                 PleaseSelect; Prompt 0; ErrInvalidChoice; Prompt 0] [] [5]).
Proof. reflexivity. Qed.

(** C8 at the column AA AA BB BB: after a word and a number that is
    not on the menu, the answer 2 selects BB. *)
Lemma operator_selects_BB :
  (get_voted_byte decimal [170; 170; 187; 187] 4 f0_65 None 9 false true
     ["a"; "b"; "c"; "d"]%string
     (World ∅ [Line "BB"; Line "7"; Line "2"; Line "1"] [] [] [])).1
  = Ok (187, [(170, 2); (187, 2)]).
Proof.
  destruct (operator_choice_resolves decimal [170; 170; 187; 187] 4 f0_65 None 9 false
              ["a"; "b"; "c"; "d"]%string _ _
              (World ∅ [Line "BB"; Line "7"; Line "2"; Line "1"] [] [] []) _ _
              ["BB"; "7"]%string "2"%string 2 [Line "1"]
              eq_refl eq_refl
              ltac:(repeat constructor) eq_refl ltac:(simpl; lia) eq_refl)
    as (byte & count & Hnth & _ & _ & Heq).
  rewrite Heq. injection Hnth as <- _. reflexivity.
Defined.


(** C6 at two input files of one and two bytes: the size check fails,
    its message is printed, no file is touched, and the function
    returns, so that the process exits with status 0. *)
Theorem different_sizes_exit_with_status_0 :
  let files : gmap string (list byte) :=
    <["a"%string := [x01]]> (<["b"%string := [x01; x02]]> ∅) in
  let w := World files [] [] [] [] in
  let outcome :=
    create_corrected_firmware decimal ["a"; "b"]%string "out" f0_65 None false None 8192
      false false false one_byte_per_row w in
  outcome = (Ok tt, say (DifferentSize "b") w)
  ∧ exit_status outcome.1 = 0
  ∧ fs outcome.2 = files.
Proof. vm_compute. by split_and!. Qed.



(** C10 at the column 00 00 AA of three files. *)
Lemma nulls_and_AA_keep_a_byte :
  filter_nulls [0; 0; 170] ["a"; "b"; "c"]%string ≠ [].
Proof.
  exact (proj2 (proj1 (only_nulls_is_unreachable decimal ["a"; "b"; "c"]%string "out"
                         f0_65 None false None 1 false false)
                  [0; 0; 170] eq_refl eq_refl)).
Defined.

(** ** More worked examples *)

Ltac decided := apply (bool_decide_unpack _); vm_compute; exact I.

Ltac files_sized :=
  repeat (constructor; [eexists; split; [vm_compute; reflexivity|reflexivity]|]);
  constructor.



(** X6 at the same run: the dump [a] is as it was. *)
Lemma dump_a_is_left_alone :
  fs (create_corrected_firmware decimal ["a"; "b"; "c"]%string "out" f0_65 None false
        (Some "report.csv"%string) 1 false false true one_byte_per_row
        (World three_way_dumps [] [] [] [])).2 !! "a"%string
  = three_way_dumps !! "a"%string.
Proof.
  exact (other_files_are_left_alone decimal ["a"; "b"; "c"]%string "out" f0_65 None false
           (Some "report.csv"%string) 1 false false true one_byte_per_row
           (World three_way_dumps [] [] [] []) "a"%string
           ltac:(discriminate) ltac:(discriminate)).
Defined.




(** X10 at the column AA AA BB of three files: the vote that passes
    with the threshold 0.65 passes with 0.5 and a margin of 1.0. *)
Lemma vote_of_0_65_passes_at_0_5 :
  ∃ w2,
    _attempt_vote [170; 170; 187] 3 f0_5 (Some f1_0) 1 ["a"; "b"; "c"]%string
      (World ∅ [] [] [] [])
    = (Ok (170, [(170, 2); (187, 1)]), w2).
Proof.
  exact (relaxing_keeps_the_vote [170; 170; 187] 3 f0_65 f0_5 None (Some f1_0) 1
           ["a"; "b"; "c"]%string (World ∅ [] [] [] []) (170, [(170, 2); (187, 1)])
           (World ∅ [] [] [] []) eq_refl I eq_refl).
Defined.

